(** * Deal checker scripts: identifier extraction, prices, batching, pacing, signing

    A shallow embedding of the three scripts of the repository

      - [check-deal-amazon-api.mjs]  (signed product API, "PA" below),
      - [check-deals-keepa.mjs]      (keyed price-history API, "Keepa" below),
      - [scrape-deals.mjs]           (browser driven scraper),

    followed by the properties proved about them.  JavaScript strings are
    modelled by [string] (sequences of 8-bit characters; every character class
    used by the scripts is a set of ASCII characters, so a non-ASCII character
    is outside all of them in either reading), JavaScript [Map]s by [gmap],
    arrays by [list], [null]/[undefined] results by [option], exceptions by the
    [outcome] type, and JavaScript numbers by the type [num] below, or by
    binary64 numbers where the rounding of the arithmetic matters. *)

From Stdlib Require Import ZArith QArith Qround Qabs Lqa Ascii String List Lia.
From Stdlib Require Import DecimalString DecimalNat Permutation.
From Stdlib Require Floats Zpower.
From stdpp Require Import base option list strings gmap.

Open Scope string_scope.
Open Scope list_scope.

(* ===================================================================== *)
(** * Part I: the programs                                                *)
(* ===================================================================== *)

(** ** Exceptions *)

Inductive outcome (A : Type) : Type :=
| Ret (a : A)
| Throw.
Arguments Ret {A} a.
Arguments Throw {A}.

Definition bind {A B} (m : outcome A) (f : A -> outcome B) : outcome B :=
  match m with
  | Ret a => f a
  | Throw => Throw
  end.

(** [try { body } catch { handler }] *)
Definition try_catch {A} (body handler : outcome A) : outcome A :=
  match body with
  | Ret a => Ret a
  | Throw => handler
  end.

Notation "'let!' x ':=' m 'in' k" := (bind m (fun x => k))
  (at level 10, x name, m at level 100, k at level 200).

(** ** Characters and strings *)

Module Str.

Definition between (lo hi c : ascii) : bool :=
  (Ascii.leb lo c && Ascii.leb c hi)%bool.

Definition isDigit (c : ascii) : bool := between "0" "9" c.
Definition isUpper (c : ascii) : bool := between "A" "Z" c.
Definition isLower (c : ascii) : bool := between "a" "z" c.

Definition upChar (c : ascii) : ascii :=
  if isLower c then ascii_of_nat (nat_of_ascii c - 32) else c.

(** [s.toUpperCase()] *)
Fixpoint toUpperCase (s : string) : string :=
  match s with
  | EmptyString => EmptyString
  | String c s' => String (upChar c) (toUpperCase s')
  end.

(** [s.toLowerCase()] *)
Fixpoint toLowerCase (s : string) : string :=
  match s with
  | EmptyString => EmptyString
  | String c s' =>
      String (if isUpper c then ascii_of_nat (nat_of_ascii c + 32) else c)
             (toLowerCase s')
  end.

(** Two characters are equal under the [i] flag. *)
Definition ciEq (a b : ascii) : bool := Ascii.eqb (upChar a) (upChar b).

(** The class [[A-Z0-9]] under the [i] flag. *)
Definition isAlnum (c : ascii) : bool :=
  (isUpper c || isLower c || isDigit c)%bool.

(** The class [[A-Z0-9]] without the flag: what an upper-cased identifier
    consists of. *)
Definition isUpperAlnum (c : ascii) : bool := (isUpper c || isDigit c)%bool.

Fixpoint all (p : ascii -> bool) (s : string) : bool :=
  match s with
  | EmptyString => true
  | String c s' => (p c && all p s')%bool
  end.

Fixpoint filter (p : ascii -> bool) (s : string) : string :=
  match s with
  | EmptyString => EmptyString
  | String c s' => if p c then String c (filter p s') else filter p s'
  end.

Fixpoint count (p : ascii -> bool) (s : string) : nat :=
  match s with
  | EmptyString => 0
  | String c s' => (if p c then 1 else 0) + count p s'
  end.

(** [s.slice(0, n)] for [0 <= n] *)
Fixpoint take (n : nat) (s : string) : string :=
  match n, s with
  | S n', String c s' => String c (take n' s')
  | _, _ => EmptyString
  end.

Fixpoint drop (n : nat) (s : string) : string :=
  match n, s with
  | S n', String _ s' => drop n' s'
  | _, _ => s
  end.

(** [s.replace(c, '')] with a one-character string pattern: only the first
    occurrence is replaced. *)
Fixpoint removeFirst (c : ascii) (s : string) : string :=
  match s with
  | EmptyString => EmptyString
  | String d s' => if Ascii.eqb c d then s' else String d (removeFirst c s')
  end.

(** [parts.join(sep)] *)
Fixpoint join (sep : string) (parts : list string) : string :=
  match parts with
  | [] => ""
  | [p] => p
  | p :: ps => p +:+ sep +:+ join sep ps
  end.

(** [s] without its prefix [p], compared without regard to case. *)
Fixpoint stripPrefixCi (p s : string) : option string :=
  match p, s with
  | EmptyString, _ => Some s
  | String a p', String b s' => if ciEq a b then stripPrefixCi p' s' else None
  | String _ _, EmptyString => None
  end.

(** The first [n] characters of [s], all of class [p], and the rest. *)
Fixpoint takeClass (n : nat) (p : ascii -> bool) (s : string) : option (string * string) :=
  match n with
  | O => Some (EmptyString, s)
  | S n' =>
      match s with
      | String c s' =>
          if p c
          then match takeClass n' p s' with
               | Some (b, r) => Some (String c b, r)
               | None => None
               end
          else None
      | EmptyString => None
      end
  end.

(** A JavaScript string is falsy exactly when it is empty. *)
Definition truthy (s : string) : bool :=
  match s with
  | EmptyString => false
  | _ => true
  end.

End Str.

(** ** Regular expressions

    The scripts use a handful of regular expressions, none with a star.  They
    are transcribed as data and run by one backtracking matcher, so that each
    pattern below can be compared with its source literally. *)

Module Re.

Inductive regex : Type :=
| Eps                            (* empty pattern *)
| Chr (p : ascii -> bool)        (* one character of a class *)
| Seq (a b : regex)              (* ab *)
| Alt (a b : regex)              (* a|b *)
| Rep (n : nat) (a : regex)      (* a{n} *)
| Cap (a : regex)                (* (a) *)
| Bos                            (* ^ *)
| Eos.                           (* $ *)

(** A continuation receives the position reached, the rest of the input and
    the groups captured so far. *)
Definition cont (R : Type) : Type := nat -> string -> list string -> option R.

(** [run r i s caps k]: match [r] against [s], the rest of the input from
    position [i] on, and continue with [k]; a failing continuation makes the
    matcher backtrack into the alternatives of [r]. *)
Fixpoint run {R} (r : regex) (i : nat) (s : string) (caps : list string)
  (k : cont R) : option R :=
  match r with
  | Eps => k i s caps
  | Chr p =>
      match s with
      | String c s' => if p c then k (S i) s' caps else None
      | EmptyString => None
      end
  | Seq a b => run a i s caps (fun i' s' caps' => run b i' s' caps' k)
  | Alt a b =>
      match run a i s caps k with
      | Some res => Some res
      | None => run b i s caps k
      end
  | Rep n a =>
      (fix rep (n : nat) (k : cont R) : cont R :=
         match n with
         | O => k
         | S n' => fun i s caps => run a i s caps (rep n' k)
         end) n k i s caps
  | Cap a =>
      run a i s caps
        (fun i' s' caps' => k i' s' (caps' ++ [Str.take (i' - i) s]))
  | Bos => if Nat.eqb i 0 then k i s caps else None
  | Eos =>
      match s with
      | EmptyString => k i s caps
      | String _ _ => None
      end
  end.

Definition accept : cont (list string) := fun _ _ caps => Some caps.

(** The match of [r] starting exactly at position [i]. *)
Definition matchAt (r : regex) (i : nat) (s : string) : option (list string) :=
  run r i s [] accept.

(** The leftmost match at or after position [i]. *)
Fixpoint execFrom (r : regex) (i : nat) (s : string) : option (list string) :=
  match matchAt r i s with
  | Some caps => Some caps
  | None =>
      match s with
      | EmptyString => None
      | String _ s' => execFrom r (S i) s'
      end
  end.

(** [s.match(r)] for a pattern without the [g] flag: the capture groups
    of the leftmost match ([m[1]] is the head of the list), or [None]. *)
Definition exec (r : regex) (s : string) : option (list string) := execFrom r 0 s.

(** [r.test(s)] *)
Definition test (r : regex) (s : string) : bool :=
  match exec r s with
  | Some _ => true
  | None => false
  end.

(** The number of characters consumed by the match of [r] at the head of
    [s]. *)
Definition matchLen (r : regex) (i : nat) (s : string) : option nat :=
  run r i s [] (fun i' _ _ => Some (i' - i)).

(** [s.replace(r, '')] for a pattern with the [g] flag: every match is
    deleted, scanning from the left and resuming after each match. *)
Fixpoint deleteAllFrom (r : regex) (skip i : nat) (s : string) : string :=
  match s with
  | EmptyString => EmptyString
  | String c s' =>
      match skip with
      | S skip' => deleteAllFrom r skip' (S i) s'
      | O =>
          match matchLen r i s with
          | Some (S n) => deleteAllFrom r n (S i) s'
          | _ => String c (deleteAllFrom r 0 (S i) s')
          end
      end
  end.

Definition deleteAll (r : regex) (s : string) : string := deleteAllFrom r 0 0 s.

(** A literal under the [i] flag. *)
Fixpoint lit (s : string) : regex :=
  match s with
  | EmptyString => Eps
  | String c s' => Seq (Chr (Str.ciEq c)) (lit s')
  end.

(** A literal character, case-sensitive. *)
Definition chr (c : ascii) : regex := Chr (Ascii.eqb c).

(** [a1|a2|...|an] *)
Fixpoint alts (l : list regex) : regex :=
  match l with
  | [] => Chr (fun _ => false)
  | [a] => a
  | a :: l' => Alt a (alts l')
  end.

Fixpoint seqs (l : list regex) : regex :=
  match l with
  | [] => Eps
  | [a] => a
  | a :: l' => Seq a (seqs l')
  end.

(** [m[1]] *)
Definition group1 (caps : list string) : string := nth 0 caps "".

End Re.

(** ** Identifier extraction *)

Module Patterns.
Import Re.

Definition alnum10 : regex := Cap (Rep 10 (Chr Str.isAlnum)).

(** [/\/(?:dp|gp\/product|gp\/aw\/d|gp\/offer-listing)\/([A-Z0-9]{10})/i] *)
Definition pathKeyword : regex :=
  seqs [lit "/";
        alts [lit "dp"; lit "gp/product"; lit "gp/aw/d"; lit "gp/offer-listing"];
        lit "/";
        alnum10].

(** [/\/([A-Z0-9]{10})(?:[/?#]|$)/i] *)
Definition bareSegment : regex :=
  seqs [lit "/";
        alnum10;
        alts [Chr (fun c => (Ascii.eqb c "/" || Ascii.eqb c "?" || Ascii.eqb c "#")%bool);
              Eos]].

(** [/^[A-Z0-9]{10}$/i] *)
Definition wholeAsin : regex := seqs [Bos; Rep 10 (Chr Str.isAlnum); Eos].

(** [/(?:\/dp\/|\/gp\/product\/|\/gp\/aw\/d\/|\/gp\/offer-listing\/)([A-Z0-9]{10})/i] *)
Definition rawKeyword : regex :=
  seqs [alts [lit "/dp/"; lit "/gp/product/"; lit "/gp/aw/d/"; lit "/gp/offer-listing/"];
        alnum10].

(** [/\/dp\/([A-Z0-9]{10})/i] *)
Definition dp : regex := seqs [lit "/dp/"; alnum10].

(** [/\/gp\/product\/([A-Z0-9]{10})/i] *)
Definition gpProduct : regex := seqs [lit "/gp/product/"; alnum10].

(** [/[^\d.,]/g] *)
Definition notPriceChar : regex :=
  Chr (fun c => negb (Str.isDigit c || Ascii.eqb c "." || Ascii.eqb c ",")%bool).

(** [/[:-]|\.\d{3}/g] *)
Definition isoPunct : regex :=
  alts [Chr (fun c => (Ascii.eqb c ":" || Ascii.eqb c "-")%bool);
        seqs [chr "."; Rep 3 (Chr Str.isDigit)]].

End Patterns.

(** The part of a parsed URL that the scripts read. *)
Record URL : Type := mkURL {
  hostname : string;
  pathname : string;
  searchParams : list (string * string)
}.

(** [params.get(name)]: the value of the first pair named [name]. *)
Fixpoint searchParams_get (params : list (string * string)) (name : string)
  : option string :=
  match params with
  | [] => None
  | (k, v) :: rest => if String.eqb k name then Some v else searchParams_get rest name
  end.

(** [a || b] on results that are a string or [null]. *)
Definition orElse (a b : option string) : option string :=
  match a with
  | Some s => if Str.truthy s then a else b
  | None => b
  end.

Section Extractor.

(** [new URL(url)] is the platform's URL parser; it throws on a string that is
    not an absolute URL. *)
Variable URL_new : string -> outcome URL.

(** [extractASIN] of [check-deal-amazon-api.mjs] and [check-deals-keepa.mjs]
    (the two copies are identical). *)
Definition extractASIN (url : string) : outcome (option string) :=
  try_catch
    (let! u := URL_new url in
     match Re.exec Patterns.pathKeyword (pathname u) with
     | Some m1 => Ret (Some (Str.toUpperCase (Re.group1 m1)))
     | None =>
         match Re.exec Patterns.bareSegment (pathname u) with
         | Some m2 => Ret (Some (Str.toUpperCase (Re.group1 m2)))
         | None =>
             let qp := orElse (searchParams_get (searchParams u) "asin")
                              (searchParams_get (searchParams u) "ASIN") in
             match qp with
             | Some v =>
                 if (Str.truthy v && Re.test Patterns.wholeAsin v)%bool
                 then Ret (Some (Str.toUpperCase v))
                 else Ret None
             | None => Ret None
             end
         end
     end)
    (match Re.exec Patterns.rawKeyword url with
     | Some m => Ret (Some (Str.toUpperCase (Re.group1 m)))
     | None => Ret None
     end).

End Extractor.

(** [extractASINFromUrl] of [scrape-deals.mjs]. *)
Definition extractASINFromUrl (url : string) : option string :=
  match Re.exec Patterns.dp url with
  | Some dpMatch => Some (Re.group1 dpMatch)
  | None =>
      match Re.exec Patterns.gpProduct url with
      | Some gpMatch => Some (Re.group1 gpMatch)
      | None => None
      end
  end.

(** ** Numbers

    A JavaScript number is a finite value, [NaN] or an infinity.  A finite
    value is modelled by the rational it denotes, kept in lowest terms, and
    arithmetic on finite values is exact: the binary rounding of a result and
    the overflow of the finite range are not modelled, and neither is the sign
    of zero.  What is proved over [num] are ranges, signs and which fields
    are absent, none of which the rounding changes; the values of the
    discount fields are treated over binary64 numbers, in [Binary64]
    below. *)

Module Num.

Inductive num : Type :=
| Fin (q : Q)
| NaN
| PInf
| NInf.

Definition fin (q : Q) : num := Fin (Qred q).
Definition ofZ (z : Z) : num := Fin (z # 1).

Definition Qltb (x y : Q) : bool := negb (Qle_bool y x).

(** [a - b] *)
Definition sub (a b : num) : num :=
  match a, b with
  | Fin x, Fin y => fin (x - y)
  | NaN, _ | _, NaN => NaN
  | PInf, PInf | NInf, NInf => NaN
  | PInf, _ | _, NInf => PInf
  | NInf, _ | _, PInf => NInf
  end.

(** The infinity of the sign of [x] when [pos], of the opposite sign
    otherwise; [NaN] for [x = 0]. *)
Definition signedInf (pos : bool) (x : Q) : num :=
  if Qeq_bool x 0 then NaN
  else if Bool.eqb pos (Qltb 0 x) then PInf else NInf.

(** [a * b] *)
Definition mul (a b : num) : num :=
  match a, b with
  | Fin x, Fin y => fin (x * y)
  | NaN, _ | _, NaN => NaN
  | PInf, Fin y | Fin y, PInf => signedInf true y
  | NInf, Fin y | Fin y, NInf => signedInf false y
  | PInf, PInf | NInf, NInf => PInf
  | PInf, NInf | NInf, PInf => NInf
  end.

(** [a / b] *)
Definition div (a b : num) : num :=
  match a, b with
  | Fin x, Fin y => if Qeq_bool y 0 then signedInf true x else fin (x / y)
  | NaN, _ | _, NaN => NaN
  | Fin _, (PInf | NInf) => Fin 0
  | PInf, Fin y => if Qltb y 0 then NInf else PInf
  | NInf, Fin y => if Qltb y 0 then PInf else NInf
  | (PInf | NInf), (PInf | NInf) => NaN
  end.

(** [a < b] *)
Definition ltb (a b : num) : bool :=
  match a, b with
  | Fin x, Fin y => Qltb x y
  | NaN, _ | _, NaN => false
  | _, NInf | PInf, _ => false
  | NInf, _ | _, PInf => true
  end.

(** [a <= b] *)
Definition leb (a b : num) : bool :=
  match a, b with
  | Fin x, Fin y => Qle_bool x y
  | NaN, _ | _, NaN => false
  | NInf, _ | _, PInf => true
  | _, NInf | PInf, _ => false
  end.

(** [a > b] and [a >= b] *)
Definition gtb (a b : num) : bool := ltb b a.
Definition geb (a b : num) : bool := leb b a.

(** [Number.isFinite(a)] on a number *)
Definition isFinite (a : num) : bool :=
  match a with
  | Fin _ => true
  | _ => false
  end.

(** A number is falsy exactly when it is zero or [NaN]. *)
Definition truthy (a : num) : bool :=
  match a with
  | Fin x => negb (Qeq_bool x 0)
  | NaN => false
  | PInf | NInf => true
  end.

(** The integer nearest to [x >= 0], the larger one of two. *)
Definition nearestUp (x : Q) : Z := Qfloor (x + (1 # 2)).

(** [Number(a.toFixed(2))].  [toFixed] prints the decimal with two fractional
    digits nearest to the magnitude, the larger of two candidates, under the
    sign of the number; from [1e21] on it prints the number itself, as it
    does for [NaN] and the infinities. *)
Definition toFixed2 (a : num) : num :=
  match a with
  | Fin x =>
      if Qle_bool (10 ^ 21) (Qabs x) then Fin x
      else if Qltb x 0 then fin (- (nearestUp (- x * 100) # 100))
      else fin (nearestUp (x * 100) # 100)
  | _ => a
  end.

End Num.

Import Num.

(** A field of a provider's JSON answer that holds a number when present. *)
Inductive value : Type :=
| VUndefined
| VNull
| VNum (x : num).

(** [v ?? null] *)
Definition orNull (v : value) : option num :=
  match v with
  | VNum x => Some x
  | _ => None
  end.

(** [v ?? w] *)
Definition coalesce (v w : value) : value :=
  match v with
  | VNum _ => v
  | _ => w
  end.

(** [arr?.[i]] *)
Definition index (arr : list value) (i : nat) : value :=
  match arr !! i with
  | Some v => v
  | None => VUndefined
  end.

(** [Number.isFinite(v) && v > 0] *)
Definition isPositiveFinite (v : value) : bool :=
  match v with
  | VNum x => (Num.isFinite x && Num.gtb x (Fin 0))%bool
  | _ => false
  end.

(** ** Prices and discounts *)

(** The digits of a decimal numeral, most significant first. *)
Fixpoint digitsValue (acc : Z) (s : string) : Z :=
  match s with
  | EmptyString => acc
  | String c s' => digitsValue (10 * acc + Z.of_nat (nat_of_ascii c - 48)) s'
  end.

(** The longest prefix of digits, and the rest. *)
Fixpoint spanDigits (s : string) : string * string :=
  match s with
  | String c s' =>
      if Str.isDigit c
      then let (d, r) := spanDigits s' in (String c d, r)
      else (EmptyString, s)
  | EmptyString => (EmptyString, EmptyString)
  end.

(** [parseFloat(s)] for a string of digits, [.] and [,], the only characters
    that reach it: the value of the longest prefix that is a decimal numeral
    ([12], [12.], [12.5], [.5]), [NaN] when there is none.  Leading blanks,
    signs, exponents and [Infinity] cannot occur in such a string.  The value
    is the exact one: its rounding to binary64, and the overflow to
    [Infinity] of a numeral of more than 308 digits, are not modelled. *)
Definition parseFloat (s : string) : num :=
  let (ip, r) := spanDigits s in
  let fp := match r with
            | String "."%char r' => fst (spanDigits r')
            | _ => EmptyString
            end in
  match ip, fp with
  | EmptyString, EmptyString => NaN
  | _, _ => fin (digitsValue 0 (ip +:+ fp) # Z.to_pos (10 ^ Z.of_nat (String.length fp)))
  end.

(** [parsePriceText] of [scrape-deals.mjs]; [None] is a [null] text or a
    [null] result. *)
Definition parsePriceText (text : option string) : option num :=
  match text with
  | None => None
  | Some t =>
      if negb (Str.truthy t) then None
      else
        let cleaned := Str.removeFirst "," (Re.deleteAll Patterns.notPriceChar t) in
        let value := parseFloat cleaned in
        if Num.isFinite value then Some value else None
  end.

(** The triple [{ hasDiscount, pct, save }]. *)
Record discount : Type := mkDiscount {
  hasDiscount : bool;
  pct : option num;
  save : option num
}.

(** [computeDiscount] of [scrape-deals.mjs], on the numbers of the records;
    [Binary64.computeDiscount] below is the same function on binary64
    numbers. *)
Definition computeDiscount (original current : option num) : discount :=
  match original, current with
  | Some o, Some c =>
      if Num.geb c o then mkDiscount false (Some (Fin 0)) (Some (Fin 0))
      else
        let diff := Num.sub o c in
        let pct := Num.toFixed2 (Num.mul (Num.div diff o) (Num.ofZ 100)) in
        let save := Num.toFixed2 diff in
        mkDiscount true (Some pct) (Some save)
  | _, _ => mkDiscount false None None
  end.

(** [a && b] as a condition, on values that are a number or [null]. *)
Definition bothTruthy (a b : option num) : bool :=
  match a, b with
  | Some x, Some y => (Num.truthy x && Num.truthy y)%bool
  | _, _ => false
  end.

(** Arithmetic on operands that passed [bothTruthy]; a [null] operand counts
    as [0], as [Number(null)] does. *)
Definition numOf (a : option num) : num :=
  match a with
  | Some x => x
  | None => Fin 0
  end.

(** [fmtUsd] of the two API scripts. *)
Definition fmtUsd (price : option num) : option num :=
  match price with
  | None => None
  | Some x => Some (Num.toFixed2 x)
  end.

(** [pct] of the two API scripts. *)
Definition pctOf (originalPrice currentPrice : option num) : num :=
  if bothTruthy originalPrice currentPrice
  then Num.mul (Num.div (Num.sub (numOf originalPrice) (numOf currentPrice))
                        (numOf originalPrice)) (Num.ofZ 100)
  else Fin 0.

(** [keepaToUSD] of [check-deals-keepa.mjs]. *)
Definition keepaToUSD (p : value) : option num :=
  match p with
  | VNum x =>
      if (negb (Num.isFinite x) || Num.leb x (Fin 0))%bool then None
      else Some (Num.toFixed2 (Num.div x (Num.ofZ 100)))
  | _ => None
  end.

(** ** The discount arithmetic in binary64

    The records of this development carry their numbers as exact rationals
    ([num] above).  The discount computations are given here over the numbers
    of the platform: IEEE 754 binary64, where every subtraction, division and
    multiplication rounds to the nearest number, to the even one of two. *)

Module Binary64.

Import PrimFloat SpecFloat FloatOps.

(** [a >= b] and [a > b]; both are false when an operand is [NaN]. *)
Definition geb (a b : float) : bool := (b <=? a)%float.
Definition gtb (a b : float) : bool := (b <? a)%float.

(** A number is falsy exactly when it is a zero or [NaN]. *)
Definition truthy (a : float) : bool := negb (is_nan a || is_zero a).

(** The magnitude [m * 2^e] of a finite number. *)
Definition magnitude (m : positive) (e : Z) : Q := (inject_Z (Zpos m) * 2 ^ e)%Q.

(** [Number(s)] for the decimal numeral [s] of [n / 100], with a minus sign
    before it when [negative]: the number nearest to the value of the
    numeral. *)
Definition ofHundredths (negative : bool) (n : Z) : float :=
  match n with
  | Zpos p =>
      SF2Prim (SFdiv prec emax (S754_finite negative p 0) (S754_finite false 100 0))
  | _ => if negative then neg_zero else zero
  end.

(** [Number(x.toFixed(2))].  For a finite [x] below [1e21] in magnitude,
    [toFixed] prints the sign of a negative [x] and the integer [n] for
    which [n / 100] is nearest to the magnitude of [x], the larger one of
    two, with a point before the last two digits; from [1e21] on it prints
    the number itself, as it does for [NaN] and the infinities. *)
Definition toFixed2 (x : float) : float :=
  match Prim2SF x with
  | S754_finite s m e =>
      if Qle_bool (10 ^ 21) (magnitude m e) then x
      else ofHundredths s (Num.nearestUp (magnitude m e * 100))
  | S754_zero _ => zero
  | _ => x
  end.

(** The triple [{ hasDiscount, pct, save }]. *)
Record discount : Type := mkDiscount {
  hasDiscount : bool;
  pct : option float;
  save : option float
}.

(** [computeDiscount] of [scrape-deals.mjs]. *)
Definition computeDiscount (original current : option float) : discount :=
  match original, current with
  | Some o, Some c =>
      if geb c o then mkDiscount false (Some 0%float) (Some 0%float)
      else
        let diff := (o - c)%float in
        let pct := toFixed2 (diff / o * 100)%float in
        let save := toFixed2 diff in
        mkDiscount true (Some pct) (Some save)
  | _, _ => mkDiscount false None None
  end.

(** [a && b] as a condition, on values that are a number or [null]. *)
Definition bothTruthy (a b : option float) : bool :=
  match a, b with
  | Some x, Some y => (truthy x && truthy y)%bool
  | _, _ => false
  end.

(** Arithmetic on operands that passed [bothTruthy]; a [null] operand counts
    as [0]. *)
Definition numberOf (a : option float) : float :=
  match a with
  | Some x => x
  | None => 0%float
  end.

(** [fmtUsd] of the two API scripts. *)
Definition fmtUsd (price : option float) : option float :=
  match price with
  | None => None
  | Some x => Some (toFixed2 x)
  end.

(** [pct] of the two API scripts. *)
Definition pctOf (originalPrice currentPrice : option float) : float :=
  if bothTruthy originalPrice currentPrice
  then ((numberOf originalPrice - numberOf currentPrice) / numberOf originalPrice * 100)%float
  else 0%float.

(** [(original && current) ? original - current : 0] *)
Definition discountAmtOf (original current : option float) : float :=
  if bothTruthy original current
  then (numberOf original - numberOf current)%float
  else 0%float.

(** The fields [HasDiscount], [DiscountPct] and [YouSave] of the row that
    [processTxtFile] writes for an item for which [summarizePA] or
    [summarizeKeepa] found the prices [original] and [current]:
    [discountPct], [discountAmt] and [hasDiscount] of the summary, then
    [Number(r.discountPct.toFixed(2))] and [fmtUsd(r.discountAmt)]. *)
Definition apiDiscount (original current : option float) : discount :=
  let discountPct := pctOf original current in
  let discountAmt := discountAmtOf original current in
  let hasDiscount := gtb discountAmt 0%float in
  mkDiscount hasDiscount (Some (toFixed2 discountPct)) (fmtUsd (Some discountAmt)).

End Binary64.

(** ** Batcher *)

(** [Math.ceil(n / size)] for a positive [size]. *)
Definition ceilDiv (n size : nat) : nat := (n + size - 1) / size.

(** [arr.slice(from, to)] for [0 <= from <= to]: the elements at the
    positions [from], ..., [to - 1] that exist. *)
Definition slice {A} (from to : nat) (arr : list A) : list A :=
  take (to - from) (drop from arr).

(** [chunk] of the two API scripts:
    [Array.from({ length: Math.ceil(arr.length / size) },
                (_, i) => arr.slice(i * size, i * size + size))]. *)
Definition chunk {A} (arr : list A) (size : nat) : list (list A) :=
  map (fun i => slice (i * size) (i * size + size) arr)
      (seq 0 (ceilDiv (length arr) size)).

(** ** Deduplicator *)

(** A conflict record [{ asin, line1, line2 }]. *)
Record duplicate : Type := mkDuplicate {
  asin : string;
  line1 : nat;
  line2 : nat
}.

(** The four collections that [processTxtFile] fills. *)
Record registry : Type := mkRegistry {
  asinToLink : gmap string string;
  asins : list string;
  asinSeen : gmap string nat;
  duplicates : list duplicate
}.

Definition emptyRegistry : registry := mkRegistry ∅ [] ∅ [].

Section Deduplicator.

Variable URL_new : string -> outcome URL.

(** The body of [lines.forEach((url, idx) => ...)]. *)
Definition registerLine (url : string) (idx : nat) (st : registry) : outcome registry :=
  let! found := extractASIN URL_new url in
  match found with
  | None => Ret st
  | Some a =>
      if negb (Str.truthy a) then Ret st
      else
        match asinSeen st !! a with
        | Some first =>
            Ret (mkRegistry (asinToLink st) (asins st) (asinSeen st)
                            (duplicates st ++ [mkDuplicate a first (idx + 1)]))
        | None =>
            Ret (mkRegistry (<[a := url]> (asinToLink st)) (asins st ++ [a])
                            (<[a := idx + 1]> (asinSeen st)) (duplicates st))
        end
  end.

Fixpoint forEachFrom (idx : nat) (lines : list string) (st : registry) : outcome registry :=
  match lines with
  | [] => Ret st
  | url :: rest =>
      let! st' := registerLine url idx st in
      forEachFrom (S idx) rest st'
  end.

(** The registry [processTxtFile] builds from the lines of one file. *)
Definition dedupe (lines : list string) : outcome registry :=
  forEachFrom 0 lines emptyRegistry.

End Deduplicator.

(** ** Rate limiter

    Time is the millisecond clock read by [Date.now()].  The module-level
    variable [lastFetchAt] lives as long as the process does. *)

Record world : Type := mkWorld {
  clock : Z;
  lastFetchAt : Z
}.

(** Time passing while the process computes, waits for the network or is
    suspended. *)
Definition elapse (ms : Z) (w : world) : world :=
  mkWorld (clock w + ms) (lastFetchAt w).

Section RateLimiter.

(** [SLEEP_BETWEEN_BATCHES_MS]: [1_250] for PA, [60_000] for Keepa. *)
Variable interval : Z.

(** [throttlePaapi] and [throttleKeepa] (identical up to the log text).
    [late] is the time that passes between the two readings of the clock
    beyond the requested sleep. *)
Definition throttle (late : Z) (w : world) : world :=
  let now := clock w in
  let elapsed := (now - lastFetchAt w)%Z in
  let w1 := if (elapsed <? interval)%Z
            then let waitMs := (interval - elapsed)%Z in elapse waitMs w
            else w in
  let w2 := elapse late w1 in
  mkWorld (clock w2) (clock w2).

(** What the environment contributes to one batch: the lateness of the
    throttle and the duration of the fetch and of the write that follow. *)
Record batchRun : Type := mkBatchRun {
  late : Z;
  work : Z
}.

(** What it contributes to one file: the time spent before the first batch
    (reading and deduplicating the file) and the batches. *)
Record fileRun : Type := mkFileRun {
  setup : Z;
  batches : list batchRun
}.

(** The loop over the batches of one file; the result carries the starts of
    the calls made, as recorded in [lastFetchAt], oldest first. *)
Fixpoint runBatches (bs : list batchRun) (w : world) : world * list Z :=
  match bs with
  | [] => (w, [])
  | b :: rest =>
      let w1 := throttle (late b) w in
      let start := lastFetchAt w1 in
      let (w2, starts) := runBatches rest (elapse (work b) w1) in
      (w2, start :: starts)
  end.

Definition processTxtFile (f : fileRun) (w : world) : world * list Z :=
  runBatches (batches f) (elapse (setup f) w).

(** [for (const file of txtFiles) await processTxtFile(file, outRootAbs)] *)
Fixpoint runFiles (fs : list fileRun) (w : world) : world * list Z :=
  match fs with
  | [] => (w, [])
  | f :: rest =>
      let (w1, s1) := processTxtFile f w in
      let (w2, s2) := runFiles rest w1 in
      (w2, s1 ++ s2)
  end.


End RateLimiter.

(** ** Request signer *)

Definition nl : string := String (ascii_of_nat 10) EmptyString.

Module Hex.

Definition digit (n : nat) : ascii :=
  if Nat.ltb n 10 then ascii_of_nat (48 + n) else ascii_of_nat (87 + n).

(** [buffer.toString('hex')]: two lower-case digits per byte. *)
Fixpoint encode (bytes : string) : string :=
  match bytes with
  | EmptyString => EmptyString
  | String b rest =>
      let n := nat_of_ascii b in
      String (digit (n / 16)) (String (digit (n mod 16)) (encode rest))
  end.

End Hex.

(** A point in time in UTC, as [Date] reports it. *)
Record Date : Type := mkDate {
  year : Z;
  month : nat;      (* 1 .. 12 *)
  day : nat;
  hours : nat;
  minutes : nat;
  seconds : nat;
  milliseconds : nat
}.

(** The last [width] decimal digits of [n], zero padded. *)
Fixpoint pad (width n : nat) : string :=
  match width with
  | O => EmptyString
  | S w => pad w (n / 10) +:+ String (ascii_of_nat (48 + n mod 10)) EmptyString
  end.

(** [date.toISOString()]: [YYYY-MM-DDTHH:mm:ss.sssZ], with a sign and six
    digits for a year outside [0 .. 9999]. *)
Definition toISOString (d : Date) : string :=
  let y := if ((0 <=? year d) && (year d <=? 9999))%Z%bool
           then pad 4 (Z.to_nat (year d))
           else (if (year d <? 0)%Z then "-" else "+") +:+ pad 6 (Z.abs_nat (year d)) in
  y +:+ "-" +:+ pad 2 (month d) +:+ "-" +:+ pad 2 (day d) +:+ "T" +:+
  pad 2 (hours d) +:+ ":" +:+ pad 2 (minutes d) +:+ ":" +:+ pad 2 (seconds d) +:+
  "." +:+ pad 3 (milliseconds d) +:+ "Z".

(** The argument of [buildAuthHeaders]. *)
Record signerInput (Payload : Type) : Type := mkSignerInput {
  accessKey : string;
  secretKey : string;
  region : string;
  service : string;
  host : string;
  amzTarget : string;
  path : string;
  payload : Payload
}.
Arguments accessKey {Payload}.
Arguments secretKey {Payload}.
Arguments region {Payload}.
Arguments service {Payload}.
Arguments host {Payload}.
Arguments amzTarget {Payload}.
Arguments path {Payload}.
Arguments payload {Payload}.

(** The request descriptor handed to [fetch]. *)
Record request : Type := mkRequest {
  method : string;
  headers : list (string * string);
  body : string
}.

Section Signer.

(** The platform's [crypto] module and [JSON.stringify].  Digests and keys
    are byte strings. *)
Variable sha256 : string -> string.
Variable hmacSha256 : string -> string -> string.
Variable Payload : Type.
Variable JSON_stringify : Payload -> string.

(** [hmac(key, data)] *)
Definition hmac (key data : string) : string := hmacSha256 key data.

(** [sha256Hex(data)] *)
Definition sha256Hex (data : string) : string := Hex.encode (sha256 data).

(** [buildAuthHeaders]; [now] is the value of [new Date()]. *)
Definition buildAuthHeaders (a : signerInput Payload) (now : Date) : request :=
  let method := "POST" in
  let content := JSON_stringify (payload a) in
  let amzDate := Str.take 15 (Re.deleteAll Patterns.isoPunct (toISOString now)) +:+ "Z" in
  let dateStamp := Str.take 8 amzDate in
  let canonicalHeaders :=
    "content-encoding:amz-1.0" +:+ nl +:+
    "content-type:application/json; charset=utf-8" +:+ nl +:+
    "host:" +:+ host a +:+ nl +:+
    "x-amz-date:" +:+ amzDate +:+ nl +:+
    "x-amz-target:" +:+ amzTarget a +:+ nl in
  let signedHeaders := "content-encoding;content-type;host;x-amz-date;x-amz-target" in
  let canonicalRequest :=
    Str.join nl [method; path a; ""; canonicalHeaders; signedHeaders; sha256Hex content] in
  let algorithm := "AWS4-HMAC-SHA256" in
  let credentialScope :=
    dateStamp +:+ "/" +:+ region a +:+ "/" +:+ service a +:+ "/aws4_request" in
  let stringToSign :=
    Str.join nl [algorithm; amzDate; credentialScope; sha256Hex canonicalRequest] in
  let kDate := hmac ("AWS4" +:+ secretKey a) dateStamp in
  let kRegion := hmac kDate (region a) in
  let kService := hmac kRegion (service a) in
  let kSigning := hmac kService "aws4_request" in
  let signature := Hex.encode (hmacSha256 kSigning stringToSign) in
  let authHeader :=
    algorithm +:+ " Credential=" +:+ accessKey a +:+ "/" +:+ credentialScope +:+
    ", SignedHeaders=" +:+ signedHeaders +:+ ", Signature=" +:+ signature in
  mkRequest method
    [("content-encoding", "amz-1.0");
     ("content-type", "application/json; charset=utf-8");
     ("host", host a);
     ("x-amz-date", amzDate);
     ("x-amz-target", amzTarget a);
     ("Authorization", authHeader)]
    content.

End Signer.

(** ** Deal records *)

(** One element of the JSON arrays the scripts write.  The PA script writes
    no [AffiliateLink] field. *)
Record deal : Type := mkDeal {
  ASIN : option string;
  Title : option string;
  Link : option string;
  Original : option num;
  Current : option num;
  Image : option string;
  NeedCheckManually : bool;
  HasDiscount : bool;
  DiscountPct : option num;
  YouSave : option num;
  AffiliateLink : option string
}.

Definition is_Some_bool {A} (o : option A) : bool :=
  match o with
  | Some _ => true
  | None => false
  end.

(** A string-or-absent result used as a condition. *)
Definition present (o : option string) : bool :=
  match o with
  | Some s => Str.truthy s
  | None => false
  end.

(** [`${o}`] for a string or an absent value, which is read as [undefined];
    a [null] would print as [null]. *)
Definition display (o : option string) : string :=
  match o with
  | Some s => s
  | None => "undefined"
  end.

(** The summary object built by [summarizePA] and [summarizeKeepa]. *)
Record summary : Type := mkSummary {
  s_asin : option string;
  s_title : option string;
  s_link : option string;
  s_original : option num;
  s_current : option num;
  s_discountPct : num;
  s_discountAmt : num;
  s_needCheckManually : bool;
  s_imageUrl : option string;
  s_hasDiscount : bool;
  s_affiliateLink : option string
}.

(** [Number.isFinite(x) && x > 0] on a number or [null]. *)
Definition isPositivePrice (x : option num) : bool :=
  match x with
  | Some n => (Num.isFinite n && Num.gtb n (Fin 0))%bool
  | None => false
  end.

(** [(original && current) ? original - current : 0] *)
Definition discountAmtOf (original current : option num) : num :=
  if bothTruthy original current
  then Num.sub (numOf original) (numOf current)
  else Fin 0.

(** The mapping [results.map(r => ({ ... }))] of [processTxtFile]. *)
Definition dealRow (r : summary) : deal :=
  mkDeal (s_asin r)
         (orElse (s_title r) (s_asin r))
         (s_link r)
         (fmtUsd (s_original r))
         (fmtUsd (s_current r))
         (s_imageUrl r)
         (s_needCheckManually r)
         (s_hasDiscount r)
         (Some (Num.toFixed2 (s_discountPct r)))
         (fmtUsd (Some (s_discountAmt r)))
         (s_affiliateLink r).

(** *** PA items *)

(** [item.Offers?.Listings?.[0]], with the fields [Price?.Amount] and
    [SavingBasis?.Amount]. *)
Record paListing : Type := mkPaListing {
  priceAmount : value;
  savingBasisAmount : value
}.

Record paItem : Type := mkPaItem {
  pa_ASIN : option string;
  pa_displayTitle : option string;     (* ItemInfo?.Title?.DisplayValue *)
  pa_listing : option paListing;
  pa_imageURL : option string;         (* Images?.Primary?.Large?.URL *)
  pa_detailPageURL : option string
}.

Definition listingField (f : paListing -> value) (l : option paListing) : value :=
  match l with
  | Some x => f x
  | None => VUndefined
  end.

(** [summarizePA] *)
Definition summarizePA (item : paItem) (linkFallback : option string) : summary :=
  let title := orElse (pa_displayTitle item) (pa_ASIN item) in
  let listing := pa_listing item in
  let current := orNull (listingField priceAmount listing) in
  let original := orNull (listingField savingBasisAmount listing) in
  let imageUrl := orElse (pa_imageURL item) None in
  let link :=
    orElse (orElse (pa_detailPageURL item) linkFallback)
           (if present (pa_ASIN item)
            then Some ("https://www.amazon.com/dp/" +:+ display (pa_ASIN item))
            else None) in
  let needCheckManually :=
    (negb (isPositivePrice current) || negb (isPositivePrice original))%bool in
  let discountPct := pctOf original current in
  let discountAmt := discountAmtOf original current in
  let hasDiscount := Num.gtb discountAmt (Fin 0) in
  mkSummary (pa_ASIN item) title link original current discountPct discountAmt
            needCheckManually imageUrl hasDiscount None.

(** *** Keepa products *)

(** [product.stats], with an array that is missing read as the empty one. *)
Record keepaStats : Type := mkKeepaStats {
  ks_current : list value;
  ks_avg90 : list value
}.

Record keepaProduct : Type := mkKeepaProduct {
  kp_asin : option string;
  kp_title : option string;
  kp_stats : option keepaStats;
  kp_images : list (option string)     (* the field [l] of each image *)
}.

Definition statsField (f : keepaStats -> list value) (st : option keepaStats) (i : nat)
  : value :=
  match st with
  | Some x => index (f x) i
  | None => VUndefined
  end.

Section Keepa.

(** [AMAZON_ASSOCIATE_TAG || ''] and
    [AMAZON_ASSOCIATE_DOMAIN || 'www.amazon.com'] *)
Variable AFFILIATE_TAG : string.
Variable AFFILIATE_DOMAIN : string.

(** [buildAffiliateLink] *)
Definition buildAffiliateLink (asin : option string) : string :=
  if negb (Str.truthy AFFILIATE_TAG)
  then "https://" +:+ AFFILIATE_DOMAIN +:+ "/dp/" +:+ display asin
  else "https://" +:+ AFFILIATE_DOMAIN +:+ "/dp/" +:+ display asin +:+
       "?tag=" +:+ AFFILIATE_TAG.

(** [getKeepaImageUrl(product)] *)
Definition getKeepaImageUrl (product : keepaProduct) : option string :=
  match kp_images product with
  | [] => None
  | name :: _ =>
      if present name
      then Some ("https://m.media-amazon.com/images/I/" +:+ display name)
      else None
  end.

(** [summarizeKeepa] *)
Definition summarizeKeepa (product : keepaProduct) (link : option string) : summary :=
  let title := orElse (kp_title product) (kp_asin product) in
  let c := statsField ks_current (kp_stats product) 0 in
  let o := statsField ks_current (kp_stats product) 4 in
  let avg := statsField ks_avg90 (kp_stats product) 0 in
  let hasC := isPositiveFinite c in
  let hasO := isPositiveFinite o in
  let needCheckManually := (negb hasC || negb hasO)%bool in
  let current := keepaToUSD c in
  let original := keepaToUSD (coalesce o (coalesce avg VNull)) in
  let discountPct := pctOf original current in
  let discountAmt := discountAmtOf original current in
  let hasDiscount := Num.gtb discountAmt (Fin 0) in
  let affiliateLink := buildAffiliateLink (kp_asin product) in
  mkSummary (kp_asin product) title link original current discountPct discountAmt
            needCheckManually (getKeepaImageUrl product) hasDiscount
            (Some affiliateLink).

End Keepa.

(** ** The browser driven scraper *)

(** What the page renderer yields for one product page: the trimmed text of
    the title element, the first price text found by the selectors of the
    current and of the original price, and whether one of the selectors of
    the main image found an element to take the screenshot of. *)
Record pageData : Type := mkPageData {
  rawTitle : option string;
  currentPriceText : option string;
  originalPriceText : option string;
  mainImage : bool
}.

(** [`${n}`] for a natural number *)
Definition showNat (n : nat) : string := NilEmpty.string_of_uint (Nat.to_uint n).

(** [haystack.includes(needle)] *)
Fixpoint includes (needle haystack : string) : bool :=
  if String.prefix needle haystack then true
  else match haystack with
       | EmptyString => false
       | String _ rest => includes needle rest
       end.

(** The blanks that [trim] removes, among the ASCII characters: tab, line
    feed, vertical tab, form feed, carriage return and space.  The white
    space beyond ASCII, which [trim] removes too, is not modelled. *)
Definition isSpace (c : ascii) : bool :=
  let n := nat_of_ascii c in
  ((Nat.leb 9 n && Nat.leb n 13) || Nat.eqb n 32)%bool.

Fixpoint trimStart (s : string) : string :=
  match s with
  | String c s' => if isSpace c then trimStart s' else s
  | EmptyString => EmptyString
  end.

Fixpoint trimEnd (s : string) : string :=
  match s with
  | EmptyString => EmptyString
  | String c s' =>
      match trimEnd s' with
      | EmptyString => if isSpace c then EmptyString else String c EmptyString
      | t => String c t
      end
  end.

(** [l.trim()] *)
Definition trim (s : string) : string := trimEnd (trimStart s).

(** [txt.split(/\r?\n/)] *)
Fixpoint splitLines (txt : string) : list string :=
  match txt with
  | EmptyString => [EmptyString]
  | String c rest =>
      if Ascii.eqb c (ascii_of_nat 10) then EmptyString :: splitLines rest
      else if (Ascii.eqb c (ascii_of_nat 13) && String.prefix nl rest)%bool
           then splitLines rest
           else match splitLines rest with
                | l :: ls => String c l :: ls
                | [] => [String c EmptyString]
                end
  end.

(** [txt.split(/\r?\n/).map(l => l.trim()).filter(l => l.length > 0)] *)
Definition readUrls (txt : string) : list string :=
  List.filter (fun l => Nat.ltb 0 (String.length l)) (map trim (splitLines txt)).

(** The number of lines of the input that are not blank. *)
Definition nonBlankLines (txt : string) : nat :=
  length (List.filter (fun l => negb (String.eqb (trim l) "")) (splitLines txt)).

Section Scraper.

Variable URL_new : string -> outcome URL.
Variable AFFILIATE_TAG : string.

(** [path.join(process.cwd(), 'screenshots')] *)
Variable screenshotDir : string.

(** The page renderer: everything [scrapeAmazonProduct] awaits on the page
    for the URL visited at position [index], which fails when navigation, a
    wait or the screenshot does. *)
Variable render : nat -> string -> outcome pageData.

(** [await page.waitForTimeout(randomInt(3000, 10000))] after the page at
    position [index]; it fails when the page has gone meanwhile. *)
Variable pause : nat -> outcome unit.

(** The result of [screenshotMainImage]:
    [path.join(outputDir, `${index + 1}-${asin ?? 'noasin'}.png`)] when an
    element was found, [null] otherwise. *)
Definition screenshotPath (found : bool) (asin : option string) (index : nat)
  : option string :=
  if found
  then Some (screenshotDir +:+ "/" +:+ showNat (index + 1) +:+ "-" +:+
             match asin with Some a => a | None => "noasin" end +:+ ".png")
  else None.

(** [scrapeAmazonProduct] *)
Definition scrapeAmazonProduct (url : string) (index : nat) : outcome deal :=
  let asin := extractASINFromUrl url in
  let! page := render index url in
  let title := orElse (rawTitle page) None in
  let current := parsePriceText (currentPriceText page) in
  let original :=
    match parsePriceText (originalPriceText page), current with
    | None, Some c => Some c
    | parsed, _ => parsed
    end in
  let pictureRef := screenshotPath (mainImage page) asin index in
  let d := computeDiscount original current in
  let needCheck :=
    (negb (present title) || negb (present pictureRef) || negb (is_Some_bool original)
     || negb (is_Some_bool current) || negb (is_Some_bool asin))%bool in
  let affiliateLink :=
    if (present asin && Str.truthy AFFILIATE_TAG)%bool
    then Some ("https://www.amazon.com/dp/" +:+ display asin +:+ "?tag=" +:+ AFFILIATE_TAG)
    else if present asin
         then Some ("https://www.amazon.com/dp/" +:+ display asin)
         else None in
  Ret (mkDeal asin title (Some url) original current pictureRef needCheck
              (hasDiscount d) (pct d) (save d) affiliateLink).

(** The record pushed for a URL that is not on the shop's host ([asin] is
    [null]) and for a URL whose processing failed ([asin] is whatever the URL
    shows). *)
Definition passThrough (asin : option string) (url : string) : deal :=
  mkDeal asin None (Some url) None None None true false None None None.

(** The [try] block of the loop of [main]: the array [deals] after the
    block, and whether the block completed. *)
Definition tryVisit (url : string) (i : nat) (deals : list deal)
  : list deal * outcome unit :=
  match URL_new url with
  | Throw => (deals, Throw)
  | Ret u =>
      if negb (includes "amazon." (hostname u))
      then (deals ++ [passThrough None url], Ret tt)
      else
        match scrapeAmazonProduct url i with
        | Throw => (deals, Throw)
        | Ret d =>
            let deals1 := deals ++ [d] in
            match pause i with
            | Throw => (deals1, Throw)
            | Ret _ => (deals1, Ret tt)
            end
        end
  end.

(** One iteration: the [try] block and its [catch]. *)
Definition visit (url : string) (i : nat) (deals : list deal) : list deal :=
  match tryVisit url i deals with
  | (deals', Ret _) => deals'
  | (deals', Throw) => deals' ++ [passThrough (extractASINFromUrl url) url]
  end.

(** [for (let i = 0; i < urls.length; i++) { ... }] from position [i] on. *)
Fixpoint visitFrom (i : nat) (urls : list string) (deals : list deal) : list deal :=
  match urls with
  | [] => deals
  | url :: rest => visitFrom (S i) rest (visit url i deals)
  end.

(** [b.DiscountPct ?? 0] *)
Definition sortKey (d : deal) : num := numOf (DiscountPct d).

(** Stable insertion by descending [DiscountPct]: [d], which preceded the
    records of [sorted] in the array, stays before those whose key is not
    larger. *)
Fixpoint insertDeal (d : deal) (sorted : list deal) : list deal :=
  match sorted with
  | [] => [d]
  | e :: rest =>
      if Num.ltb (sortKey d) (sortKey e) then e :: insertDeal d rest
      else d :: sorted
  end.

(** [deals.sort((a, b) => (b.DiscountPct ?? 0) - (a.DiscountPct ?? 0))] *)
Definition sortDeals (deals : list deal) : list deal :=
  fold_right insertDeal [] deals.

(** The array [main] writes to [deals.json], when it writes one: for an input
    without URLs it returns before. *)
Definition scrapeAll (txt : string) : list deal :=
  sortDeals (visitFrom 0 (readUrls txt) []).

End Scraper.

(** ** A reference URL parser for plain URLs

    [plainURL] reads [http://host/path?query#fragment] and its [https]
    form, for a host, path and query written with characters the platform's
    parser leaves alone (no escapes, dot segments, credentials or port).  It
    serves to run the scripts on concrete inputs; the properties below are
    stated for every parser. *)

Module PlainURL.

Definition isDelim (c : ascii) : bool :=
  (Ascii.eqb c "/" || Ascii.eqb c "?" || Ascii.eqb c "#")%bool.

(** The longest prefix without a character of class [stop], and the rest. *)
Fixpoint span (stop : ascii -> bool) (s : string) : string * string :=
  match s with
  | String c s' =>
      if stop c then (EmptyString, s)
      else let (a, b) := span stop s' in (String c a, b)
  | EmptyString => (EmptyString, EmptyString)
  end.

(** [fuel] bounds the number of pairs, which the length of the query does. *)
Fixpoint pairs (fuel : nat) (query : string) : list (string * string) :=
  match fuel, query with
  | S fuel', String _ _ =>
      let (item, rest) := span (Ascii.eqb "&") query in
      let (k, v) := span (Ascii.eqb "=") item in
      let here := match item with
                  | EmptyString => []
                  | _ => [(k, Str.drop 1 v)]
                  end in
      here ++ pairs fuel' (Str.drop 1 rest)
  | _, _ => []
  end.

Definition parse (url : string) : outcome URL :=
  let afterScheme :=
    match Str.stripPrefixCi "https://" url with
    | Some r => Some r
    | None => Str.stripPrefixCi "http://" url
    end in
  match afterScheme with
  | None => Throw
  | Some r =>
      let (authority, r1) := span isDelim r in
      match authority with
      | EmptyString => Throw
      | _ =>
          let (p, r2) := span (fun c => (Ascii.eqb c "?" || Ascii.eqb c "#")%bool) r1 in
          let (q, _) := span (Ascii.eqb "#") (Str.drop 1 r2) in
          let query := match r2 with
                       | String "?"%char _ => q
                       | _ => EmptyString
                       end in
          Ret (mkURL (Str.toLowerCase authority)
                     (match p with EmptyString => "/" | _ => p end)
                     (pairs (String.length query) query))
      end
  end.

End PlainURL.

(** ** Reference definitions

    The rules of the identifier extractor, the registry of the deduplicator
    and the signing scheme, written down independently of the code above, for
    comparison with it. *)

Module Rules.

(** The first result there is. *)
Fixpoint firstOf {A} (l : list (option A)) : option A :=
  match l with
  | [] => None
  | Some a :: _ => Some a
  | None :: l' => firstOf l'
  end.

(** The result of [f] at the leftmost position of [s] where it has one. *)
Fixpoint scan {A} (f : string -> option A) (s : string) : option A :=
  match f s with
  | Some r => Some r
  | None =>
      match s with
      | EmptyString => None
      | String _ s' => scan f s'
      end
  end.

(** The ten alphanumerics that follow [prefix] at the head of [s]. *)
Definition asinAfter (prefix s : string) : option string :=
  match Str.stripPrefixCi prefix s with
  | Some r =>
      match Str.takeClass 10 Str.isAlnum r with
      | Some (b, _) => Some b
      | None => None
      end
  | None => None
  end.

Definition keywords : list string := ["dp"; "gp/product"; "gp/aw/d"; "gp/offer-listing"].

(** Rule 1: a segment [/dp/], [/gp/product/], [/gp/aw/d/] or
    [/gp/offer-listing/] followed by ten alphanumerics. *)
Definition keywordAt (s : string) : option string :=
  firstOf (map (fun kw => asinAfter ("/" +:+ kw +:+ "/") s) keywords).

Definition rule1 (s : string) : option string :=
  option_map Str.toUpperCase (scan keywordAt s).

(** Rule 2: a segment of exactly ten alphanumerics, closed by [/], [?],
    [#] or the end. *)
Definition closed (rest : string) : bool :=
  match rest with
  | EmptyString => true
  | String c _ => (Ascii.eqb c "/" || Ascii.eqb c "?" || Ascii.eqb c "#")%bool
  end.

Definition segmentAt (s : string) : option string :=
  match Str.stripPrefixCi "/" s with
  | Some r =>
      match Str.takeClass 10 Str.isAlnum r with
      | Some (b, rest) => if closed rest then Some b else None
      | None => None
      end
  | None => None
  end.

Definition rule2 (s : string) : option string :=
  option_map Str.toUpperCase (scan segmentAt s).

(** Rule 3: the value of the query parameter [asin], or else of [ASIN],
    when it consists of ten alphanumerics. *)
Definition isAsin (v : string) : bool :=
  (Nat.eqb (String.length v) 10 && Str.all Str.isAlnum v)%bool.

Definition rule3 (params : list (string * string)) : option string :=
  match orElse (searchParams_get params "asin") (searchParams_get params "ASIN") with
  | Some v => if isAsin v then Some (Str.toUpperCase v) else None
  | None => None
  end.

(** Rule 3 read with a parameter named [asin] in any mix of cases. *)
Fixpoint getCi (params : list (string * string)) (name : string) : option string :=
  match params with
  | [] => None
  | (k, v) :: rest =>
      if String.eqb (Str.toUpperCase k) (Str.toUpperCase name) then Some v
      else getCi rest name
  end.

Definition rule3Ci (params : list (string * string)) : option string :=
  match getCi params "asin" with
  | Some v => if isAsin v then Some (Str.toUpperCase v) else None
  | None => None
  end.

(** The rules in order; rule 1 on the raw string when the URL does not
    parse. *)
Definition extract (URL_new : string -> outcome URL) (url : string) : option string :=
  match URL_new url with
  | Ret u => firstOf [rule1 (pathname u); rule2 (pathname u); rule3 (searchParams u)]
  | Throw => rule1 url
  end.

(** The browser script: [/dp/] or [/gp/product/] in the raw string, the
    group as it is written. *)
Definition extractRaw (url : string) : option string :=
  firstOf [scan (asinAfter "/dp/") url; scan (asinAfter "/gp/product/") url].

(** A canonical identifier: ten characters of [A-Z0-9]. *)
Definition canonical (a : string) : Prop :=
  String.length a = 10 /\ Str.all Str.isUpperAlnum a = true.

End Rules.

(** The registry as the lines determine it.  [ids] holds, for every line,
    the identifier extracted from it, if any. *)
Module Registry.

(** The position of the first line that carries the identifier [a]. *)
Fixpoint firstIndex (a : string) (ids : list (option string)) : option nat :=
  match ids with
  | [] => None
  | x :: rest =>
      if decide (x = Some a) then Some 0 else S <$> firstIndex a rest
  end.

(** The identifier of line [j] when this is its first occurrence. *)
Definition firstSeenAt (ids : list (option string)) (j : nat) : option string :=
  match ids !! j with
  | Some (Some a) => if decide (firstIndex a ids = Some j) then Some a else None
  | _ => None
  end.

(** The conflict record of line [j] when its identifier occurred before. *)
Definition repeatedAt (ids : list (option string)) (j : nat) : option duplicate :=
  match ids !! j with
  | Some (Some a) =>
      match firstIndex a ids with
      | Some i => if Nat.ltb i j then Some (mkDuplicate a (i + 1) (j + 1)) else None
      | None => None
      end
  | _ => None
  end.

(** The identifiers in the order of their first occurrences. *)
Definition firstSeen (ids : list (option string)) : list string :=
  omap (firstSeenAt ids) (seq 0 (length ids)).

(** One record for each later occurrence, in the order of the lines. *)
Definition conflicts (ids : list (option string)) : list duplicate :=
  omap (repeatedAt ids) (seq 0 (length ids)).

(** What [processTxtFile] has built when the first [k] lines are done. *)
Record invariant (lines : list string) (ids : list (option string))
  (k : nat) (st : registry) : Prop := mkInvariant {
  inv_asins : asins st = omap (firstSeenAt ids) (seq 0 k);
  inv_duplicates : duplicates st = omap (repeatedAt ids) (seq 0 k);
  inv_seen : forall a,
    asinSeen st !! a = (fun i => i + 1) <$> firstIndex a (take k ids);
  inv_link : forall a,
    asinToLink st !! a = firstIndex a (take k ids) ≫= (fun i => lines !! i);
  inv_nodup : NoDup (asins st);
  inv_elem : forall a, a ∈ asins st <-> is_Some (firstIndex a (take k ids))
}.

End Registry.



(** The signing scheme, by its steps. *)
Module SigV4.

(** The timestamp of a request, as sent in the header [x-amz-date]. *)
Definition amzDateOf (now : Date) : string :=
  Str.take 15 (Re.deleteAll Patterns.isoPunct (toISOString now)) +:+ "Z".

(** [YYYYMMDDThhmmssZ] *)
Definition basicTimestamp (d : Date) : string :=
  pad 4 (Z.to_nat (year d)) +:+ pad 2 (month d) +:+ pad 2 (day d) +:+ "T" +:+
  pad 2 (hours d) +:+ pad 2 (minutes d) +:+ pad 2 (seconds d) +:+ "Z".

(** [YYYYMMDD] *)
Definition basicDate (d : Date) : string :=
  pad 4 (Z.to_nat (year d)) +:+ pad 2 (month d) +:+ pad 2 (day d).

Section Scheme.

Variable sha256 : string -> string.
Variable hmacSha256 : string -> string -> string.

Definition algorithm : string := "AWS4-HMAC-SHA256".

Definition terminator : string := "aws4_request".

(** Headers in the order of their lower-cased names. *)
Fixpoint insertHeader (h : string * string) (sorted : list (string * string))
  : list (string * string) :=
  match sorted with
  | [] => [h]
  | g :: rest =>
      if String.leb (Str.toLowerCase (fst h)) (Str.toLowerCase (fst g))
      then h :: sorted
      else g :: insertHeader h rest
  end.

Definition sortHeaders (hs : list (string * string)) : list (string * string) :=
  fold_right insertHeader [] hs.

(** Each header as [name:value] with the name in lower case, closed by a
    newline. *)
Definition canonicalHeaders (hs : list (string * string)) : string :=
  fold_right (fun h acc => Str.toLowerCase (fst h) +:+ ":" +:+ snd h +:+ nl +:+ acc)
             "" (sortHeaders hs).

(** The names of the same headers, joined by [;]. *)
Definition signedHeaders (hs : list (string * string)) : string :=
  Str.join ";" (map (fun h => Str.toLowerCase (fst h)) (sortHeaders hs)).

(** Method, path, empty query, headers, names of the headers, digest of the
    body. *)
Definition canonicalRequest (method path : string) (hs : list (string * string))
  (body : string) : string :=
  method +:+ nl +:+ path +:+ nl +:+ "" +:+ nl +:+ canonicalHeaders hs +:+ nl +:+
  signedHeaders hs +:+ nl +:+ Hex.encode (sha256 body).

Definition credentialScope (dateStamp region service : string) : string :=
  dateStamp +:+ "/" +:+ region +:+ "/" +:+ service +:+ "/" +:+ terminator.

Definition stringToSign (timestamp scope request : string) : string :=
  algorithm +:+ nl +:+ timestamp +:+ nl +:+ scope +:+ nl +:+
  Hex.encode (sha256 request).

(** The chain of keyed digests from ["AWS4" + secretKey] over the date
    stamp, the region, the service and the terminator. *)
Definition signingKey (secretKey dateStamp region service : string) : string :=
  fold_left hmacSha256 [dateStamp; region; service; terminator] ("AWS4" +:+ secretKey).

Definition signature (key toSign : string) : string :=
  Hex.encode (hmacSha256 key toSign).

Definition authorization (accessKey scope signed sig : string) : string :=
  algorithm +:+ " Credential=" +:+ accessKey +:+ "/" +:+ scope +:+
  ", SignedHeaders=" +:+ signed +:+ ", Signature=" +:+ sig.

End Scheme.

End SigV4.

(** The discount fields of a deal record. *)
Definition discountOf (d : deal) : discount :=
  mkDiscount (HasDiscount d) (DiscountPct d) (YouSave d).

(** Rounding to two decimals. *)
Definition round2 (x : num) : num := Num.toFixed2 x.

(** A price text after the cleaning the normalizer is meant to do: only
    digits and [.] are left. *)
Definition digitsAndDots (t : string) : string :=
  Str.filter (fun c => (Str.isDigit c || Ascii.eqb c ".")%bool) t.

(** The formulas of the discount, over the numbers of the platform. *)
Module Discount64.

Import PrimFloat.

(** [(original - current) / original * 100] *)
Definition percentOff (original current : float) : float :=
  ((original - current) / original * 100)%float.

(** Rounding to two decimals. *)
Definition round2 (x : float) : float := Binary64.toFixed2 x.

(** A number other than zero with the sign [s] ([true] for minus): finite or
    an infinity. *)
Definition signedSF (s : bool) (x : SpecFloat.spec_float) : Prop :=
  match x with
  | SpecFloat.S754_finite s' _ _ | SpecFloat.S754_infinity s' => s' = s
  | _ => False
  end.

End Discount64.

(** [(original - current) / original * 100] *)
Definition percentOff (original current : num) : num :=
  Num.mul (Num.div (Num.sub original current) original) (Num.ofZ 100).

(** Sum of the lengths of the batches. *)
Definition totalLength {A} (bs : list (list A)) : nat :=
  fold_right (fun b n => length b + n) 0 bs.

(** ** Further parts of the scripts *)

(** *** Reading the input file (API scripts) *)

(** [txt.split('\n')] *)
Fixpoint splitNewline (txt : string) : list string :=
  match txt with
  | EmptyString => [EmptyString]
  | String c rest =>
      if Ascii.eqb c (ascii_of_nat 10) then EmptyString :: splitNewline rest
      else match splitNewline rest with
           | l :: ls => String c l :: ls
           | [] => [String c EmptyString]
           end
  end.

(** [txt.split('\n').map(l => l.trim()).filter(Boolean)] of [processTxtFile]
    in [check-deal-amazon-api.mjs]. *)
Definition readLines (txt : string) : list string :=
  List.filter Str.truthy (map trim (splitNewline txt)).

(** *** [normalizeUrl] of [check-deals-keepa.mjs] *)

Module UrlPatterns.
Import Re.

(** [a?] *)
Definition opt (a : regex) : regex := Alt a Eps.

(** [/^https?:\/\//i] *)
Definition protocol : regex := seqs [Bos; lit "http"; opt (lit "s"); lit "://"].

(** [/^amzn\.to\//i] *)
Definition amznTo : regex := seqs [Bos; lit "amzn.to/"].

(** [/^www\./i] *)
Definition www : regex := seqs [Bos; lit "www."].

(** [/^amazon\.com\//i] *)
Definition amazonCom : regex := seqs [Bos; lit "amazon.com/"].

(** [/^amazon\./i] *)
Definition amazonDot : regex := seqs [Bos; lit "amazon."].

End UrlPatterns.

(** [s.replace(r, repl)] for a pattern without the [g] flag and a replacement
    without [$]: the leftmost match is replaced. *)
Fixpoint replaceFirstFrom (r : Re.regex) (repl : string) (i : nat) (s : string) : string :=
  match Re.matchLen r i s with
  | Some n => repl +:+ Str.drop n s
  | None =>
      match s with
      | EmptyString => EmptyString
      | String c s' => String c (replaceFirstFrom r repl (S i) s')
      end
  end.

Definition replaceFirst (r : Re.regex) (repl s : string) : string :=
  replaceFirstFrom r repl 0 s.

Definition normalizeUrl (raw : string) : string :=
  let url := trim raw in
  if negb (Str.truthy url) then url
  else if Re.test UrlPatterns.protocol url then url
  else if Re.test UrlPatterns.amznTo url then "https://" +:+ url
  else if Re.test UrlPatterns.www url then "https://" +:+ url
  else if Re.test UrlPatterns.amazonCom url then "https://www." +:+ url
  else if Re.test UrlPatterns.amazonDot url
       then "https://www." +:+ replaceFirst UrlPatterns.amazonDot "amazon." url
       else "https://" +:+ url.

(** The lines of [processTxtFile] in [check-deals-keepa.mjs]:
    [....filter(Boolean).map(normalizeUrl)]. *)
Definition readLinesKeepa (txt : string) : list string :=
  map normalizeUrl (readLines txt).

(** *** The batch loop of [processTxtFile] *)

(** [ITEMS_PER_BATCH] *)
Definition ITEMS_PER_BATCH_PAAPI : nat := 10.
Definition ITEMS_PER_BATCH_KEEPA : nat := 20.

(** The pairs [(startIdx, endIdx)] of the batches, [processed] being the
    number of identifiers of the batches before. *)
Fixpoint batchRanges {A} (processed : nat) (batches : list (list A)) : list (nat * nat) :=
  match batches with
  | [] => []
  | batch :: rest =>
      let startIdx := processed + 1 in
      let endIdx := processed + length batch in
      (startIdx, endIdx) :: batchRanges (processed + length batch) rest
  end.

(** [`${baseName}${startIdx}-${endIdx}.json`] *)
Definition outFileName (baseName : string) (range : nat * nat) : string :=
  baseName +:+ showNat (fst range) +:+ "-" +:+ showNat (snd range) +:+ ".json".

(** [asinToLink.get(key)] for a key that may be [undefined]. *)
Definition linkFor (r : registry) (key : option string) : option string :=
  match key with
  | Some a => asinToLink r !! a
  | None => None
  end.

(** [items.map(it => summarizePA(it, asinToLink.get(it.ASIN)))] followed by
    the mapping to rows. *)
Definition paRows (r : registry) (items : list paItem) : list deal :=
  map (fun it => dealRow (summarizePA it (linkFor r (pa_ASIN it)))) items.

(** [keepaItems.map(p => summarizeKeepa(p, asinToLink.get(p.asin)))] followed
    by the mapping to rows. *)
Definition keepaRows (tag domain : string) (r : registry) (items : list keepaProduct)
  : list deal :=
  map (fun p => dealRow (summarizeKeepa tag domain p (linkFor r (kp_asin p)))) items.

(** *** Random choices of the browser script

    [Math.random()] yields a number [u] with [0 <= u < 1]; it is an argument
    here. *)

(** [randomInt(min, max)]: [Math.floor(u * (max - min + 1)) + min] *)
Definition randomInt (min max : Z) (u : Q) : Z :=
  (Qfloor (u * inject_Z (max - min + 1)) + min)%Z.

(** [randomChoice(arr)]: [arr[Math.floor(u * arr.length)]], [undefined]
    beyond the end. *)
Definition randomChoice {A} (arr : list A) (u : Q) : option A :=
  arr !! Z.to_nat (Qfloor (u * inject_Z (Z.of_nat (length arr)))).

(** *** Measures of a run of the rate limiter *)

(** The time the environment takes in a file: reading it, and for each batch
    the lateness and the work. *)
Definition batchTime (b : batchRun) : Z := (late b + work b)%Z.

Definition fileTime (f : fileRun) : Z :=
  (setup f + fold_right (fun b t => batchTime b + t) 0 (batches f))%Z.

Definition runTime (fs : list fileRun) : Z :=
  fold_right (fun f t => fileTime f + t)%Z 0%Z fs.

Definition batchCount (fs : list fileRun) : Z :=
  fold_right (fun f n => Z.of_nat (length (batches f)) + n)%Z 0%Z fs.

(** No part of the run takes negative time. *)
Definition forward (fs : list fileRun) : Prop :=
  Forall (fun f => (0 <= setup f)%Z
                   /\ Forall (fun b => (0 <= late b)%Z /\ (0 <= work b)%Z) (batches f)) fs.

(** A price that is a finite number, not negative. *)
Definition nonNegative (x : num) : Prop :=
  match x with
  | Fin q => (0 <= q)%Q
  | _ => False
  end.

(** A percentage: a finite number from 0 to 100. *)
Definition percentage (x : num) : Prop :=
  match x with
  | Fin q => (0 <= q <= 100)%Q
  | _ => False
  end.

(** The keys of the sort in non-increasing order. *)
Fixpoint descending (deals : list deal) : Prop :=
  match deals with
  | [] => True
  | d :: rest =>
      Forall (fun e => Num.ltb (sortKey d) (sortKey e) = false) rest /\ descending rest
  end.

(** Batches that ask for every identifier some line carries, each once, and
    hold from 1 to [max] identifiers. *)
Definition onceEach (ids : list (option string)) (max : nat) (batches : list (list string))
  : Prop :=
  NoDup (concat batches)
  /\ (forall a, a ∈ concat batches <-> Some a ∈ ids)
  /\ Forall (fun b => 0 < length b <= max) batches.

(** The reference of the first line that carries the identifier [key]. *)
Definition firstReference (URL_new : string -> outcome URL) (lines : list string)
  (key : option string) : option string :=
  key ≫= fun a =>
    Registry.firstIndex a (map (Rules.extract URL_new) lines) ≫= fun i => lines !! i.

(** A record whose sort key is a finite number. *)
Definition finiteKey (d : deal) : Prop := Num.isFinite (sortKey d) = true.

(** Two records that the sort does not tell apart. *)
Definition sameRank (d e : deal) : bool :=
  (negb (Num.ltb (sortKey d) (sortKey e)) && negb (Num.ltb (sortKey e) (sortKey d)))%bool.

(** *** Screenshots of a run *)

(** The path of a screenshot taken at position [j] of the input: the file
    name starts with the number [j + 1] and a hyphen. *)
Definition shotOf (dir : string) (j : nat) (p : string) : Prop :=
  exists rest, p = dir +:+ "/" +:+ showNat (j + 1) +:+ "-" +:+ rest.

(** The screenshots the records name, all taken at positions before [i],
    no path twice. *)
Definition shotsBefore (dir : string) (i : nat) (deals : list deal) : Prop :=
  NoDup (omap Image deals)
  /\ (forall p, p ∈ omap Image deals -> exists j, j < i /\ shotOf dir j p).

(* ===================================================================== *)
(** * Part II: properties                                                 *)
(* ===================================================================== *)

(** ** Batcher *)

Section BatcherFacts.

Context {A : Type}.
Implicit Types (arr : list A) (size : nat).

Lemma ceilDiv_zero size : 0 < size -> ceilDiv 0 size = 0.
Proof.
  intros Hs. unfold ceilDiv. apply Nat.div_small. lia.
Qed.

Lemma ceilDiv_step n size :
  0 < size -> 0 < n -> ceilDiv n size = S (ceilDiv (n - size) size).
Proof.
  intros Hs Hn. unfold ceilDiv.
  destruct (Nat.le_gt_cases size n) as [Hle | Hgt].
  - replace (n + size - 1) with ((n - size + size - 1) + 1 * size) by lia.
    rewrite Nat.div_add by lia. lia.
  - replace (n - size) with 0 by lia.
    rewrite (Nat.div_small (0 + size - 1)) by lia.
    assert (H1 : (n + size - 1) / size < 2).
    { apply Nat.Div0.div_lt_upper_bound. lia. }
    assert (H2 : 1 <= (n + size - 1) / size).
    { apply Nat.div_le_lower_bound; lia. }
    lia.
Qed.

(** The recursive reading of [chunk]: cut [size] elements off the front
    as long as something is left. *)
Lemma chunk_nil size : 0 < size -> chunk (@nil A) size = [].
Proof.
  intros Hs. unfold chunk. simpl. now rewrite ceilDiv_zero.
Qed.

Lemma chunk_unfold arr size :
  0 < size -> arr <> [] ->
  chunk arr size = take size arr :: chunk (drop size arr) size.
Proof.
  intros Hs Hne. unfold chunk.
  assert (Hlen : 0 < length arr) by (destruct arr; simpl; [congruence | lia]).
  rewrite (ceilDiv_step (length arr) size Hs Hlen). simpl seq. simpl map.
  f_equal.
  - unfold slice. simpl. f_equal. lia.
  - rewrite length_drop. rewrite <- seq_shift, map_map.
    apply map_ext. intros i. unfold slice.
    rewrite drop_drop.
    replace (S i * size + size - S i * size) with (i * size + size - i * size) by lia.
    replace (S i * size) with (size + i * size) by lia. reflexivity.
Qed.

Lemma chunk_ind_length (P : list A -> Prop) size :
  0 < size ->
  P [] ->
  (forall arr, arr <> [] -> P (drop size arr) -> P arr) ->
  forall arr, P arr.
Proof.
  intros Hs Hnil Hstep arr.
  remember (length arr) as n eqn:Hn.
  revert arr Hn. induction n as [n IH] using lt_wf_ind. intros arr Hn.
  destruct arr as [| x arr'] eqn:E; [exact Hnil |].
  rewrite <- E in *. apply Hstep; [subst; discriminate |].
  apply (IH (length (drop size arr))); [| reflexivity].
  rewrite length_drop. subst. simpl. lia.
Qed.

Lemma chunk_concat arr size : 0 < size -> concat (chunk arr size) = arr.
Proof.
  intros Hs. pattern arr. apply (chunk_ind_length _ size Hs); clear arr;
    [| intros arr Hne IH].
  - now rewrite chunk_nil.
  - rewrite chunk_unfold by assumption. simpl. rewrite IH. apply take_drop.
Qed.

Lemma chunk_bounded arr size :
  0 < size -> Forall (fun b => length b <= size) (chunk arr size).
Proof.
  intros Hs. pattern arr. apply (chunk_ind_length _ size Hs); clear arr;
    [| intros arr Hne IH].
  - rewrite chunk_nil by assumption. constructor.
  - rewrite chunk_unfold by assumption. constructor; [| exact IH].
    rewrite length_take. lia.
Qed.

Lemma chunk_nonempty arr size :
  0 < size -> Forall (fun b => b <> []) (chunk arr size).
Proof.
  intros Hs. pattern arr. apply (chunk_ind_length _ size Hs); clear arr;
    [| intros arr Hne IH].
  - rewrite chunk_nil by assumption. constructor.
  - rewrite chunk_unfold by assumption. constructor; [| exact IH].
    destruct arr; [congruence |]. destruct size; [lia | discriminate].
Qed.

End BatcherFacts.

Lemma totalLength_concat {A} (bs : list (list A)) :
  totalLength bs = length (concat bs).
Proof.
  induction bs as [| b bs IH]; simpl; [reflexivity |].
  rewrite length_app, IH. reflexivity.
Qed.

(** C8. For a list of length N and a positive batch size M, [chunk] yields
    contiguous slices, the i-th being the M elements from position i*M on
    that exist; every slice has at most M elements, the lengths sum to N,
    the concatenation of the slices is the input, and the empty list yields
    no slice. *)
Theorem chunk_partition {A} (arr : list A) (size : nat) :
  0 < size ->
  (forall i b, chunk arr size !! i = Some b -> b = take size (drop (i * size) arr))
  /\ Forall (fun b => length b <= size) (chunk arr size)
  /\ totalLength (chunk arr size) = length arr
  /\ concat (chunk arr size) = arr
  /\ chunk (@nil A) size = [].
Proof.
  intros Hs. repeat split.
  - intros i b Hi. unfold chunk in Hi.
    rewrite list_lookup_fmap in Hi.
    destruct (seq 0 (ceilDiv (length arr) size) !! i) as [j |] eqn:Hj; [| discriminate].
    apply lookup_seq in Hj as [-> _]. simpl in Hi. injection Hi as <-.
    unfold slice. f_equal. lia.
  - now apply chunk_bounded.
  - rewrite totalLength_concat, chunk_concat by assumption. reflexivity.
  - now apply chunk_concat.
  - now apply chunk_nil.
Qed.

Lemma chunk_partition_witness :
  0 < 3 /\ concat (chunk [1; 2; 3; 4; 5; 6; 7] 3) = [1; 2; 3; 4; 5; 6; 7].
Proof.
  split; [lia |]. apply (chunk_partition [1; 2; 3; 4; 5; 6; 7] 3). lia.
Defined.

(** ** Regular expressions *)

Section MatcherFacts.

Context {R : Type}.
Implicit Types (k : Re.cont R) (s : string) (caps : list string).

(** A literal consumes a prefix equal to it up to case. *)
Lemma run_lit p i s caps k :
  Re.run (Re.lit p) i s caps k =
  match Str.stripPrefixCi p s with
  | Some s' => k (i + String.length p) s' caps
  | None => None
  end.
Proof.
  revert i s. induction p as [| c p IH]; intros i s.
  - simpl. now rewrite Nat.add_0_r.
  - destruct s as [| d s]; simpl; [reflexivity |].
    destruct (Str.ciEq c d); [| reflexivity].
    rewrite IH. now rewrite Nat.add_succ_r.
Qed.

(** [c{n}] consumes [n] characters of the class. *)
Lemma run_rep_class n (c : ascii -> bool) i s caps k :
  Re.run (Re.Rep n (Re.Chr c)) i s caps k =
  match Str.takeClass n c s with
  | Some (_, s') => k (i + n) s' caps
  | None => None
  end.
Proof.
  revert i s. induction n as [| n IH]; intros i s.
  - simpl. now rewrite Nat.add_0_r.
  - specialize (IH (S i)). simpl in *.
    destruct s as [| d s]; [reflexivity |].
    destruct (c d); [| reflexivity].
    rewrite IH. destruct (Str.takeClass n c s) as [[b r] |]; [| reflexivity].
    now rewrite Nat.add_succ_r.
Qed.

End MatcherFacts.

Section StringFacts.

Implicit Types (s p q b r : string) (c : ascii -> bool).

Lemma takeClass_take n c s b r :
  Str.takeClass n c s = Some (b, r) -> Str.take n s = b.
Proof.
  revert s b. induction n as [| n IH]; intros s b H; simpl in H.
  - injection H as <- _. now destruct s.
  - destruct s as [| d s]; [discriminate |].
    destruct (c d); [| discriminate].
    destruct (Str.takeClass n c s) as [[b' r'] |] eqn:E; [| discriminate].
    injection H as <- ->. simpl. f_equal. now apply IH.
Qed.

Lemma takeClass_shape n c s b r :
  Str.takeClass n c s = Some (b, r) ->
  s = b +:+ r /\ String.length b = n /\ Str.all c b = true.
Proof.
  revert s b. induction n as [| n IH]; intros s b H; simpl in H.
  - injection H as <- <-. now repeat split.
  - destruct s as [| d s]; [discriminate |].
    destruct (c d) eqn:Hd; [| discriminate].
    destruct (Str.takeClass n c s) as [[b' r'] |] eqn:E; [| discriminate].
    injection H as <- ->. destruct (IH _ _ E) as (-> & Hlen & Hall).
    simpl. rewrite Hd, Hall, Hlen. now repeat split.
Qed.

Lemma stripPrefixCi_app p q s :
  Str.stripPrefixCi (p +:+ q) s =
  match Str.stripPrefixCi p s with
  | Some s' => Str.stripPrefixCi q s'
  | None => None
  end.
Proof.
  revert s. induction p as [| a p IH]; intros s; [reflexivity |].
  destruct s as [| d s]; simpl.
  - reflexivity.
  - destruct (Str.ciEq a d); [apply IH | reflexivity].
Qed.

Lemma asinAfter_app p q s :
  Rules.asinAfter (p +:+ q) s =
  match Str.stripPrefixCi p s with
  | Some s' => Rules.asinAfter q s'
  | None => None
  end.
Proof.
  unfold Rules.asinAfter. rewrite stripPrefixCi_app.
  now destruct (Str.stripPrefixCi p s).
Qed.

End StringFacts.

Section PatternFacts.

Import Re.

Lemma run_seq {R} a b i s caps (k : cont R) :
  run (Seq a b) i s caps k = run a i s caps (fun i' s' caps' => run b i' s' caps' k).
Proof. reflexivity. Qed.

Lemma run_alt {R} a b i s caps (k : cont R) :
  run (Alt a b) i s caps k =
  match run a i s caps k with
  | Some res => Some res
  | None => run b i s caps k
  end.
Proof. reflexivity. Qed.

Lemma run_cap {R} a i s caps (k : cont R) :
  run (Cap a) i s caps k =
  run a i s caps (fun i' s' caps' => k i' s' (caps' ++ [Str.take (i' - i) s])).
Proof. reflexivity. Qed.

(** The captured group [([A-Z0-9]{10})], followed by [k]. *)
Lemma run_alnum10 {R} i s caps (k : cont R) :
  run Patterns.alnum10 i s caps k =
  match Str.takeClass 10 Str.isAlnum s with
  | Some (b, rest) => k (i + 10) rest (caps ++ [b])
  | None => None
  end.
Proof.
  unfold Patterns.alnum10. rewrite run_cap, run_rep_class.
  destruct (Str.takeClass 10 Str.isAlnum s) as [[b rest] |] eqn:E; [| reflexivity].
  replace (i + 10 - i) with 10 by lia.
  now rewrite (takeClass_take _ _ _ _ _ E).
Qed.

(** A literal prefix followed by the captured group, at the end of a
    pattern. *)
Lemma run_lit_alnum10 p i s caps :
  run (Seq (lit p) Patterns.alnum10) i s caps accept =
  option_map (fun b => caps ++ [b]) (Rules.asinAfter p s).
Proof.
  rewrite run_seq, run_lit. unfold Rules.asinAfter.
  destruct (Str.stripPrefixCi p s) as [s' |]; [| reflexivity].
  rewrite run_alnum10.
  now destruct (Str.takeClass 10 Str.isAlnum s') as [[b rest] |].
Qed.

Lemma matchAt_pathKeyword i s :
  matchAt Patterns.pathKeyword i s = option_map (fun b => [b]) (Rules.keywordAt s).
Proof.
  unfold matchAt, Patterns.pathKeyword, Rules.keywordAt, Rules.keywords.
  cbn [seqs alts map Rules.firstOf].
  rewrite run_seq, run_lit.
  change "/dp/" with ("/" +:+ "dp/").
  rewrite !asinAfter_app.
  destruct (Str.stripPrefixCi "/" s) as [s1 |]; [| reflexivity].
  rewrite run_seq. rewrite !run_alt, !run_lit.
  change "dp/" with ("dp" +:+ "/").
  change "gp/product/" with ("gp/product" +:+ "/").
  change "gp/aw/d/" with ("gp/aw/d" +:+ "/").
  change "gp/offer-listing/" with ("gp/offer-listing" +:+ "/").
  rewrite !asinAfter_app.
  repeat match goal with
  | |- context [Str.stripPrefixCi ?p s1] =>
      lazymatch p with
      | "/" => fail
      | _ => destruct (Str.stripPrefixCi p s1) as [? |]
      end
  end;
  repeat (rewrite run_lit_alnum10; cbn [app]);
  repeat match goal with
  | |- context [Rules.asinAfter "/" ?t] => destruct (Rules.asinAfter "/" t)
  end; reflexivity.
Qed.

End PatternFacts.

Section ScanFacts.

Import Re.

(** Searching for a pattern that captures one group is scanning with the
    function that describes its match at one position. *)
Lemma execFrom_scan r (f : string -> option string) :
  (forall i s, matchAt r i s = option_map (fun b => [b]) (f s)) ->
  forall i s, execFrom r i s = option_map (fun b => [b]) (Rules.scan f s).
Proof.
  intros Hat i s. revert i. induction s as [| c s IH]; intros i; simpl.
  - rewrite Hat. now destruct (f "").
  - rewrite Hat. destruct (f (String c s)); [reflexivity | apply IH].
Qed.

Lemma exec_group1 r (f : string -> option string) s :
  (forall i s, matchAt r i s = option_map (fun b => [b]) (f s)) ->
  option_map group1 (exec r s) = Rules.scan f s.
Proof.
  intros Hat. unfold exec. rewrite (execFrom_scan r f Hat).
  now destruct (Rules.scan f s).
Qed.

Lemma scan_Some {A} (f : string -> option A) s a :
  Rules.scan f s = Some a -> exists t, f t = Some a.
Proof.
  induction s as [| c s IH]; simpl.
  - destruct (f "") eqn:E; [| discriminate]. intros [= <-]. eauto.
  - destruct (f (String c s)) eqn:E; [intros [= <-]; eauto | exact IH].
Qed.

Lemma matchAt_bareSegment i s :
  matchAt Patterns.bareSegment i s = option_map (fun b => [b]) (Rules.segmentAt s).
Proof.
  unfold matchAt, Patterns.bareSegment, Rules.segmentAt.
  cbn [seqs alts]. rewrite run_seq, run_lit.
  destruct (Str.stripPrefixCi "/" s) as [s1 |]; [| reflexivity].
  rewrite run_seq, run_alnum10.
  destruct (Str.takeClass 10 Str.isAlnum s1) as [[b rest] |]; [| reflexivity].
  rewrite run_alt. unfold Rules.closed. destruct rest as [| d rest]; simpl.
  - reflexivity.
  - now destruct (Ascii.eqb d "/" || Ascii.eqb d "?" || Ascii.eqb d "#")%bool.
Qed.

Lemma matchAt_rawKeyword i s :
  matchAt Patterns.rawKeyword i s = option_map (fun b => [b]) (Rules.keywordAt s).
Proof.
  unfold matchAt, Patterns.rawKeyword, Rules.keywordAt, Rules.keywords.
  cbn [seqs alts map Rules.firstOf]. rewrite run_seq.
  change ("/" +:+ "dp" +:+ "/") with "/dp/".
  change ("/" +:+ "gp/product" +:+ "/") with "/gp/product/".
  change ("/" +:+ "gp/aw/d" +:+ "/") with "/gp/aw/d/".
  change ("/" +:+ "gp/offer-listing" +:+ "/") with "/gp/offer-listing/".
  rewrite !run_alt, !run_lit. unfold Rules.asinAfter.
  repeat match goal with
  | |- context [Str.stripPrefixCi ?p s] => destruct (Str.stripPrefixCi p s) as [? |]
  end;
  repeat (rewrite run_alnum10; cbn [app]);
  repeat match goal with
  | |- context [Str.takeClass 10 Str.isAlnum ?t] =>
      destruct (Str.takeClass 10 Str.isAlnum t) as [[? ?] |]
  end; reflexivity.
Qed.

Lemma matchAt_prefixed p i s :
  matchAt (seqs [lit p; Patterns.alnum10]) i s =
  option_map (fun b => [b]) (Rules.asinAfter p s).
Proof.
  unfold matchAt. cbn [seqs]. now rewrite run_lit_alnum10.
Qed.

(** [^...$] matches at the start of the input only. *)
Lemma execFrom_wholeAsin_later i s : execFrom Patterns.wholeAsin (S i) s = None.
Proof.
  revert i. induction s as [| c s IH]; intros i; simpl; [reflexivity | apply IH].
Qed.

Lemma takeClass_whole n c s :
  match Str.takeClass n c s with
  | Some (_, EmptyString) => true
  | _ => false
  end = (Nat.eqb (String.length s) n && Str.all c s)%bool.
Proof.
  revert s. induction n as [| n IH]; intros s; simpl.
  - destruct s; reflexivity.
  - destruct s as [| d s]; simpl; [reflexivity |].
    destruct (c d); simpl.
    + rewrite <- IH. now destruct (Str.takeClass n c s) as [[b [| e r]] |].
    + now rewrite Bool.andb_false_r.
Qed.

Lemma test_wholeAsin v : test Patterns.wholeAsin v = Rules.isAsin v.
Proof.
  unfold Rules.isAsin. rewrite <- takeClass_whole.
  unfold test, exec. destruct v as [| c v].
  - reflexivity.
  - cbn [execFrom]. rewrite execFrom_wholeAsin_later.
    unfold matchAt, Patterns.wholeAsin. cbn [seqs].
    rewrite run_seq. change (run Bos 0 ?s ?caps ?k) with (k 0 s caps). cbv beta.
    rewrite run_seq, run_rep_class.
    destruct (Str.takeClass 10 Str.isAlnum (String c v)) as [[b [| e r]] |]; reflexivity.
Qed.

End ScanFacts.

Section CaseFacts.

Lemma upChar_alnum c : Str.isAlnum c = true -> Str.isUpperAlnum (Str.upChar c) = true.
Proof.
  destruct c as [[] [] [] [] [] [] [] []]; vm_compute; intros H;
    first [reflexivity | discriminate H].
Qed.

Lemma toUpperCase_length s : String.length (Str.toUpperCase s) = String.length s.
Proof. induction s; simpl; congruence. Qed.

Lemma toUpperCase_alnum s :
  Str.all Str.isAlnum s = true -> Str.all Str.isUpperAlnum (Str.toUpperCase s) = true.
Proof.
  induction s as [| c s IH]; simpl; [reflexivity |].
  intros [Hc Hs]%andb_prop. now rewrite upChar_alnum, IH.
Qed.

Lemma upper_canonical b :
  String.length b = 10 -> Str.all Str.isAlnum b = true ->
  Rules.canonical (Str.toUpperCase b).
Proof.
  intros Hlen Hall. split; [now rewrite toUpperCase_length | now apply toUpperCase_alnum].
Qed.

Lemma asinAfter_shape p s b :
  Rules.asinAfter p s = Some b -> String.length b = 10 /\ Str.all Str.isAlnum b = true.
Proof.
  unfold Rules.asinAfter. destruct (Str.stripPrefixCi p s) as [r |]; [| discriminate].
  destruct (Str.takeClass 10 Str.isAlnum r) as [[b' rest] |] eqn:E; [| discriminate].
  intros [= <-]. now destruct (takeClass_shape _ _ _ _ _ E) as (_ & ? & ?).
Qed.

Lemma firstOf_Some {A} (l : list (option A)) a :
  Rules.firstOf l = Some a -> In (Some a) l.
Proof.
  induction l as [| [x |] l IH]; simpl; [discriminate | intros [= ->]; now left | auto].
Qed.

Lemma keywordAt_shape s b :
  Rules.keywordAt s = Some b -> String.length b = 10 /\ Str.all Str.isAlnum b = true.
Proof.
  intros H%firstOf_Some. apply in_map_iff in H as (kw & Hkw & _).
  now apply asinAfter_shape in Hkw.
Qed.

Lemma segmentAt_shape s b :
  Rules.segmentAt s = Some b -> String.length b = 10 /\ Str.all Str.isAlnum b = true.
Proof.
  unfold Rules.segmentAt. destruct (Str.stripPrefixCi "/" s) as [r |]; [| discriminate].
  destruct (Str.takeClass 10 Str.isAlnum r) as [[b' rest] |] eqn:E; [| discriminate].
  destruct (Rules.closed rest); [| discriminate].
  intros [= <-]. now destruct (takeClass_shape _ _ _ _ _ E) as (_ & ? & ?).
Qed.

Lemma rule1_canonical s a : Rules.rule1 s = Some a -> Rules.canonical a.
Proof.
  unfold Rules.rule1. destruct (Rules.scan Rules.keywordAt s) as [b |] eqn:E; [| discriminate].
  intros [= <-]. apply scan_Some in E as (t & Ht).
  apply keywordAt_shape in Ht as [? ?]. now apply upper_canonical.
Qed.

Lemma rule2_canonical s a : Rules.rule2 s = Some a -> Rules.canonical a.
Proof.
  unfold Rules.rule2. destruct (Rules.scan Rules.segmentAt s) as [b |] eqn:E; [| discriminate].
  intros [= <-]. apply scan_Some in E as (t & Ht).
  apply segmentAt_shape in Ht as [? ?]. now apply upper_canonical.
Qed.

Lemma rule3_canonical params a : Rules.rule3 params = Some a -> Rules.canonical a.
Proof.
  unfold Rules.rule3.
  destruct (orElse _ _) as [v |]; [| discriminate].
  destruct (Rules.isAsin v) eqn:E; [| discriminate].
  intros [= <-]. unfold Rules.isAsin in E. apply andb_prop in E as [Hl Ha].
  apply Nat.eqb_eq in Hl. now apply upper_canonical.
Qed.

Lemma extract_canonical URL_new url a :
  Rules.extract URL_new url = Some a -> Rules.canonical a.
Proof.
  unfold Rules.extract. destruct (URL_new url) as [u |].
  - cbn [Rules.firstOf].
    destruct (Rules.rule1 (pathname u)) eqn:E1; [intros [= <-]; eauto using rule1_canonical |].
    destruct (Rules.rule2 (pathname u)) eqn:E2; [intros [= <-]; eauto using rule2_canonical |].
    destruct (Rules.rule3 (searchParams u)) eqn:E3; [intros [= <-]; eauto using rule3_canonical |].
    discriminate.
  - apply rule1_canonical.
Qed.

End CaseFacts.

(** ** What the reference rules say

    An identifier found by rule 1 stands in the string behind a keyword
    segment, and a string in which one stands has a rule 1 result. *)

Section RuleFacts.

Implicit Types (s p w b r t : string).

Lemma ciEq_upChar (x y : ascii) : Str.ciEq x y = true <-> Str.upChar x = Str.upChar y.
Proof. unfold Str.ciEq. apply Ascii.eqb_eq. Qed.

Lemma stripPrefixCi_sound p s r :
  Str.stripPrefixCi p s = Some r ->
  exists w, s = w +:+ r /\ Str.toUpperCase w = Str.toUpperCase p.
Proof.
  revert s. induction p as [| a p IH]; intros s H.
  - exists "". simpl in H. injection H as ->. now split.
  - destruct s as [| d s]; simpl in H; [discriminate |].
    destruct (Str.ciEq a d) eqn:E; [| discriminate].
    apply ciEq_upChar in E. destruct (IH _ H) as (w & -> & Hw).
    exists (String d w). split; [reflexivity |]. simpl. now rewrite Hw, E.
Qed.

Lemma stripPrefixCi_complete p w r :
  Str.toUpperCase w = Str.toUpperCase p -> Str.stripPrefixCi p (w +:+ r) = Some r.
Proof.
  revert w. induction p as [| a p IH]; intros w H.
  - destruct w; [reflexivity | discriminate].
  - destruct w as [| d w]; [discriminate |]. simpl in H. injection H as Hd Hw.
    change (String d w +:+ r) with (String d (w +:+ r)). simpl.
    replace (Str.ciEq a d) with true by (symmetry; now apply ciEq_upChar).
    now apply IH.
Qed.

Lemma takeClass_complete n (c : ascii -> bool) b r :
  String.length b = n -> Str.all c b = true ->
  Str.takeClass n c (b +:+ r) = Some (b, r).
Proof.
  revert n. induction b as [| d b IH]; intros n Hlen Hall; simpl in Hlen; subst n.
  - reflexivity.
  - simpl in Hall. apply andb_prop in Hall as [Hd Hb].
    change (String d b +:+ r) with (String d (b +:+ r)). simpl. rewrite Hd.
    now rewrite (IH _ eq_refl Hb).
Qed.

Lemma scan_sound {A} (f : string -> option A) s a :
  Rules.scan f s = Some a -> exists pre t, s = pre +:+ t /\ f t = Some a.
Proof.
  induction s as [| c s IH]; simpl.
  - destruct (f "") eqn:E; [| discriminate]. intros [= <-]. now exists "", "".
  - destruct (f (String c s)) eqn:E.
    + intros [= <-]. now exists "", (String c s).
    + intros H. destruct (IH H) as (pre & t & -> & Ht).
      now exists (String c pre), t.
Qed.

Lemma scan_complete {A} (f : string -> option A) pre t :
  is_Some (f t) -> is_Some (Rules.scan f (pre +:+ t)).
Proof.
  intros Ht. induction pre as [| c pre IH].
  - change ("" +:+ t) with t. destruct Ht as [x Hx]. destruct t; simpl; rewrite Hx; eauto.
  - change (String c pre +:+ t) with (String c (pre +:+ t)). simpl.
    destruct (f (String c (pre +:+ t))); eauto.
Qed.

Lemma asinAfter_sound p t b :
  Rules.asinAfter p t = Some b ->
  exists w post, t = w +:+ b +:+ post /\ Str.toUpperCase w = Str.toUpperCase p
                 /\ String.length b = 10 /\ Str.all Str.isAlnum b = true.
Proof.
  unfold Rules.asinAfter. destruct (Str.stripPrefixCi p t) as [r |] eqn:Hp; [| discriminate].
  destruct (Str.takeClass 10 Str.isAlnum r) as [[b' post] |] eqn:Hb; [| discriminate].
  intros [= <-]. destruct (stripPrefixCi_sound _ _ _ Hp) as (w & -> & Hw).
  destruct (takeClass_shape _ _ _ _ _ Hb) as (-> & Hlen & Hall).
  now exists w, post.
Qed.

Lemma asinAfter_complete p w b post :
  Str.toUpperCase w = Str.toUpperCase p ->
  String.length b = 10 -> Str.all Str.isAlnum b = true ->
  Rules.asinAfter p (w +:+ b +:+ post) = Some b.
Proof.
  intros Hw Hlen Hall. unfold Rules.asinAfter.
  rewrite (stripPrefixCi_complete _ _ _ Hw).
  now rewrite (takeClass_complete _ _ _ _ Hlen Hall).
Qed.

Lemma firstOf_is_Some {A} (l : list (option A)) a :
  In (Some a) l -> is_Some (Rules.firstOf l).
Proof.
  induction l as [| [x |] l IH]; simpl; [tauto | eauto |].
  intros [H | H]; [discriminate | auto].
Qed.

(** Rule 1 finds only what is there. *)
Lemma rule1_sound s a :
  Rules.rule1 s = Some a ->
  exists pre kw w body post,
    In kw Rules.keywords
    /\ s = pre +:+ w +:+ body +:+ post
    /\ Str.toUpperCase w = Str.toUpperCase ("/" +:+ kw +:+ "/")
    /\ String.length body = 10 /\ Str.all Str.isAlnum body = true
    /\ a = Str.toUpperCase body.
Proof.
  unfold Rules.rule1. destruct (Rules.scan Rules.keywordAt s) as [b |] eqn:E; [| discriminate].
  intros [= <-]. apply scan_sound in E as (pre & t & -> & Ht).
  apply firstOf_Some, in_map_iff in Ht as (kw & Hkw & Hin).
  apply asinAfter_sound in Hkw as (w & post & -> & Hw & Hlen & Hall).
  now exists pre, kw, w, b, post.
Qed.

(** Rule 1 finds something whenever something is there. *)
Lemma rule1_complete pre kw w body post :
  In kw Rules.keywords ->
  Str.toUpperCase w = Str.toUpperCase ("/" +:+ kw +:+ "/") ->
  String.length body = 10 -> Str.all Str.isAlnum body = true ->
  is_Some (Rules.rule1 (pre +:+ w +:+ body +:+ post)).
Proof.
  intros Hin Hw Hlen Hall. unfold Rules.rule1.
  assert (H : is_Some (Rules.scan Rules.keywordAt (pre +:+ w +:+ body +:+ post))).
  { apply scan_complete. apply (firstOf_is_Some _ body).
    apply in_map_iff. exists kw. split; [| exact Hin].
    now apply asinAfter_complete. }
  destruct H as [b ->]. simpl. eauto.
Qed.

(** Rule 2 finds only a segment of ten alphanumerics that is closed. *)
Lemma rule2_sound s a :
  Rules.rule2 s = Some a ->
  exists pre body post,
    s = pre +:+ "/" +:+ body +:+ post
    /\ String.length body = 10 /\ Str.all Str.isAlnum body = true
    /\ Rules.closed post = true
    /\ a = Str.toUpperCase body.
Proof.
  unfold Rules.rule2. destruct (Rules.scan Rules.segmentAt s) as [b |] eqn:E; [| discriminate].
  intros [= <-]. apply scan_sound in E as (pre & t & -> & Ht).
  unfold Rules.segmentAt in Ht.
  destruct t as [| c t]; [discriminate |]. cbn [Str.stripPrefixCi] in Ht.
  destruct (Str.ciEq "/" c) eqn:Hc; [| discriminate].
  assert (c = "/"%char) as ->.
  { apply ciEq_upChar in Hc. revert Hc.
    destruct c as [[] [] [] [] [] [] [] []]; vm_compute; intros H;
      first [reflexivity | discriminate H]. }
  destruct (Str.takeClass 10 Str.isAlnum t) as [[b' post] |] eqn:Hb; [| discriminate].
  destruct (Rules.closed post) eqn:Hclosed; [| discriminate].
  injection Ht as ->. destruct (takeClass_shape _ _ _ _ _ Hb) as (-> & Hlen & Hall).
  now exists pre, b, post.
Qed.

End RuleFacts.

(** ** Identifier extractor *)

Lemma isAsin_truthy v : (Str.truthy v && Rules.isAsin v)%bool = Rules.isAsin v.
Proof. now destruct v. Qed.

Lemma canonical_truthy a : Rules.canonical a -> Str.truthy a = true.
Proof. intros [Hlen _]. now destruct a. Qed.

Lemma extractASIN_extract URL_new url :
  extractASIN URL_new url = Ret (Rules.extract URL_new url).
Proof.
  unfold extractASIN, Rules.extract, Rules.rule1, Rules.rule2, Rules.rule3.
  destruct (URL_new url) as [u |]; cbn [bind try_catch Rules.firstOf].
  - rewrite <- (exec_group1 Patterns.pathKeyword Rules.keywordAt _ matchAt_pathKeyword).
    destruct (Re.exec Patterns.pathKeyword (pathname u)) as [m1 |]; [reflexivity |].
    rewrite <- (exec_group1 Patterns.bareSegment Rules.segmentAt _ matchAt_bareSegment).
    destruct (Re.exec Patterns.bareSegment (pathname u)) as [m2 |]; [reflexivity |].
    cbn [option_map].
    destruct (orElse _ _) as [v |]; [| reflexivity].
    rewrite test_wholeAsin, isAsin_truthy. now destruct (Rules.isAsin v).
  - rewrite <- (exec_group1 Patterns.rawKeyword Rules.keywordAt _ matchAt_rawKeyword).
    now destruct (Re.exec Patterns.rawKeyword url).
Qed.

Lemma extractASINFromUrl_extractRaw url :
  extractASINFromUrl url = Rules.extractRaw url.
Proof.
  unfold extractASINFromUrl, Rules.extractRaw. cbn [Rules.firstOf].
  rewrite <- (exec_group1 Patterns.dp (Rules.asinAfter "/dp/") url
                (matchAt_prefixed "/dp/")).
  destruct (Re.exec Patterns.dp url) as [m |]; [reflexivity |]. cbn [option_map].
  rewrite <- (exec_group1 Patterns.gpProduct (Rules.asinAfter "/gp/product/") url
                (matchAt_prefixed "/gp/product/")).
  now destruct (Re.exec Patterns.gpProduct url).
Qed.

(** C4 (as amended). For every URL string and whatever the URL parser does
    with it, [extractASIN] of the two API scripts does not throw and returns
    the result of the first rule that applies, in the order: rule 1 on the
    path, rule 2 on the path, rule 3 on the query parameter spelled [asin] or
    else [ASIN]; rule 1 on the raw string when the URL does not parse; absent
    otherwise.  A result is ten characters of [A-Z0-9]. *)
Theorem extractASIN_rules (URL_new : string -> outcome URL) (url : string) :
  extractASIN URL_new url = Ret (Rules.extract URL_new url)
  /\ (forall a, Rules.extract URL_new url = Some a -> Rules.canonical a).
Proof.
  split; [apply extractASIN_extract | intros a; apply extract_canonical].
Qed.

(** C4 as stated fails: the browser script returns the group in lower case
    where rule 1 prescribes upper case, and the API scripts do not see a
    parameter spelled [Asin]. *)
Lemma extractor_counterexample :
  (Rules.rule1 "https://www.amazon.com/dp/b000111222" = Some "B000111222"
   /\ extractASINFromUrl "https://www.amazon.com/dp/b000111222" = Some "b000111222")
  /\ (PlainURL.parse "https://www.amazon.com/?Asin=B000111222"
      = Ret (mkURL "www.amazon.com" "/" [("Asin", "B000111222")])
      /\ Rules.rule3Ci [("Asin", "B000111222")] = Some "B000111222"
      /\ extractASIN PlainURL.parse "https://www.amazon.com/?Asin=B000111222" = Ret None).
Proof. repeat split; vm_compute; reflexivity. Qed.

(** ** Deduplicator *)

Section FirstIndexFacts.

Import Registry.
Implicit Types (a : string) (ids : list (option string)).

Lemma firstIndex_app a ids1 ids2 :
  firstIndex a (ids1 ++ ids2) =
  match firstIndex a ids1 with
  | Some i => Some i
  | None => (fun i => length ids1 + i) <$> firstIndex a ids2
  end.
Proof.
  induction ids1 as [| x ids1 IH]; simpl.
  - now destruct (firstIndex a ids2).
  - destruct (decide (x = Some a)); [reflexivity |].
    rewrite IH. destruct (firstIndex a ids1); [reflexivity |].
    now destruct (firstIndex a ids2).
Qed.

Lemma firstIndex_lookup a ids i :
  firstIndex a ids = Some i -> ids !! i = Some (Some a).
Proof.
  revert i. induction ids as [| x ids IH]; intros i; simpl; [discriminate |].
  destruct (decide (x = Some a)) as [-> |]; [now intros [= <-] |].
  destruct (firstIndex a ids) as [j |]; [| discriminate].
  intros [= <-]. now apply IH.
Qed.

Lemma firstIndex_None a ids : firstIndex a ids = None <-> Some a ∉ ids.
Proof.
  induction ids as [| x ids IH]; simpl.
  - split; [intros _; apply not_elem_of_nil | reflexivity].
  - rewrite not_elem_of_cons. destruct (decide (x = Some a)) as [-> | Hne].
    + split; [discriminate | intros [[] _]; reflexivity].
    + destruct (firstIndex a ids); simpl.
      * split; [discriminate | intros [_ H]; now apply IH in H].
      * split; [intros _; split; [congruence | now apply IH] | reflexivity].
Qed.

(** The first occurrence within a prefix is the first occurrence. *)
Lemma firstIndex_take_Some a ids k i :
  firstIndex a (take k ids) = Some i -> firstIndex a ids = Some i /\ i < k.
Proof.
  intros H. split.
  - rewrite <- (take_drop k ids), firstIndex_app, H. reflexivity.
  - apply firstIndex_lookup, lookup_lt_Some in H.
    rewrite length_take in H. lia.
Qed.

Lemma firstIndex_take_S a ids k x :
  ids !! k = Some x ->
  firstIndex a (take (S k) ids) =
  match firstIndex a (take k ids) with
  | Some i => Some i
  | None => if decide (x = Some a) then Some k else None
  end.
Proof.
  intros Hk. rewrite (take_S_r _ _ _ Hk), firstIndex_app.
  destruct (firstIndex a (take k ids)); [reflexivity |].
  simpl. rewrite length_take. apply lookup_lt_Some in Hk.
  destruct (decide (x = Some a)); simpl; [f_equal; lia | reflexivity].
Qed.

Lemma firstIndex_take_fresh a ids k :
  ids !! k = Some (Some a) -> firstIndex a (take k ids) = None ->
  firstIndex a ids = Some k.
Proof.
  intros Hk Hnone.
  pose proof (firstIndex_take_S a ids k _ Hk) as H. rewrite Hnone in H.
  rewrite decide_True in H by reflexivity.
  now apply firstIndex_take_Some in H as [H _].
Qed.

End FirstIndexFacts.

Section DeduplicatorFacts.

Import Registry.

Variable URL_new : string -> outcome URL.
Variable lines : list string.

Let ids : list (option string) := map (Rules.extract URL_new) lines.

Lemma ids_lookup k url : lines !! k = Some url -> ids !! k = Some (Rules.extract URL_new url).
Proof. intros H. unfold ids. now rewrite list_lookup_fmap, H. Qed.

Lemma invariant_empty : invariant lines ids 0 emptyRegistry.
Proof.
  split; simpl; try reflexivity.
  - constructor.
  - intros a. split; [intros H; inversion H | intros [i H]; discriminate].
Qed.

(** A line without identifier changes nothing. *)
Lemma invariant_skip k url st :
  lines !! k = Some url -> Rules.extract URL_new url = None ->
  invariant lines ids k st -> invariant lines ids (S k) st.
Proof.
  intros Hk Hnone [Ha Hd Hs Hl Hn He]. apply ids_lookup in Hk as Hid. rewrite Hnone in Hid.
  assert (Hfi : forall a, firstIndex a (take (S k) ids) = firstIndex a (take k ids)).
  { intros a. rewrite (firstIndex_take_S a ids k _ Hid).
    destruct (firstIndex a (take k ids)); [reflexivity |].
    now rewrite decide_False by discriminate. }
  split; try assumption.
  - rewrite seq_S, omap_app. simpl. unfold firstSeenAt. rewrite Hid. simpl.
    now rewrite app_nil_r.
  - rewrite seq_S, omap_app. simpl. unfold repeatedAt. rewrite Hid. simpl.
    now rewrite app_nil_r.
  - intros a. now rewrite Hfi.
  - intros a. now rewrite Hfi.
  - intros a. now rewrite Hfi.
Qed.

(** A line whose identifier is registered adds a conflict record. *)
Lemma invariant_repeat k url a i st :
  lines !! k = Some url -> Rules.extract URL_new url = Some a ->
  firstIndex a (take k ids) = Some i ->
  invariant lines ids k st ->
  invariant lines ids (S k)
    (mkRegistry (asinToLink st) (asins st) (asinSeen st)
                (duplicates st ++ [mkDuplicate a (i + 1) (k + 1)])).
Proof.
  intros Hk Hsome Hfirst [Ha Hd Hs Hl Hn He]. apply ids_lookup in Hk as Hid.
  rewrite Hsome in Hid.
  destruct (firstIndex_take_Some _ _ _ _ Hfirst) as [Hwhole Hlt].
  assert (Hfi : forall b, firstIndex b (take (S k) ids) = firstIndex b (take k ids)).
  { intros b. rewrite (firstIndex_take_S b ids k _ Hid).
    destruct (firstIndex b (take k ids)) eqn:E; [reflexivity |].
    destruct (decide (Some a = Some b)) as [[= ->] |]; [congruence | reflexivity]. }
  split; cbn [asins duplicates asinSeen asinToLink].
  - rewrite seq_S, omap_app. simpl. unfold firstSeenAt. rewrite Hid, Hwhole.
    rewrite decide_False by (intros [= ->]; lia). simpl. now rewrite app_nil_r.
  - rewrite seq_S, omap_app. simpl. unfold repeatedAt at 2. rewrite Hid, Hwhole.
    apply Nat.ltb_lt in Hlt. rewrite Hlt. simpl. now rewrite Hd.
  - intros b. now rewrite Hfi.
  - intros b. now rewrite Hfi.
  - assumption.
  - intros b. now rewrite Hfi.
Qed.

(** A line with a new identifier registers it. *)
Lemma invariant_fresh k url a st :
  lines !! k = Some url -> Rules.extract URL_new url = Some a ->
  firstIndex a (take k ids) = None ->
  invariant lines ids k st ->
  invariant lines ids (S k)
    (mkRegistry (<[a := url]> (asinToLink st)) (asins st ++ [a])
                (<[a := k + 1]> (asinSeen st)) (duplicates st)).
Proof.
  intros Hk Hsome Hfirst [Ha Hd Hs Hl Hn He]. apply ids_lookup in Hk as Hid.
  rewrite Hsome in Hid.
  pose proof (firstIndex_take_fresh _ _ _ Hid Hfirst) as Hwhole.
  assert (Hfa : firstIndex a (take (S k) ids) = Some k).
  { rewrite (firstIndex_take_S a ids k _ Hid), Hfirst. now rewrite decide_True. }
  assert (Hfb : forall b, b <> a ->
            firstIndex b (take (S k) ids) = firstIndex b (take k ids)).
  { intros b Hne. rewrite (firstIndex_take_S b ids k _ Hid).
    destruct (firstIndex b (take k ids)); [reflexivity |].
    rewrite decide_False; [reflexivity | congruence]. }
  split; cbn [asins duplicates asinSeen asinToLink].
  - rewrite seq_S, omap_app. simpl. unfold firstSeenAt at 2. rewrite Hid, Hwhole.
    rewrite decide_True by reflexivity. simpl. now rewrite Ha.
  - rewrite seq_S, omap_app. simpl. unfold repeatedAt at 2. rewrite Hid, Hwhole.
    rewrite Nat.ltb_irrefl. simpl. now rewrite app_nil_r.
  - intros b. destruct (decide (b = a)) as [-> | Hne].
    + now rewrite lookup_insert_eq, Hfa.
    + rewrite lookup_insert_ne by congruence. now rewrite Hfb.
  - intros b. destruct (decide (b = a)) as [-> | Hne].
    + rewrite lookup_insert_eq, Hfa. simpl. now rewrite Hk.
    + rewrite lookup_insert_ne by congruence. now rewrite Hfb.
  - apply NoDup_app. split; [assumption |]. split; [| apply NoDup_singleton].
    intros b Hb ->%list_elem_of_singleton. apply He in Hb as [j Hj]. congruence.
  - intros b. rewrite elem_of_app, list_elem_of_singleton.
    destruct (decide (b = a)) as [-> | Hne].
    + rewrite Hfa. split; [eauto | now right].
    + rewrite Hfb by assumption. rewrite He. split; [intros [H | H]; [assumption | contradiction] | now left].
Qed.

Lemma registerLine_invariant k url st :
  lines !! k = Some url -> invariant lines ids k st ->
  exists st', registerLine URL_new url k st = Ret st' /\ invariant lines ids (S k) st'.
Proof.
  intros Hk Hinv. unfold registerLine. rewrite extractASIN_extract. cbn [bind].
  destruct (Rules.extract URL_new url) as [a |] eqn:Hex.
  - rewrite (canonical_truthy a) by (eapply extract_canonical; eassumption).
    cbn [negb]. rewrite (inv_seen _ _ _ _ Hinv).
    destruct (firstIndex a (take k ids)) as [i |] eqn:Hfirst; simpl.
    + eexists. split; [reflexivity |]. now apply invariant_repeat with url.
    + eexists. split; [reflexivity |]. now apply invariant_fresh.
  - eexists. split; [reflexivity |]. now apply invariant_skip with url.
Qed.

Lemma forEachFrom_invariant rest :
  forall k st, k <= length lines -> drop k lines = rest -> invariant lines ids k st ->
  exists st', forEachFrom URL_new k rest st = Ret st'
              /\ invariant lines ids (length lines) st'.
Proof.
  induction rest as [| url rest IH]; intros k st Hle Hdrop Hinv.
  - exists st. split; [reflexivity |].
    assert (Hlen : length (drop k lines) = 0) by now rewrite Hdrop.
    rewrite length_drop in Hlen.
    replace (length lines) with k by lia. assumption.
  - assert (Hk : lines !! k = Some url).
    { rewrite <- (Nat.add_0_r k), <- lookup_drop, Hdrop. reflexivity. }
    destruct (registerLine_invariant k url st Hk Hinv) as (st1 & Hst1 & Hinv1).
    rewrite (drop_S _ _ _ Hk) in Hdrop. injection Hdrop as Hdrop.
    apply lookup_lt_Some in Hk as Hlt.
    destruct (IH (S k) st1) as (st' & Hrun & Hfin); [lia | assumption | assumption |].
    exists st'. split; [| assumption]. cbn [forEachFrom]. rewrite Hst1. exact Hrun.
Qed.

Lemma firstIndex_is_Some a : is_Some (firstIndex a ids) <-> Some a ∈ ids.
Proof.
  pose proof (firstIndex_None a ids) as H.
  destruct (firstIndex a ids) as [i |] eqn:E.
  - split; [intros _ | eauto]. destruct (decide (Some a ∈ ids)) as [| Hn]; [assumption |].
    apply H in Hn. discriminate.
  - split; [intros [j Hj]; discriminate | intros Hin]. exfalso.
    now apply (proj1 H).
Qed.

End DeduplicatorFacts.

(** C7. For every ordered list of references, whatever the URL parser does
    with them, the deduplicator completes and: the registered identifiers are
    those that some line carries, each once, in the order of their first
    occurrences; each is mapped to the 1-based number of its first line and
    to the reference on that line; and the conflict records are, in the order
    of the lines, one for each later occurrence of an identifier, carrying the
    identifier, the number of its first line and the number of the current
    line. *)
Theorem dedupe_first_seen (URL_new : string -> outcome URL) (lines : list string) :
  let ids := map (Rules.extract URL_new) lines in
  exists r,
    dedupe URL_new lines = Ret r
    /\ asins r = Registry.firstSeen ids
    /\ NoDup (asins r)
    /\ (forall a, a ∈ asins r <-> Some a ∈ ids)
    /\ (forall a, asinSeen r !! a = (fun i => i + 1) <$> Registry.firstIndex a ids)
    /\ (forall a, asinToLink r !! a
                  = Registry.firstIndex a ids ≫= (fun i => lines !! i))
    /\ duplicates r = Registry.conflicts ids.
Proof.
  intros ids.
  destruct (forEachFrom_invariant URL_new lines lines 0 emptyRegistry)
    as (r & Hrun & [Ha Hd Hs Hl Hn He]);
    [lia | reflexivity | apply invariant_empty |].
  assert (Hlen : length lines = length ids) by (unfold ids; now rewrite length_map).
  assert (Hall : take (length lines) ids = ids) by (rewrite Hlen; apply firstn_all).
  fold ids in Ha, Hd, Hs, Hl, He. rewrite Hall in Hs, Hl, He.
  exists r. repeat split.
  - exact Hrun.
  - unfold Registry.firstSeen. now rewrite <- Hlen.
  - exact Hn.
  - intros H. apply He in H. now apply firstIndex_is_Some in H.
  - intros H. apply He. now apply firstIndex_is_Some.
  - exact Hs.
  - exact Hl.
  - unfold Registry.conflicts. now rewrite <- Hlen.
Qed.

(** ** Rate limiter *)

Section RateLimiterFacts.

Variable interval : Z.

Open Scope Z_scope.









End RateLimiterFacts.



(** ** Request signer *)

Lemma append_assoc (a b c : string) : (a +:+ b) +:+ c = a +:+ (b +:+ c).
Proof.
  induction a as [| x a IH]; [reflexivity |].
  change (String x ((a +:+ b) +:+ c) = String x (a +:+ (b +:+ c))).
  now rewrite IH.
Qed.

Lemma append_cons (c : ascii) (s t : string) : String c s +:+ t = String c (s +:+ t).
Proof. reflexivity. Qed.

Lemma append_nil_l (t : string) : "" +:+ t = t.
Proof. reflexivity. Qed.

Section TimestampFacts.

(** The decimal digit of weight one of [n]. *)
Let dg (n : nat) : ascii := ascii_of_nat (48 + n mod 10).

Lemma dg_plain n :
  (Ascii.eqb (dg n) ":" || Ascii.eqb (dg n) "-")%bool = false
  /\ Ascii.eqb "." (dg n) = false
  /\ Str.isDigit (dg n) = true.
Proof.
  unfold dg. pose proof (Nat.mod_upper_bound n 10 ltac:(lia)) as H.
  destruct (n mod 10) as [| [| [| [| [| [| [| [| [| [| k]]]]]]]]]];
    [repeat split; reflexivity .. | lia].
Qed.

Lemma pad2_chars n : pad 2 n = String (dg (n / 10)) (String (dg n) "").
Proof. reflexivity. Qed.

Lemma pad3_chars n :
  pad 3 n = String (dg (n / 10 / 10)) (String (dg (n / 10)) (String (dg n) "")).
Proof. reflexivity. Qed.

Lemma pad4_chars n :
  pad 4 n = String (dg (n / 10 / 10 / 10))
              (String (dg (n / 10 / 10)) (String (dg (n / 10)) (String (dg n) ""))).
Proof. reflexivity. Qed.

(** A digit stays. *)
Lemma delete_digit n i s :
  Re.deleteAllFrom Patterns.isoPunct 0 i (String (dg n) s)
  = String (dg n) (Re.deleteAllFrom Patterns.isoPunct 0 (S i) s).
Proof.
  destruct (dg_plain n) as (H1 & H2 & _).
  cbn [Re.deleteAllFrom]. unfold Re.matchLen, Patterns.isoPunct, Re.chr.
  cbn [Re.alts Re.seqs Re.run]. now rewrite H1, H2.
Qed.

(** So does a letter. *)
Lemma delete_letter (c : ascii) i s :
  c = "T"%char \/ c = "Z"%char ->
  Re.deleteAllFrom Patterns.isoPunct 0 i (String c s)
  = String c (Re.deleteAllFrom Patterns.isoPunct 0 (S i) s).
Proof. intros [-> | ->]; reflexivity. Qed.

(** A hyphen or a colon goes. *)
Lemma delete_mark (c : ascii) i s :
  c = "-"%char \/ c = ":"%char ->
  Re.deleteAllFrom Patterns.isoPunct 0 i (String c s)
  = Re.deleteAllFrom Patterns.isoPunct 0 (S i) s.
Proof.
  intros [-> | ->]; cbn [Re.deleteAllFrom]; unfold Re.matchLen, Patterns.isoPunct;
    cbn [Re.alts Re.seqs Re.run Ascii.eqb Bool.eqb orb];
    now replace (S i - i) with 1 by lia.
Qed.

(** The point goes with the three digits of the milliseconds. *)
Lemma delete_millis a b c i s :
  Re.deleteAllFrom Patterns.isoPunct 0 i
    (String "." (String (dg a) (String (dg b) (String (dg c) s))))
  = Re.deleteAllFrom Patterns.isoPunct 0 (S (S (S (S i)))) s.
Proof.
  destruct (dg_plain a) as (_ & _ & Ha), (dg_plain b) as (_ & _ & Hb),
    (dg_plain c) as (_ & _ & Hc).
  cbn [Re.deleteAllFrom]. unfold Re.matchLen, Patterns.isoPunct, Re.chr.
  cbn [Re.alts Re.seqs Re.run Ascii.eqb Bool.eqb orb]. rewrite Ha, Hb, Hc.
  now replace (S (S (S (S i))) - i) with 4 by lia.
Qed.

(** For a year of four digits the timestamp is [YYYYMMDDThhmmssZ] and the
    date stamp its first eight characters, [YYYYMMDD]. *)
Lemma amzDate_format (d : Date) :
  (0 <= year d <= 9999)%Z ->
  SigV4.amzDateOf d = SigV4.basicTimestamp d
  /\ Str.take 8 (SigV4.amzDateOf d) = SigV4.basicDate d.
Proof.
  intros Hy. unfold SigV4.amzDateOf, SigV4.basicTimestamp, SigV4.basicDate, toISOString.
  replace ((0 <=? year d)%Z && (year d <=? 9999)%Z)%bool with true
    by (symmetry; apply andb_true_intro; split; apply Z.leb_le; lia).
  rewrite !pad2_chars, pad3_chars, pad4_chars. unfold Re.deleteAll.
  repeat first [rewrite append_cons | rewrite append_nil_l].
  repeat first [ rewrite delete_digit
               | rewrite delete_millis
               | rewrite delete_letter by tauto
               | rewrite delete_mark by tauto ].
  split; reflexivity.
Qed.

End TimestampFacts.

Section SignerFacts.

Variable sha256 : string -> string.
Variable hmacSha256 : string -> string -> string.
Variable Payload : Type.
Variable JSON_stringify : Payload -> string.

(** C1. For every credential set and payload and every time of the request,
    the descriptor built is a POST request whose body is the JSON text of the
    payload and whose headers are the five signed headers, in the order of
    their names, followed by [Authorization]; its value is
    [<algorithm> Credential=<accessKey>/<scope>, SignedHeaders=<names>,
    Signature=<signature>], where the signature is the hex keyed digest, under
    the key chained from ["AWS4" + secretKey] over date stamp, region, service
    and ["aws4_request"], of the string to sign made of the algorithm, the
    timestamp, the scope and the hex digest of the canonical request: method,
    path, empty query, the five headers with lower-case names each closed by a
    newline, their names joined by [;], and the hex digest of the body. *)
Theorem buildAuthHeaders_signature (a : signerInput Payload) (now : Date) :
  let req := buildAuthHeaders sha256 hmacSha256 Payload JSON_stringify a now in
  let timestamp := SigV4.amzDateOf now in
  let dateStamp := Str.take 8 timestamp in
  let signed := [("content-encoding", "amz-1.0");
                 ("content-type", "application/json; charset=utf-8");
                 ("host", host a);
                 ("x-amz-date", timestamp);
                 ("x-amz-target", amzTarget a)] in
  let scope := SigV4.credentialScope dateStamp (region a) (service a) in
  let canonical := SigV4.canonicalRequest sha256 (method req) (path a) signed (body req) in
  let key := SigV4.signingKey hmacSha256 (secretKey a) dateStamp (region a) (service a) in
  let sig := SigV4.signature hmacSha256 key (SigV4.stringToSign sha256 timestamp scope canonical) in
  method req = "POST"
  /\ body req = JSON_stringify (payload a)
  /\ SigV4.sortHeaders signed = signed
  /\ headers req
     = signed ++ [("Authorization",
                   SigV4.authorization (accessKey a) scope (SigV4.signedHeaders signed) sig)].
Proof.
  cbv zeta. split; [reflexivity |]. split; [reflexivity |]. split; reflexivity.
Qed.

End SignerFacts.

(** ** Discount calculator *)

Section NumFacts.

Lemma Qltb_true x y : Num.Qltb x y = true <-> (x < y)%Q.
Proof.
  unfold Num.Qltb. rewrite Bool.negb_true_iff, <- Bool.not_true_iff_false, Qle_bool_iff.
  split; [apply Qnot_le_lt | apply Qlt_not_le].
Qed.

Lemma Qeq_bool_false x y : ~ (x == y)%Q -> Qeq_bool x y = false.
Proof.
  intros H. apply Bool.not_true_iff_false. intros E. now apply Qeq_bool_iff in E.
Qed.

End NumFacts.

(** Rounding to two decimals yields a number of hundredths that is within
    half a hundredth of the argument. *)
Lemma nearestUp_close x : (Qabs ((Num.nearestUp (x * 100) # 100) - x) <= 1 # 200)%Q.
Proof.
  unfold Num.nearestUp.
  pose proof (Qfloor_le (x * 100 + (1 # 2))) as Hlo.
  pose proof (Qlt_floor (x * 100 + (1 # 2))) as Hhi.
  set (n := Qfloor (x * 100 + (1 # 2))) in *.
  rewrite inject_Z_plus in Hhi.
  assert (E : (n # 100 == inject_Z n / 100)%Q) by (now rewrite Qmake_Qdiv).
  rewrite E. clearbody n. set (m := inject_Z n) in *. clearbody m.
  change (inject_Z 1) with 1%Q in Hhi.
  apply Qabs_Qle_condition. unfold Qdiv. change (/ 100)%Q with (1 # 100)%Q.
  split; lra.
Qed.

Lemma toFixed2_nearest x :
  (Qabs x < 10 ^ 21)%Q ->
  exists n : Z,
    round2 (Fin x) = Fin (Qred (n # 100))
    /\ (Qabs ((n # 100) - x) <= 1 # 200)%Q.
Proof.
  intros Hsmall. unfold round2, Num.toFixed2.
  replace (Qle_bool (10 ^ 21) (Qabs x)) with false.
  2: { symmetry. apply Bool.not_true_iff_false. rewrite Qle_bool_iff.
       now apply Qlt_not_le. }
  destruct (Num.Qltb x 0).
  - exists (- Num.nearestUp (- x * 100))%Z. split; [reflexivity |].
    pose proof (nearestUp_close (- x)) as H.
    apply Qabs_Qle_condition in H as [H1 H2]. apply Qabs_Qle_condition.
    change ((- Num.nearestUp (- x * 100))%Z # 100)%Q
      with (- (Num.nearestUp (- x * 100) # 100))%Q.
    split; lra.
  - exists (Num.nearestUp (x * 100)). split; [reflexivity | apply nearestUp_close].
Qed.

(** ** Discount calculator in binary64 *)

Section Binary64Facts.

Import PrimFloat SpecFloat FloatOps FloatAxioms.

Open Scope Z_scope.

(** *** Comparisons *)

Lemma SFcompare_Lt_Gt a b : SFcompare a b = Some Lt -> SFcompare b a = Some Gt.
Proof.
  destruct a as [[|] | [|] | | [|] ma ea], b as [[|] | [|] | | [|] mb eb];
    cbn [SFcompare]; try congruence; intros [= H]; f_equal;
    change (Pos.compare_cont Eq mb ma) with (Pos.compare mb ma);
    change (Pos.compare_cont Eq ma mb) with (Pos.compare ma mb) in H;
    rewrite (Z.compare_antisym ea eb), (Pos.compare_antisym ma mb);
    destruct (ea ?= eb); cbn [CompOpp] in *; try congruence;
    destruct (ma ?= mb)%positive; cbn [CompOpp] in *; congruence.
Qed.

(** [c < o] excludes [c >= o]. *)
Lemma ltb_not_leb (c o : float) : (c <? o)%float = true -> Binary64.geb c o = false.
Proof.
  unfold Binary64.geb. rewrite ltb_spec, leb_spec. unfold SFltb, SFleb.
  destruct (SFcompare (Prim2SF c) (Prim2SF o)) as [[| |] |] eqn:E; try discriminate.
  intros _. now rewrite (SFcompare_Lt_Gt _ _ E).
Qed.

Lemma SFcompare_refl s m e :
  SFcompare (S754_finite s m e) (S754_finite s m e) = Some Eq.
Proof.
  cbn [SFcompare]. rewrite Z.compare_refl.
  change (Pos.compare_cont Eq m m) with (Pos.compare m m). rewrite Pos.compare_refl.
  now destruct s.
Qed.

Lemma truthy_spec x :
  Binary64.truthy x
  = match Prim2SF x with
    | S754_finite _ _ _ | S754_infinity _ => true
    | _ => false
    end.
Proof.
  unfold Binary64.truthy, is_nan, is_zero. rewrite !eqb_spec.
  change (Prim2SF zero) with (S754_zero false). unfold SFeqb.
  destruct (Prim2SF x) as [[|] | [|] | | s m e]; try reflexivity.
  rewrite SFcompare_refl. now destruct s.
Qed.

Lemma is_finite_spec x :
  is_finite x
  = match Prim2SF x with
    | S754_finite _ _ _ | S754_zero _ => true
    | _ => false
    end.
Proof.
  unfold is_finite, is_nan, is_infinity. rewrite !eqb_spec, abs_spec.
  change (Prim2SF infinity) with (S754_infinity false). unfold SFeqb.
  destruct (Prim2SF x) as [[|] | [|] | | s m e]; try reflexivity.
  rewrite SFcompare_refl. now destruct s.
Qed.

Lemma positive_spec x : Binary64.gtb x 0 = true <-> Discount64.signedSF false (Prim2SF x).
Proof.
  unfold Binary64.gtb. rewrite ltb_spec. change (Prim2SF 0) with (S754_zero false).
  destruct (Prim2SF x) as [[|] | [|] | | [|] m e]; cbn; intuition congruence.
Qed.

(** *** Subtraction of a smaller number *)

Lemma digits_size m : digits2_pos m = Pos.size m.
Proof. induction m; simpl; congruence. Qed.

Lemma digits_bounds m :
  2 ^ (Zpos (digits2_pos m) - 1) <= Zpos m < 2 ^ Zpos (digits2_pos m).
Proof.
  rewrite digits_size. split.
  - pose proof (Pos.size_le m) as H.
    assert (H' : 2 ^ Zpos (Pos.size m) <= 2 * Zpos m).
    { change 2 with (Zpos 2) at 1. rewrite <- Pos2Z.inj_pow. exact H. }
    replace (Zpos (Pos.size m)) with (Z.succ (Zpos (Pos.size m) - 1)) in H' by lia.
    rewrite Z.pow_succ_r in H' by lia. lia.
  - pose proof (Pos.size_gt m) as H.
    change 2 with (Zpos 2). rewrite <- Pos2Z.inj_pow. exact H.
Qed.

Lemma shr_m_shr_1 mrs : 0 <= shr_m mrs -> shr_m (shr_1 mrs) = shr_m mrs / 2.
Proof.
  destruct mrs as [m r s]. cbn [shr_m]. intros H. rewrite <- Z.div2_div.
  destruct m as [| [p | p |] | p]; try reflexivity. lia.
Qed.

Lemma pow2_xO p : 2 ^ Zpos p~0 = 2 ^ Zpos p * 2 ^ Zpos p.
Proof. replace (Zpos p~0) with (Zpos p + Zpos p) by lia. now rewrite Z.pow_add_r by lia. Qed.

Lemma pow2_xI p : 2 ^ Zpos p~1 = 2 * (2 ^ Zpos p * 2 ^ Zpos p).
Proof.
  replace (Zpos p~1) with (1 + (Zpos p + Zpos p)) by lia.
  now rewrite !Z.pow_add_r by lia.
Qed.

(** Shifting a mantissa to the right by [p] bits divides it by [2^p]. *)
Lemma shr_m_iter p :
  forall mrs, 0 <= shr_m mrs -> shr_m (iter_pos shr_1 p mrs) = shr_m mrs / 2 ^ Zpos p.
Proof.
  assert (Hpow : forall q, 0 < 2 ^ Zpos q) by (intros q; apply Z.pow_pos_nonneg; lia).
  induction p as [p IH | p IH |]; intros mrs H; cbn [iter_pos].
  - assert (H1 : 0 <= shr_m (shr_1 mrs)) by (rewrite shr_m_shr_1 by lia; apply Z.div_pos; lia).
    assert (H2 : 0 <= shr_m (iter_pos shr_1 p (shr_1 mrs))).
    { rewrite IH by lia. apply Z.div_pos; [lia | apply Hpow]. }
    rewrite IH, IH, shr_m_shr_1 by assumption.
    pose proof (Hpow p). rewrite !Z.div_div by lia. now rewrite pow2_xI.
  - assert (H2 : 0 <= shr_m (iter_pos shr_1 p mrs)).
    { rewrite IH by lia. apply Z.div_pos; [lia | apply Hpow]. }
    rewrite IH, IH by assumption.
    pose proof (Hpow p). rewrite Z.div_div by lia. now rewrite pow2_xO.
  - now apply shr_m_shr_1.
Qed.

Lemma shr_record_m m l : shr_m (shr_record_of_loc m l) = m.
Proof. now destruct l as [| []]. Qed.

(** At an exponent that is not below the least one, the shift to the
    precision of the format leaves a mantissa that is not zero. *)
Lemma shr_fexp_pos m e l :
  -1074 <= e ->
  0 < shr_m (fst (shr_fexp prec emax (Zpos m) e l))
  /\ -1074 <= snd (shr_fexp prec emax (Zpos m) e l).
Proof.
  intros He. unfold shr_fexp, shr, fexp, Zdigits2, SpecFloat.emin, prec, emax.
  pose proof (digits_bounds m) as [Hlo _].
  destruct (Z.max (Zpos (digits2_pos m) + e - 53) (3 - 1024 - 53) - e) as [| p | p] eqn:En;
    cbn [fst snd]; rewrite ?shr_record_m; try (split; lia).
  rewrite shr_m_iter by (rewrite shr_record_m; lia). rewrite shr_record_m.
  assert (Ep : Zpos (digits2_pos m) - 1 = Zpos p + 52) by lia.
  rewrite Ep, Z.pow_add_r in Hlo by lia. split; [| lia].
  apply Z.lt_le_trans with (2 ^ 52); [reflexivity |].
  apply Z.div_le_lower_bound; [apply Z.pow_pos_nonneg; lia | lia].
Qed.

Lemma round_nearest_even_pos m l : 0 < m -> 0 < round_nearest_even m l.
Proof.
  intros H. destruct l as [| []]; cbn [round_nearest_even]; try lia.
  destruct (Z.even m); lia.
Qed.

Lemma binary_round_aux_sign s m e l :
  -1074 <= e -> Discount64.signedSF s (binary_round_aux prec emax s (Zpos m) e l).
Proof.
  intros He. unfold binary_round_aux.
  pose proof (shr_fexp_pos m e l He) as [H1 H2].
  destruct (shr_fexp prec emax (Zpos m) e l) as [mrs1 e1]. cbn [fst snd] in H1, H2.
  pose proof (round_nearest_even_pos _ (loc_of_shr_record mrs1) H1) as Hr.
  destruct (round_nearest_even (shr_m mrs1) (loc_of_shr_record mrs1)) as [| m2 | m2];
    try lia.
  pose proof (shr_fexp_pos m2 e1 loc_Exact H2) as [H3 _].
  destruct (shr_fexp prec emax (Zpos m2) e1 loc_Exact) as [mrs2 e2]. cbn [fst] in H3.
  destruct (shr_m mrs2) as [| m3 | m3]; try lia.
  now destruct (e2 <=? emax - prec).
Qed.

Lemma binary_round_sign s d e :
  -1074 <= e -> Discount64.signedSF s (binary_round prec emax s d e).
Proof.
  intros He. unfold binary_round.
  destruct (shl_align d e (fexp prec emax (Zpos (digits2_pos d) + e))) as [mz ez] eqn:E.
  apply binary_round_aux_sign. unfold shl_align in E.
  destruct (fexp prec emax (Zpos (digits2_pos d) + e) - e) eqn:En; injection E as _ <-;
    try lia.
  unfold fexp, SpecFloat.emin, prec, emax. lia.
Qed.

(** The exponent and the mantissa of a finite number of the format. *)
Lemma valid_finite s m e :
  SpecFloat.valid_binary prec emax (S754_finite s m e) = true ->
  -1074 <= e /\ Zpos m < 2 ^ 53 /\ (-1074 < e -> 2 ^ 52 <= Zpos m).
Proof.
  unfold SpecFloat.valid_binary, bounded, canonical_mantissa, fexp, SpecFloat.emin, prec, emax.
  intros [H _]%andb_prop. apply Z.eqb_eq in H. pose proof (digits_bounds m) as [Hlo Hhi].
  split; [lia |]. split.
  - eapply Z.lt_le_trans; [exact Hhi |]. apply Z.pow_le_mono_r; lia.
  - intros He. replace (Zpos (digits2_pos m) - 1) with 52 in Hlo by lia. exact Hlo.
Qed.

Lemma shl_align_value m e e' :
  e' <= e -> Zpos (fst (shl_align m e e')) = Zpos m * 2 ^ (e - e').
Proof.
  intros H. unfold shl_align. destruct (e' - e) as [| d | d] eqn:E; cbn [fst].
  - replace (e - e') with 0 by lia. lia.
  - lia.
  - replace (e - e') with (Zpos d) by lia.
    change (Pos.iter xO m d) with (Zpower.shift_pos d m). rewrite Zpower.shift_pos_correct.
    change (Zpow_def.Zpower_pos 2 d) with (2 ^ Zpos d). lia.
Qed.

(** Of two finite numbers of the format, the one with the smaller exponent,
    or with the smaller mantissa at the same exponent, has the smaller
    magnitude. *)
Lemma aligned_lt s1 m1 e1 s2 m2 e2 ez :
  SpecFloat.valid_binary prec emax (S754_finite s1 m1 e1) = true ->
  SpecFloat.valid_binary prec emax (S754_finite s2 m2 e2) = true ->
  ez = Z.min e1 e2 ->
  e1 < e2 \/ (e1 = e2 /\ Zpos m1 < Zpos m2) ->
  Zpos m1 * 2 ^ (e1 - ez) < Zpos m2 * 2 ^ (e2 - ez).
Proof.
  intros (H1 & H1m & _)%valid_finite (H2 & _ & H2m)%valid_finite -> [H | [-> H]].
  - rewrite Z.min_l by lia. replace (e1 - e1) with 0 by lia.
    specialize (H2m ltac:(lia)).
    assert (Hp : 2 ^ 1 <= 2 ^ (e2 - e1)) by (apply Z.pow_le_mono_r; lia).
    change (2 ^ 1) with 2 in Hp. change (2 ^ 0) with 1.
    change (2 ^ 53) with 9007199254740992 in H1m.
    change (2 ^ 52) with 4503599627370496 in H2m. nia.
  - rewrite Z.min_id. replace (e2 - e2) with 0 by lia. lia.
Qed.

Lemma compare_cases (m1 m2 : positive) e1 e2 :
  match e1 ?= e2 with
  | Lt => Lt
  | Gt => Gt
  | Eq => Pos.compare_cont Eq m1 m2
  end = Lt ->
  e1 < e2 \/ (e1 = e2 /\ Zpos m1 < Zpos m2).
Proof.
  destruct (Z.compare_spec e1 e2) as [-> | H | H]; try discriminate; [| now left].
  intros H. right. split; [reflexivity |]. exact H.
Qed.

(** The difference of two numbers of the format, the smaller one taken from
    the larger one, is above zero, and taken the other way it is below: the
    subtraction does not underflow to zero. *)
Lemma SFsub_sign a b :
  SpecFloat.valid_binary prec emax a = true -> SpecFloat.valid_binary prec emax b = true ->
  SFcompare a b = Some Lt ->
  Discount64.signedSF false (SFsub prec emax b a)
  /\ Discount64.signedSF true (SFsub prec emax a b).
Proof.
  destruct a as [[|] | [|] | | sa ma ea], b as [[|] | [|] | | sb mb eb];
    cbn [SFcompare SFsub Discount64.signedSF negb]; try discriminate;
    try (intros; split; reflexivity).
  - intros _ _. now destruct sb.
  - intros _ _. now destruct sb.
  - intros _ _. now destruct sa.
  - intros _ _. now destruct sa.
  - intros Ha Hb [= H].
    pose proof (valid_finite _ _ _ Ha) as (Hea & _).
    pose proof (valid_finite _ _ _ Hb) as (Heb & _).
    rewrite (Z.min_comm ea eb).
    assert (HD : 0 < cond_Zopp sb (Zpos (fst (shl_align mb eb (Z.min eb ea))))
                     - cond_Zopp sa (Zpos (fst (shl_align ma ea (Z.min eb ea))))).
    { rewrite !shl_align_value by lia.
      destruct sa, sb; cbn [cond_Zopp] in *; try discriminate.
      - assert (Hc : match eb ?= ea with
                     | Lt => Lt | Gt => Gt | Eq => Pos.compare_cont Eq mb ma end = Lt).
        { rewrite (Z.compare_antisym ea eb).
          change (Pos.compare_cont Eq mb ma) with (Pos.compare mb ma).
          change (Pos.compare_cont Eq ma mb) with (Pos.compare ma mb) in H.
          rewrite (Pos.compare_antisym ma mb).
          destruct (ea ?= eb); cbn [CompOpp] in *; congruence. }
        apply compare_cases in Hc.
        pose proof (aligned_lt true mb eb true ma ea _ Hb Ha eq_refl Hc). lia.
      - assert (0 < Zpos mb * 2 ^ (eb - Z.min eb ea))
          by (apply Z.mul_pos_pos; [lia | apply Z.pow_pos_nonneg; lia]).
        assert (0 < Zpos ma * 2 ^ (ea - Z.min eb ea))
          by (apply Z.mul_pos_pos; [lia | apply Z.pow_pos_nonneg; lia]).
        lia.
      - apply compare_cases in H.
        pose proof (aligned_lt false ma ea false mb eb _ Ha Hb (Z.min_comm eb ea) H). lia. }
    set (x := cond_Zopp sb (Zpos (fst (shl_align mb eb (Z.min eb ea))))) in *.
    set (y := cond_Zopp sa (Zpos (fst (shl_align ma ea (Z.min eb ea))))) in *.
    split.
    + destruct (x - y) as [| d | d] eqn:E; try lia.
      cbn [binary_normalize]. apply binary_round_sign. lia.
    + destruct (y - x) as [| d | d] eqn:E; try lia.
      cbn [binary_normalize]. apply binary_round_sign. lia.
Qed.

(** Equal numbers leave zero, or nothing at all for two infinities. *)
Lemma SFsub_equal a b :
  SFcompare a b = Some Eq ->
  match SFsub prec emax a b with
  | S754_zero _ | S754_nan => True
  | _ => False
  end.
Proof.
  destruct a as [[|] | [|] | | sa ma ea], b as [[|] | [|] | | sb mb eb];
    cbn [SFcompare SFsub]; try discriminate; try (intros; exact I);
    try (destruct sb; discriminate); try (destruct sa; discriminate).
  intros [= H].
  assert (E : sa = sb /\ ea = eb /\ ma = mb).
  { change (Pos.compare_cont Eq ma mb) with (Pos.compare ma mb) in H.
    destruct sa, sb; try discriminate;
      destruct (Z.compare_spec ea eb) as [-> | ? | ?]; try discriminate;
      destruct (Pos.compare_spec ma mb) as [-> | ? | ?]; try discriminate; auto. }
  destruct E as (-> & -> & ->). now rewrite Z.sub_diag.
Qed.

(** [c < o] makes [o - c > 0], as computed. *)
Lemma sub_lower_positive (c o : float) :
  (c <? o)%float = true -> Binary64.gtb (o - c) 0 = true.
Proof.
  intros H. apply positive_spec. rewrite sub_spec.
  rewrite ltb_spec in H. unfold SFltb in H.
  destruct (SFcompare (Prim2SF c) (Prim2SF o)) as [[| |] |] eqn:E; try discriminate.
  exact (proj1 (SFsub_sign _ _ (Prim2SF_valid c) (Prim2SF_valid o) E)).
Qed.

(** [c >= o] makes [o - c > 0] false. *)
Lemma sub_higher_not_positive (c o : float) :
  Binary64.geb c o = true -> Binary64.gtb (o - c) 0 = false.
Proof.
  intros H. apply Bool.not_true_iff_false. rewrite positive_spec, sub_spec.
  unfold Binary64.geb in H. rewrite leb_spec in H. unfold SFleb in H.
  destruct (SFcompare (Prim2SF o) (Prim2SF c)) as [[| |] |] eqn:E; try discriminate.
  - pose proof (SFsub_equal _ _ E) as Hz. unfold SF64sub.
    now destruct (SFsub prec emax (Prim2SF o) (Prim2SF c)).
  - pose proof (proj2 (SFsub_sign _ _ (Prim2SF_valid o) (Prim2SF_valid c) E)) as Hn.
    unfold SF64sub.
    destruct (SFsub prec emax (Prim2SF o) (Prim2SF c)) as [| | | s m e];
      cbn [Discount64.signedSF] in *; congruence.
Qed.

(** *** Equal prices *)

(** A finite number less itself is zero. *)
Lemma sub_self (o : float) : is_finite o = true -> (o - o)%float = 0%float.
Proof.
  rewrite is_finite_spec. intros H. apply Prim2SF_inj. rewrite sub_spec.
  change (Prim2SF 0) with (S754_zero false). unfold SF64sub.
  destruct (Prim2SF o) as [[|] | [|] | | s m e]; try discriminate; try reflexivity.
  cbn [SFsub]. now rewrite Z.sub_diag.
Qed.

(** Zero percent of anything finite but zero is zero, of either sign. *)
Lemma zero_percent (o : float) :
  is_finite o = true -> Binary64.truthy o = true ->
  (0 / o * 100)%float = 0%float \/ (0 / o * 100)%float = neg_zero.
Proof.
  rewrite is_finite_spec, truthy_spec. intros Hf Ht.
  assert (E : (0 / o)%float = 0%float \/ (0 / o)%float = neg_zero).
  { destruct (Prim2SF o) as [[|] | [|] | | s m e] eqn:Eo; try discriminate.
    destruct s; [right | left]; apply Prim2SF_inj; rewrite div_spec, Eo; reflexivity. }
  destruct E as [-> | ->]; [left | right]; reflexivity.
Qed.

Close Scope Z_scope.

End Binary64Facts.

Section DiscountCases.

Import PrimFloat.

(** C2 (as amended). Numbers are binary64 numbers and every operation rounds
    as the platform does.  In the browser script, [computeDiscount] returns
    (false, null, null) when either price is absent, (false, 0, 0) when both
    are present and current >= original, and for current < original the flag
    true with the percentage (original - current) / original * 100 and the
    amount original - current, each rounded to two decimals.  In the two API
    scripts the discount fields of a deal record are (false, 0, 0) when either
    price is absent or zero, and for two prices other than zero they are the
    same rounded percentage and amount, with the flag true for
    current < original and false for current >= original; for two equal
    finite prices that is (false, 0, 0). *)
Theorem discount_cases :
  (forall original current,
      original = None \/ current = None ->
      Binary64.computeDiscount original current = Binary64.mkDiscount false None None)
  /\ (forall o c,
        Binary64.geb c o = true ->
        Binary64.computeDiscount (Some o) (Some c)
        = Binary64.mkDiscount false (Some 0%float) (Some 0%float))
  /\ (forall o c,
        (c <? o)%float = true ->
        Binary64.computeDiscount (Some o) (Some c)
        = Binary64.mkDiscount true (Some (Discount64.round2 (Discount64.percentOff o c)))
                              (Some (Discount64.round2 (o - c)%float)))
  /\ (forall original current,
        original = None \/ current = None ->
        Binary64.apiDiscount original current
        = Binary64.mkDiscount false (Some 0%float) (Some 0%float))
  /\ (forall o c,
        Binary64.truthy o = false \/ Binary64.truthy c = false ->
        Binary64.apiDiscount (Some o) (Some c)
        = Binary64.mkDiscount false (Some 0%float) (Some 0%float))
  /\ (forall o c,
        Binary64.truthy o = true -> Binary64.truthy c = true ->
        (c <? o)%float = true ->
        Binary64.apiDiscount (Some o) (Some c)
        = Binary64.mkDiscount true (Some (Discount64.round2 (Discount64.percentOff o c)))
                              (Some (Discount64.round2 (o - c)%float)))
  /\ (forall o c,
        Binary64.truthy o = true -> Binary64.truthy c = true ->
        Binary64.geb c o = true ->
        Binary64.apiDiscount (Some o) (Some c)
        = Binary64.mkDiscount false (Some (Discount64.round2 (Discount64.percentOff o c)))
                              (Some (Discount64.round2 (o - c)%float)))
  /\ (forall o,
        is_finite o = true ->
        Binary64.apiDiscount (Some o) (Some o)
        = Binary64.mkDiscount false (Some 0%float) (Some 0%float)).
Proof.
  split; [| split; [| split; [| split; [| split; [| split; [| split]]]]]].
  - intros original current [-> | ->]; [reflexivity | now destruct original].
  - intros o c H. unfold Binary64.computeDiscount. now rewrite H.
  - intros o c H. unfold Binary64.computeDiscount. now rewrite (ltb_not_leb c o H).
  - intros original current H.
    unfold Binary64.apiDiscount, Binary64.pctOf, Binary64.discountAmtOf.
    replace (Binary64.bothTruthy original current) with false; [reflexivity |].
    destruct H as [-> | ->]; [reflexivity | now destruct original].
  - intros o c H.
    unfold Binary64.apiDiscount, Binary64.pctOf, Binary64.discountAmtOf, Binary64.bothTruthy.
    replace (Binary64.truthy o && Binary64.truthy c)%bool with false; [reflexivity |].
    destruct H as [-> | ->]; [reflexivity | now rewrite Bool.andb_false_r].
  - intros o c Ho Hc Hlt.
    unfold Binary64.apiDiscount, Binary64.pctOf, Binary64.discountAmtOf, Binary64.bothTruthy.
    rewrite Ho, Hc. cbn [andb Binary64.numberOf Binary64.fmtUsd].
    now rewrite (sub_lower_positive c o Hlt).
  - intros o c Ho Hc Hge.
    unfold Binary64.apiDiscount, Binary64.pctOf, Binary64.discountAmtOf, Binary64.bothTruthy.
    rewrite Ho, Hc. cbn [andb Binary64.numberOf Binary64.fmtUsd].
    now rewrite (sub_higher_not_positive c o Hge).
  - intros o Hf.
    unfold Binary64.apiDiscount, Binary64.pctOf, Binary64.discountAmtOf, Binary64.bothTruthy.
    destruct (Binary64.truthy o) eqn:Ht; cbn [andb Binary64.numberOf]; [| reflexivity].
    rewrite (sub_self o Hf).
    destruct (zero_percent o Hf Ht) as [-> | ->]; reflexivity.
Qed.

Lemma discount_cases_witness :
  (19799 <? 20000)%float = true
  /\ Binary64.computeDiscount (Some 20000%float) (Some 19799%float)
     = Binary64.mkDiscount true (Some 1%float) (Some 201%float).
Proof.
  split; [reflexivity |].
  exact (proj1 (proj2 (proj2 discount_cases)) 20000%float 19799%float eq_refl).
Defined.

(** C2 as stated fails in the API scripts.  For an item without prices the
    record carries the percentage 0 and the amount 0, not null.  A current
    price above the original one gives a negative percentage and a negative
    amount, not 0.  A current price of 0 counts as absent: the record shows no
    discount, not one of 100 percent. *)
Lemma discount_counterexample :
  let row := dealRow (summarizePA (mkPaItem (Some "B000111222") (Some "Widget")
                                            None None None) None) in
  (Original row = None /\ Current row = None
   /\ discountOf row = mkDiscount false (Some (Fin 0)) (Some (Fin 0))
   /\ discountOf row <> mkDiscount false None None)
  /\ Binary64.apiDiscount None None <> Binary64.mkDiscount false None None
  /\ ((10 <=? 15)%float = true
      /\ Binary64.apiDiscount (Some 10%float) (Some 15%float)
         = Binary64.mkDiscount false (Some (-50)%float) (Some (-5)%float))
  /\ ((0 <? 20)%float = true
      /\ Binary64.apiDiscount (Some 20%float) (Some 0%float)
         = Binary64.mkDiscount false (Some 0%float) (Some 0%float)).
Proof. cbv zeta. repeat split; discriminate. Qed.

End DiscountCases.

(** ** The manual-check flag *)

Lemma isPositivePrice_orNull v : isPositivePrice (orNull v) = isPositiveFinite v.
Proof. now destruct v. Qed.

Lemma present_orElse_None o : present (orElse o None) = false <-> orElse o None = None.
Proof.
  destruct o as [s |]; simpl; [| now split].
  destruct (Str.truthy s) eqn:E; simpl; [rewrite E |]; now split.
Qed.

Lemma screenshotPath_present dir found asin index :
  present (screenshotPath dir found asin index) = false
  <-> screenshotPath dir found asin index = None.
Proof.
  unfold screenshotPath. destruct found; [| now split].
  split; [| discriminate]. now destruct dir.
Qed.

Lemma is_Some_bool_false {A} (o : option A) : is_Some_bool o = false <-> o = None.
Proof. destruct o; now split. Qed.

Section ScraperFlag.

Variable AFFILIATE_TAG : string.
Variable screenshotDir : string.
Variable render : nat -> string -> outcome pageData.

Lemma scrape_flag url index d :
  scrapeAmazonProduct AFFILIATE_TAG screenshotDir render url index = Ret d ->
  NeedCheckManually d = true
  <-> Title d = None \/ Image d = None \/ Original d = None \/ Current d = None
      \/ ASIN d = None.
Proof.
  unfold scrapeAmazonProduct. destruct (render index url) as [page |]; [| discriminate].
  cbn [bind]. intros [= <-]. cbn [NeedCheckManually Title Image Original Current ASIN].
  rewrite !Bool.orb_true_iff, !Bool.negb_true_iff.
  rewrite present_orElse_None, screenshotPath_present, !is_Some_bool_false.
  tauto.
Qed.

End ScraperFlag.

(** C3 (as amended). In the browser script the record of a scraped page has
    the flag set exactly when the title, the image, the original price, the
    current price or the identifier is absent, and a pass-through record has
    the flag set and no title.  In the two API scripts the flag depends on the
    prices alone: it is set exactly when the provider's current price or its
    original (list) price is not a finite positive number. *)
Theorem manual_check_flag :
  (forall tag dir render url index d,
      scrapeAmazonProduct tag dir render url index = Ret d ->
      NeedCheckManually d = true
      <-> Title d = None \/ Image d = None \/ Original d = None \/ Current d = None
          \/ ASIN d = None)
  /\ (forall asin url,
        NeedCheckManually (passThrough asin url) = true
        /\ Title (passThrough asin url) = None)
  /\ (forall item link,
        NeedCheckManually (dealRow (summarizePA item link))
        = negb (isPositiveFinite (listingField priceAmount (pa_listing item))
                && isPositiveFinite (listingField savingBasisAmount (pa_listing item))))
  /\ (forall tag domain product link,
        NeedCheckManually (dealRow (summarizeKeepa tag domain product link))
        = negb (isPositiveFinite (statsField ks_current (kp_stats product) 0)
                && isPositiveFinite (statsField ks_current (kp_stats product) 4))).
Proof.
  split; [| split; [| split]].
  - intros tag dir render url index d. apply scrape_flag.
  - intros asin url. split; reflexivity.
  - intros item link. cbn [dealRow summarizePA NeedCheckManually s_needCheckManually].
    rewrite !isPositivePrice_orNull. now rewrite Bool.negb_andb.
  - intros tag domain product link.
    cbn [dealRow summarizeKeepa NeedCheckManually s_needCheckManually].
    now rewrite Bool.negb_andb.
Qed.

Lemma manual_check_flag_witness :
  let d := mkDeal (Some "B000111222") (Some "Widget")
                  (Some "https://www.amazon.com/dp/B000111222")
                  (Some (Fin 20)) (Some (Fin 15)) None true true
                  (Some (Fin 25)) (Some (Fin 5))
                  (Some "https://www.amazon.com/dp/B000111222") in
  scrapeAmazonProduct "" "shots"
    (fun _ _ => Ret (mkPageData (Some "Widget") (Some "$15.00") (Some "$20.00") false))
    "https://www.amazon.com/dp/B000111222" 0 = Ret d
  /\ (NeedCheckManually d = true
      <-> Title d = None \/ Image d = None \/ Original d = None \/ Current d = None
          \/ ASIN d = None).
Proof.
  cbv zeta. split; [vm_compute; reflexivity |].
  apply (proj1 manual_check_flag "" "shots"
           (fun _ _ => Ret (mkPageData (Some "Widget") (Some "$15.00") (Some "$20.00") false))
           "https://www.amazon.com/dp/B000111222" 0).
  vm_compute; reflexivity.
Defined.

(** C3 as stated fails in the API scripts: an item with both prices and no
    image is not flagged. *)
Lemma manual_check_counterexample :
  let row := dealRow (summarizePA
                        (mkPaItem (Some "B000111222") (Some "Widget")
                                  (Some (mkPaListing (VNum (Fin 15)) (VNum (Fin 20))))
                                  None None) None) in
  Image row = None /\ NeedCheckManually row = false.
Proof. cbv zeta. split; reflexivity. Qed.

(** ** The original price of a Keepa product *)

Lemma keepaToUSD_coalesce_null avg :
  keepaToUSD (coalesce avg VNull) = keepaToUSD avg.
Proof. now destruct avg. Qed.

(** C10. When the list price [stats.current[4]] of a Keepa product is absent,
    the original price is the 90-day average [stats.avg90[0]] converted from
    minor units (divided by 100 and rounded to two decimals when it is a
    finite positive number, absent otherwise), and the record is flagged for
    a manual check all the same. *)
Theorem keepa_original_fallback tag domain (product : keepaProduct) (link : option string) :
  let o := statsField ks_current (kp_stats product) 4 in
  let avg := statsField ks_avg90 (kp_stats product) 0 in
  let s := summarizeKeepa tag domain product link in
  o = VUndefined \/ o = VNull ->
  s_original s = keepaToUSD avg
  /\ (forall q, avg = VNum (Fin q) -> (0 < q)%Q ->
      s_original s = Some (round2 (Num.div (Fin q) (Num.ofZ 100))))
  /\ s_needCheckManually s = true
  /\ NeedCheckManually (dealRow s) = true.
Proof.
  cbv zeta. intros Ho.
  assert (Horig : s_original (summarizeKeepa tag domain product link)
                  = keepaToUSD (statsField ks_avg90 (kp_stats product) 0)).
  { cbn [summarizeKeepa s_original].
    destruct Ho as [-> | ->]; cbn [coalesce]; apply keepaToUSD_coalesce_null. }
  repeat apply conj.
  - exact Horig.
  - intros q Hq Hpos. rewrite Horig, Hq. cbn [keepaToUSD Num.isFinite negb orb Num.leb].
    replace (Qle_bool q 0) with false; [reflexivity |].
    symmetry. apply Bool.not_true_iff_false. rewrite Qle_bool_iff.
    now apply Qlt_not_le.
  - cbn [summarizeKeepa s_needCheckManually].
    destruct Ho as [-> | ->]; cbn [isPositiveFinite negb]; apply Bool.orb_true_r.
  - cbn [dealRow NeedCheckManually summarizeKeepa s_needCheckManually].
    destruct Ho as [-> | ->]; cbn [isPositiveFinite negb]; apply Bool.orb_true_r.
Qed.

Lemma keepa_original_fallback_witness :
  let product := mkKeepaProduct (Some "B000111222") (Some "Widget")
                   (Some (mkKeepaStats [VNum (Fin 1999); VNull; VNull; VNull; VNull]
                                       [VNum (Fin 2499)]))
                   [] in
  (statsField ks_current (kp_stats product) 4 = VUndefined
   \/ statsField ks_current (kp_stats product) 4 = VNull)
  /\ s_original (summarizeKeepa "" "www.amazon.com" product None) = Some (Fin 24.99)
  /\ s_needCheckManually (summarizeKeepa "" "www.amazon.com" product None) = true.
Proof.
  cbv zeta. split; [right; reflexivity |].
  pose proof (keepa_original_fallback "" "www.amazon.com"
                (mkKeepaProduct (Some "B000111222") (Some "Widget")
                   (Some (mkKeepaStats [VNum (Fin 1999); VNull; VNull; VNull; VNull]
                                       [VNum (Fin 2499)]))
                   []) None (or_intror eq_refl)) as (H1 & _ & H2 & _).
  split; [exact H1 | exact H2].
Defined.

(** ** Price normalizer *)

Section CleaningFacts.

Implicit Types (p q : ascii -> bool) (s t : string).

(** Deleting every match of a one-character class is filtering. *)
Lemma deleteAllFrom_class p i s :
  Re.deleteAllFrom (Re.Chr p) 0 i s = Str.filter (fun c => negb (p c)) s.
Proof.
  revert i. induction s as [| c s IH]; intros i; [reflexivity |].
  cbn [Re.deleteAllFrom Str.filter]. unfold Re.matchLen. cbn [Re.run].
  destruct (p c); cbn [negb].
  - replace (S i - i) with 1 by lia. apply IH.
  - now rewrite IH.
Qed.

Lemma filter_filter p q s :
  Str.filter p (Str.filter q s) = Str.filter (fun c => (q c && p c)%bool) s.
Proof.
  induction s as [| c s IH]; [reflexivity |]. cbn [Str.filter].
  destruct (q c); cbn [andb Str.filter]; [| exact IH].
  destruct (p c); now rewrite IH.
Qed.

Lemma filter_ext p q s : (forall c, p c = q c) -> Str.filter p s = Str.filter q s.
Proof.
  intros H. induction s as [| c s IH]; [reflexivity |]. cbn [Str.filter].
  now rewrite H, IH.
Qed.

Lemma filter_none c s :
  Str.count (Ascii.eqb c) s = 0 -> Str.filter (fun d => negb (Ascii.eqb c d)) s = s.
Proof.
  induction s as [| d s IH]; [reflexivity |]. cbn [Str.count Str.filter].
  destruct (Ascii.eqb c d); cbn [negb]; [discriminate |].
  intros H. now rewrite IH.
Qed.

(** Removing the first occurrence removes them all when there is at most
    one. *)
Lemma removeFirst_filter c s :
  Str.count (Ascii.eqb c) s <= 1 ->
  Str.removeFirst c s = Str.filter (fun d => negb (Ascii.eqb c d)) s.
Proof.
  induction s as [| d s IH]; [reflexivity |]. cbn [Str.count Str.removeFirst Str.filter].
  destruct (Ascii.eqb c d); cbn [negb]; intros H.
  - symmetry. apply filter_none. lia.
  - now rewrite IH.
Qed.

Lemma count_filter p c s :
  p c = true -> Str.count (Ascii.eqb c) (Str.filter p s) = Str.count (Ascii.eqb c) s.
Proof.
  intros Hc. induction s as [| d s IH]; [reflexivity |]. cbn [Str.count Str.filter].
  destruct (p d) eqn:Hd; cbn [Str.count]; [now rewrite IH |].
  destruct (Ascii.eqb_spec c d) as [-> |]; [congruence | exact IH].
Qed.

Lemma cleaned_digitsAndDots t :
  Str.count (Ascii.eqb ",") t <= 1 ->
  Str.removeFirst "," (Re.deleteAll Patterns.notPriceChar t) = digitsAndDots t.
Proof.
  intros H. unfold Re.deleteAll, Patterns.notPriceChar, digitsAndDots.
  rewrite deleteAllFrom_class, removeFirst_filter.
  - rewrite filter_filter. apply filter_ext. intros c.
    rewrite Bool.negb_involutive.
    destruct (Ascii.eqb_spec "," c) as [<- |]; [reflexivity |].
    destruct (Ascii.eqb_spec c ",") as [-> |]; [congruence |].
    cbn [negb]. now rewrite Bool.orb_false_r, Bool.andb_true_r.
  - rewrite count_filter; [exact H | reflexivity].
Qed.

End CleaningFacts.

(** C5 (as amended). A price text with at most one comma is normalized as
    follows: an absent or empty text gives absent; otherwise every character
    except digits and [.] is dropped, the remainder is parsed as a decimal,
    and the value parsed is returned as it is, without rounding, or absent
    when it is not finite. *)
Theorem parsePriceText_cleaned (t : string) :
  Str.count (Ascii.eqb ",") t <= 1 ->
  parsePriceText None = None
  /\ parsePriceText (Some t)
     = if Str.truthy t
       then (if Num.isFinite (parseFloat (digitsAndDots t))
             then Some (parseFloat (digitsAndDots t))
             else None)
       else None.
Proof.
  intros H. split; [reflexivity |]. unfold parsePriceText.
  destruct (Str.truthy t); cbn [negb]; [| reflexivity].
  now rewrite cleaned_digitsAndDots.
Qed.

Lemma parsePriceText_cleaned_witness :
  Str.count (Ascii.eqb ",") "$1,234.56" <= 1
  /\ parsePriceText (Some "$1,234.56") = Some (Fin (30864 # 25)).
Proof.
  assert (H : Str.count (Ascii.eqb ",") "$1,234.56" <= 1) by (vm_compute; lia).
  split; [exact H |].
  exact (proj2 (parsePriceText_cleaned "$1,234.56" H)).
Defined.

(** C5 as stated fails: a value with three decimals is returned with three
    decimals, and of several commas only the first is removed. *)
Lemma parsePriceText_counterexample :
  (parsePriceText (Some "$12.345") = Some (Fin (2469 # 200))
   /\ round2 (Fin (2469 # 200)) = Fin (247 # 20))
  /\ (parsePriceText (Some "$1,234,567.89") = Some (Fin 1234)
      /\ parseFloat (digitsAndDots "$1,234,567.89") = Fin (123456789 # 100)).
Proof. repeat split; vm_compute; reflexivity. Qed.

(** ** The loop of the browser script *)

Section ScraperFacts.

Variable URL_new : string -> outcome URL.
Variable AFFILIATE_TAG : string.
Variable screenshotDir : string.
Variable render : nat -> string -> outcome pageData.
Variable pause : nat -> outcome unit.

Lemma insertDeal_length d sorted : length (insertDeal d sorted) = S (length sorted).
Proof.
  induction sorted as [| e rest IH]; [reflexivity |]. cbn [insertDeal].
  destruct (Num.ltb (sortKey d) (sortKey e)); cbn [length]; congruence.
Qed.

Lemma sortDeals_length deals : length (sortDeals deals) = length deals.
Proof.
  induction deals as [| d deals IH]; [reflexivity |].
  cbn [sortDeals fold_right]. fold (sortDeals deals).
  now rewrite insertDeal_length, IH.
Qed.

Lemma readUrls_length txt : length (readUrls txt) = nonBlankLines txt.
Proof.
  unfold readUrls, nonBlankLines.
  induction (splitLines txt) as [| l ls IH]; [reflexivity |].
  change (map trim (l :: ls)) with (trim l :: map trim ls).
  cbn [List.filter]. destruct (trim l) as [| c t].
  - exact IH.
  - exact (f_equal S IH).
Qed.

(** Every iteration adds at least one record. *)
Lemma visit_grows url i deals :
  S (length deals)
  <= length (visit URL_new AFFILIATE_TAG screenshotDir render pause url i deals).
Proof.
  unfold visit, tryVisit. destruct (URL_new url) as [u |].
  - destruct (negb (includes "amazon." (hostname u))).
    + rewrite length_app. simpl. lia.
    + destruct (scrapeAmazonProduct _ _ _ url i) as [d |].
      * destruct (pause i); rewrite ?length_app; simpl; lia.
      * rewrite length_app. simpl. lia.
  - rewrite length_app. simpl. lia.
Qed.

(** It adds exactly one when the pause after a scraped page completes. *)
Lemma visit_one url i deals :
  pause i = Ret tt ->
  length (visit URL_new AFFILIATE_TAG screenshotDir render pause url i deals)
  = S (length deals).
Proof.
  intros Hp. unfold visit, tryVisit. rewrite Hp. destruct (URL_new url) as [u |].
  - destruct (negb (includes "amazon." (hostname u))).
    + rewrite length_app. simpl. lia.
    + destruct (scrapeAmazonProduct _ _ _ url i) as [d |]; rewrite length_app; simpl; lia.
  - rewrite length_app. simpl. lia.
Qed.

Lemma visitFrom_grows urls :
  forall i deals,
  length deals + length urls
  <= length (visitFrom URL_new AFFILIATE_TAG screenshotDir render pause i urls deals).
Proof.
  induction urls as [| url urls IH]; intros i deals; cbn [visitFrom length]; [lia |].
  specialize (IH (S i) (visit URL_new AFFILIATE_TAG screenshotDir render pause url i deals)).
  pose proof (visit_grows url i deals). lia.
Qed.

Lemma visitFrom_length urls :
  (forall i, pause i = Ret tt) ->
  forall i deals,
  length (visitFrom URL_new AFFILIATE_TAG screenshotDir render pause i urls deals)
  = length deals + length urls.
Proof.
  intros Hp. induction urls as [| url urls IH]; intros i deals; cbn [visitFrom length]; [lia |].
  rewrite IH, visit_one by apply Hp. lia.
Qed.

(** No line is dropped: the output has at least one record per non-blank
    line. *)
Lemma scrapeAll_covers txt :
  nonBlankLines txt
  <= length (scrapeAll URL_new AFFILIATE_TAG screenshotDir render pause txt).
Proof.
  unfold scrapeAll. rewrite sortDeals_length, <- readUrls_length.
  apply (visitFrom_grows (readUrls txt) 0 []).
Qed.

(** One record per non-blank line, as long as no pause between pages
    fails. *)
Lemma scrapeAll_length txt :
  (forall i, pause i = Ret tt) ->
  length (scrapeAll URL_new AFFILIATE_TAG screenshotDir render pause txt)
  = nonBlankLines txt.
Proof.
  intros Hp. unfold scrapeAll.
  now rewrite sortDeals_length, visitFrom_length, readUrls_length.
Qed.

End ScraperFacts.

(** C9 at an input on which it fails.  The page of the only line is scraped
    and its record pushed; the pause that follows fails (the browser window
    was closed meanwhile); the handler pushes a pass-through record for the
    same line.  The output holds two records for one line. *)
Theorem scrapeAll_double_record :
  let txt := "https://www.amazon.com/dp/B000111222" in
  let out := scrapeAll PlainURL.parse "" "shots"
               (fun _ _ => Ret (mkPageData (Some "Widget") (Some "$15.00")
                                           (Some "$20.00") true))
               (fun _ => Throw) txt in
  nonBlankLines txt = 1
  /\ length out = 2
  /\ map Link out = [Some txt; Some txt]
  /\ map NeedCheckManually out = [false; true].
Proof. cbv zeta. repeat split; vm_compute; reflexivity. Qed.

(** ** The scripts at work *)

Section Scenarios.

Let shop (p : string) : string := "https://www.amazon.com" +:+ p.

Example extract_dp :
  extractASIN PlainURL.parse (shop "/Some-Widget/dp/b000111222/ref=sr_1_1?tag=x")
  = Ret (Some "B000111222").
Proof. reflexivity. Qed.

Example extract_offer_listing :
  extractASIN PlainURL.parse (shop "/gp/offer-listing/B000111222")
  = Ret (Some "B000111222").
Proof. reflexivity. Qed.

Example extract_bare_segment :
  extractASIN PlainURL.parse (shop "/widgets/B000111222?ref=x") = Ret (Some "B000111222").
Proof. reflexivity. Qed.

Example extract_query :
  extractASIN PlainURL.parse (shop "/view?ASIN=b000111222") = Ret (Some "B000111222").
Proof. reflexivity. Qed.

Example extract_unparsed :
  extractASIN PlainURL.parse "www.amazon.com/gp/aw/d/B000111222"
  = Ret (Some "B000111222").
Proof. reflexivity. Qed.

Example extract_nothing :
  extractASIN PlainURL.parse (shop "/stores/page/12345") = Ret None.
Proof. reflexivity. Qed.

(** An identifier repeated on lines 3 and 7. *)
Example dedupe_lines_3_and_7 :
  match dedupe PlainURL.parse
          [shop "/dp/B000000001"; shop "/dp/B000000002"; shop "/dp/B000000003";
           shop "/dp/B000000004"; shop "/dp/B000000005"; shop "/dp/B000000006";
           shop "/gp/product/b000000003"] with
  | Ret r =>
      asins r = ["B000000001"; "B000000002"; "B000000003"; "B000000004";
                 "B000000005"; "B000000006"]
      /\ duplicates r = [mkDuplicate "B000000003" 3 7]
      /\ asinSeen r !! "B000000003" = Some 3
      /\ asinToLink r !! "B000000003" = Some (shop "/dp/B000000003")
  | Throw => False
  end.
Proof. vm_compute. repeat split. Qed.

(** Two references to one product and a third product: one batch of two. *)
Example dedupe_then_chunk :
  match dedupe PlainURL.parse
          [shop "/dp/B000111222"; shop "/dp/B000111222"; shop "/dp/B000999888?tag=x"] with
  | Ret r =>
      chunk (asins r) 10 = [["B000111222"; "B000999888"]]
      /\ duplicates r = [mkDuplicate "B000111222" 1 2]
  | Throw => False
  end.
Proof. vm_compute. repeat split. Qed.

Example chunk_seven_by_three :
  chunk [1; 2; 3; 4; 5; 6; 7] 3 = [[1; 2; 3]; [4; 5; 6]; [7]].
Proof. reflexivity. Qed.

(** The sort is stable and reads an absent percentage as 0. *)
Example sort_percentages :
  map DiscountPct
      (sortDeals (map (fun p => mkDeal None None None None None None true false p None None)
                      [None; Some (Fin 50); Some (Fin 10); Some (Fin 0)]))
  = [Some (Fin 50); Some (Fin 10); None; Some (Fin 0)].
Proof. reflexivity. Qed.

Example timestamp_of_a_date :
  SigV4.amzDateOf (mkDate 2024 3 5 14 7 9 123) = "20240305T140709Z".
Proof. reflexivity. Qed.

Example keepa_price : keepaToUSD (VNum (Fin 1999)) = Some (Fin 19.99).
Proof. reflexivity. Qed.

Example keepa_no_price : keepaToUSD (VNum (Fin (-1))) = None.
Proof. reflexivity. Qed.

(** A page without a strike-through price: the current price stands in for
    the original one, and there is no discount. *)
Example scrape_without_original :
  scrapeAmazonProduct "" "shots"
    (fun _ _ => Ret (mkPageData (Some "Widget") (Some "$15.00") None true))
    (shop "/dp/B000111222") 0
  = Ret (mkDeal (Some "B000111222") (Some "Widget") (Some (shop "/dp/B000111222"))
                (Some (Fin 15)) (Some (Fin 15)) (Some "shots/1-B000111222.png")
                false false (Some (Fin 0)) (Some (Fin 0))
                (Some (shop "/dp/B000111222"))).
Proof. reflexivity. Qed.

End Scenarios.

(* ===================================================================== *)
(** * Part III: further properties of the scripts                         *)
(* ===================================================================== *)

(** ** The shape of the batches *)

Lemma ceilDiv_above n size i :
  0 < size -> S i < ceilDiv n size -> S i * size < n.
Proof.
  intros Hs Hi. unfold ceilDiv in Hi.
  pose proof (Nat.Div0.mul_div_le (n + size - 1) size) as H.
  assert (S (S i) * size <= size * ((n + size - 1) / size)) by nia.
  nia.
Qed.

(** X1. For a positive batch size, [chunk] makes ceil(N / size) batches, none
    of them empty, and every batch but the last holds exactly [size]
    elements. *)
Theorem chunk_batches {A} (arr : list A) (size : nat) :
  0 < size ->
  length (chunk arr size) = ceilDiv (length arr) size
  /\ Forall (fun b => b <> []) (chunk arr size)
  /\ (forall i b, S i < length (chunk arr size) ->
                  chunk arr size !! i = Some b -> length b = size).
Proof.
  intros Hs. split; [| split].
  - unfold chunk. now rewrite length_map, length_seq.
  - now apply chunk_nonempty.
  - intros i b Hi Hb. unfold chunk in Hi, Hb. rewrite length_map, length_seq in Hi.
    rewrite list_lookup_fmap in Hb.
    destruct (seq 0 (ceilDiv (length arr) size) !! i) as [j |] eqn:Hj; [| discriminate].
    apply lookup_seq in Hj as [-> _]. simpl in Hb. injection Hb as <-.
    unfold slice. rewrite length_take, length_drop.
    pose proof (ceilDiv_above _ _ _ Hs Hi). nia.
Qed.

Lemma chunk_batches_witness :
  0 < 3 /\ length (chunk [1; 2; 3; 4; 5; 6; 7] 3) = 3.
Proof.
  split; [lia |]. exact (proj1 (chunk_batches [1; 2; 3; 4; 5; 6; 7] 3 ltac:(lia))).
Defined.

(** ** The index ranges of the output files *)

Section RangeFacts.

Context {A : Type}.

Lemma batchRanges_chunk (size : nat) :
  0 < size ->
  forall (arr : list A) p i range,
    batchRanges p (chunk arr size) !! i = Some range ->
    range = (p + i * size + 1, p + Nat.min ((i + 1) * size) (length arr)).
Proof.
  intros Hs arr. pattern arr. apply (chunk_ind_length _ size Hs); clear arr.
  - intros p i range. rewrite chunk_nil by assumption. discriminate.
  - intros arr Hne IH p i range. rewrite chunk_unfold by assumption.
    cbn [batchRanges]. rewrite length_take. destruct i as [| j]; simpl lookup.
    + intros [= <-]. f_equal; lia.
    + intros Hj.
      assert (Hrest : drop size arr <> []).
      { intros E. rewrite E, chunk_nil in Hj by assumption. discriminate. }
      assert (Hlen : size < length arr).
      { destruct (Nat.le_gt_cases (length arr) size) as [Hle |]; [| assumption].
        exfalso. apply Hrest. now apply drop_ge. }
      apply IH in Hj. rewrite length_drop in Hj. subst range. f_equal; lia.
Qed.

End RangeFacts.

Section FileNameFacts.

Implicit Types (s t : string).

Lemma string_of_uint_digits d : Str.all Str.isDigit (NilEmpty.string_of_uint d) = true.
Proof. induction d; simpl; auto. Qed.

Lemma showNat_digits n : Str.all Str.isDigit (showNat n) = true.
Proof. apply string_of_uint_digits. Qed.

Lemma showNat_inj n m : showNat n = showNat m -> n = m.
Proof.
  unfold showNat. intros H. apply DecimalNat.Unsigned.to_uint_inj.
  pose proof (NilEmpty.usu (Nat.to_uint n)) as Hn.
  pose proof (NilEmpty.usu (Nat.to_uint m)) as Hm.
  rewrite H in Hn. congruence.
Qed.

(** Two numerals followed by a character that is no digit are equal when
    the strings are. *)
Lemma digits_then_mark s1 s2 (c : ascii) t1 t2 :
  Str.all Str.isDigit s1 = true -> Str.all Str.isDigit s2 = true ->
  Str.isDigit c = false ->
  s1 +:+ String c t1 = s2 +:+ String c t2 -> s1 = s2 /\ t1 = t2.
Proof.
  revert s2. induction s1 as [| a s1 IH]; intros [| b s2] H1 H2 Hc E.
  - injection E as ->. now split.
  - injection E as -> _. simpl in H2. now rewrite Hc in H2.
  - injection E as -> _. simpl in H1. now rewrite Hc in H1.
  - injection E as -> E. simpl in H1, H2.
    apply andb_prop in H1 as [_ H1]. apply andb_prop in H2 as [_ H2].
    destruct (IH s2 H1 H2 Hc E) as [-> ->]. now split.
Qed.

Lemma outFileName_inj base (r1 r2 : nat * nat) :
  outFileName base r1 = outFileName base r2 -> r1 = r2.
Proof.
  unfold outFileName. intros E. apply String.app_inj in E.
  apply digits_then_mark in E as [E1 E2];
    [| apply showNat_digits | apply showNat_digits | reflexivity].
  apply digits_then_mark in E2 as [E2 _];
    [| apply showNat_digits | apply showNat_digits | reflexivity].
  apply showNat_inj in E1, E2. destruct r1, r2; simpl in *; congruence.
Qed.

End FileNameFacts.

(** X2. For a positive batch size, the index range of the i-th batch of a
    file runs from i*size + 1 to (i+1)*size, or to the number of identifiers
    if that is less; the names of the output files, which carry the ranges,
    are therefore all different: within a file no batch overwrites the output
    of another. *)
Theorem batchRanges_tile {A} (arr : list A) (size : nat) (baseName : string) :
  0 < size ->
  (forall i range,
      batchRanges 0 (chunk arr size) !! i = Some range ->
      range = (i * size + 1, Nat.min ((i + 1) * size) (length arr)))
  /\ NoDup (map (outFileName baseName) (batchRanges 0 (chunk arr size))).
Proof.
  intros Hs. split.
  - intros i range H. now apply (batchRanges_chunk size Hs arr 0) in H.
  - apply NoDup_alt. intros i j name Hi Hj.
    rewrite list_lookup_fmap in Hi, Hj.
    destruct (batchRanges 0 (chunk arr size) !! i) as [ri |] eqn:Ei; [| discriminate].
    destruct (batchRanges 0 (chunk arr size) !! j) as [rj |] eqn:Ej; [| discriminate].
    simpl in Hi, Hj. injection Hi as Hi. injection Hj as Hj.
    rewrite <- Hj in Hi. apply outFileName_inj in Hi.
    apply (batchRanges_chunk size Hs arr 0) in Ei.
    apply (batchRanges_chunk size Hs arr 0) in Ej.
    rewrite Ei, Ej in Hi. injection Hi as Hi _. nia.
Qed.

Lemma batchRanges_tile_witness :
  0 < 10
  /\ NoDup (map (outFileName "apple") (batchRanges 0 (chunk (seq 0 25) 10))).
Proof.
  split; [lia |]. exact (proj2 (batchRanges_tile (seq 0 25) 10 "apple" ltac:(lia))).
Defined.

(** ** What the registry accounts for *)

Section RegistryFacts.

Import Registry.
Implicit Types (a : string) (ids : list (option string)).

Lemma firstIndex_before a ids k :
  ids !! k = Some (Some a) -> exists i, firstIndex a ids = Some i /\ i <= k.
Proof.
  revert k. induction ids as [| x ids IH]; intros k Hk; [discriminate |].
  simpl. destruct (decide (x = Some a)) as [-> | Hne].
  - exists 0. split; [reflexivity | lia].
  - destruct k as [| k]; simpl in Hk; [congruence |].
    destruct (IH k Hk) as (i & -> & Hi). exists (S i). split; [reflexivity | lia].
Qed.

(** A line with an identifier is either its first occurrence or a repeat. *)
Lemma firstSeen_or_repeated ids k a :
  ids !! k = Some (Some a) ->
  (firstSeenAt ids k = Some a /\ repeatedAt ids k = None /\ firstIndex a ids = Some k)
  \/ (exists i, firstSeenAt ids k = None /\ firstIndex a ids = Some i /\ i < k
                /\ repeatedAt ids k = Some (mkDuplicate a (i + 1) (k + 1))).
Proof.
  intros Hk. destruct (firstIndex_before a ids k Hk) as (i & Hi & Hle).
  unfold firstSeenAt, repeatedAt. rewrite Hk, Hi.
  destruct (decide (i = k)) as [-> | Hne].
  - left. rewrite decide_True by reflexivity. now rewrite Nat.ltb_irrefl.
  - right. exists i. rewrite decide_False by congruence.
    assert (Hlt : i < k) by lia. apply Nat.ltb_lt in Hlt as Hb. rewrite Hb.
    split; [reflexivity |]. split; [reflexivity |]. split; [exact Hlt | reflexivity].
Qed.

Lemma registry_count ids k :
  k <= length ids ->
  length (omap (firstSeenAt ids) (seq 0 k)) + length (omap (repeatedAt ids) (seq 0 k))
  = length (omap id (take k ids)).
Proof.
  induction k as [| k IH]; intros Hk; [now rewrite take_0 |].
  destruct (lookup_lt_is_Some_2 ids k ltac:(lia)) as [x Hx].
  rewrite seq_S, !omap_app, !length_app, (take_S_r _ _ _ Hx), omap_app, length_app.
  specialize (IH ltac:(lia)).
  set (n1 := length (omap (firstSeenAt ids) (seq 0 k))) in *.
  set (n2 := length (omap (repeatedAt ids) (seq 0 k))) in *.
  set (n3 := length (omap id (take k ids))) in *.
  clearbody n1 n2 n3. cbn [seq omap list_omap Nat.add].
  destruct x as [a |].
  - destruct (firstSeen_or_repeated ids k a Hx) as [(H1 & H2 & _) | (i & H1 & _ & _ & H2)];
      rewrite H1, H2; cbn [length id]; lia.
  - unfold firstSeenAt, repeatedAt. rewrite Hx. cbn [length id]. lia.
Qed.

Lemma conflicts_elem ids d :
  d ∈ conflicts ids ->
  exists i k, d = mkDuplicate (asin d) (i + 1) (k + 1)
              /\ firstIndex (asin d) ids = Some i /\ i < k
              /\ ids !! k = Some (Some (asin d)).
Proof.
  unfold conflicts. rewrite list_elem_of_omap. intros (k & _ & Hk).
  unfold repeatedAt in Hk.
  destruct (ids !! k) as [[a |] |] eqn:Eid; try discriminate.
  destruct (firstIndex a ids) as [i |] eqn:Ei; [| discriminate].
  destruct (Nat.ltb_spec i k); [| discriminate].
  injection Hk as <-. now exists i, k.
Qed.

End RegistryFacts.

(** The registry at the end of the loop, as the lines determine it. *)
Lemma dedupe_final (URL_new : string -> outcome URL) (lines : list string) :
  exists r,
    dedupe URL_new lines = Ret r
    /\ Registry.invariant lines (map (Rules.extract URL_new) lines) (length lines) r.
Proof.
  destruct (forEachFrom_invariant URL_new lines lines 0 emptyRegistry)
    as (r & Hrun & Hinv); [lia | reflexivity | apply invariant_empty |].
  now exists r.
Qed.

Lemma take_ids (URL_new : string -> outcome URL) (lines : list string) :
  take (length lines) (map (Rules.extract URL_new) lines)
  = map (Rules.extract URL_new) lines.
Proof. apply take_ge. now rewrite length_map. Qed.

(** X3. The deduplicator accounts for every line that carries an identifier
    exactly once, as a registration or as a conflict: the registered
    identifiers and the conflict records together are as many as those lines.
    Every conflict record names a registered identifier with the number of
    its first line, which lies before the line of the conflict, and that line
    carries the identifier. *)
Theorem dedupe_accounting (URL_new : string -> outcome URL) (lines : list string) :
  let ids := map (Rules.extract URL_new) lines in
  match dedupe URL_new lines with
  | Ret r =>
      length (asins r) + length (duplicates r) = length (omap id ids)
      /\ Forall (fun d =>
                   0 < line1 d < line2 d /\ line2 d <= length lines
                   /\ asin d ∈ asins r
                   /\ asinSeen r !! asin d = Some (line1 d)
                   /\ ids !! (line2 d - 1) = Some (Some (asin d)))
                (duplicates r)
  | Throw => False
  end.
Proof.
  intros ids. destruct (dedupe_final URL_new lines) as (r & -> & [Ha Hd Hs Hl Hn He]).
  fold ids in Ha, Hd, Hs, Hl, He. unfold ids in Hs, He. rewrite take_ids in Hs, He.
  fold ids in Hs, He.
  assert (Hlen : length lines = length ids) by (unfold ids; now rewrite length_map).
  split.
  - rewrite Ha, Hd, registry_count by lia. unfold ids. now rewrite take_ids.
  - apply Forall_forall. intros d Hin. rewrite Hd, Hlen in Hin.
    apply conflicts_elem in Hin as (i & k & Ed & Hi & Hlt & Hk).
    apply lookup_lt_Some in Hk as Hbound.
    rewrite Ed. cbn [line1 line2 asin].
    replace (k + 1 - 1) with k by lia.
    repeat split; try lia.
    + apply He. rewrite Hi. eauto.
    + now rewrite Hs, Hi.
    + exact Hk.
Qed.

(** ** From the lines to the requests and back to the rows *)

Lemma onceEach_chunk (URL_new : string -> outcome URL) (lines : list string) r size :
  0 < size ->
  Registry.invariant lines (map (Rules.extract URL_new) lines) (length lines) r ->
  onceEach (map (Rules.extract URL_new) lines) size (chunk (asins r) size).
Proof.
  intros Hs [Ha Hd Hseen Hl Hn He]. rewrite take_ids in He.
  unfold onceEach. rewrite chunk_concat by assumption. split; [exact Hn |]. split.
  - intros a. rewrite He. apply firstIndex_is_Some.
  - pose proof (chunk_bounded (asins r) size Hs) as Hb.
    pose proof (chunk_nonempty (asins r) size Hs) as Hne.
    rewrite Forall_forall in Hb, Hne. apply Forall_forall. intros b Hin.
    specialize (Hb b Hin). specialize (Hne b Hin). destruct b; [congruence | simpl in *; lia].
Qed.

(** X4. Within a file no identifier is requested twice: the batches sent to
    the provider, of at most 10 identifiers for PA and 20 for Keepa and never
    empty, hold together exactly the identifiers that some line carries, each
    once. *)
Theorem requests_once (URL_new : string -> outcome URL) (lines : list string) :
  let ids := map (Rules.extract URL_new) lines in
  match dedupe URL_new lines with
  | Ret r =>
      onceEach ids ITEMS_PER_BATCH_PAAPI (chunk (asins r) ITEMS_PER_BATCH_PAAPI)
      /\ onceEach ids ITEMS_PER_BATCH_KEEPA (chunk (asins r) ITEMS_PER_BATCH_KEEPA)
  | Throw => False
  end.
Proof.
  intros ids. destruct (dedupe_final URL_new lines) as (r & -> & Hinv).
  split; apply onceEach_chunk; try assumption; unfold ITEMS_PER_BATCH_PAAPI,
    ITEMS_PER_BATCH_KEEPA; lia.
Qed.

(** X5. The link of a Keepa row is the reference on the first line that
    carried the product's identifier; it is absent for a product without
    identifier and for one that no line asked for. *)
Theorem keepaRows_link (URL_new : string -> outcome URL) (lines : list string)
  (tag domain : string) (items : list keepaProduct) :
  match dedupe URL_new lines with
  | Ret r =>
      map Link (keepaRows tag domain r items)
      = map (fun p => firstReference URL_new lines (kp_asin p)) items
  | Throw => False
  end.
Proof.
  destruct (dedupe_final URL_new lines) as (r & -> & [Ha Hd Hs Hl Hn He]).
  rewrite take_ids in Hl. unfold keepaRows. rewrite map_map. apply map_ext.
  intros p. cbn [dealRow summarizeKeepa Link s_link]. unfold linkFor, firstReference.
  destruct (kp_asin p) as [a |]; [apply Hl | reflexivity].
Qed.

(** ** Trimming *)

Section TrimFacts.

Implicit Types (s t p w : string) (c : ascii).

Lemma append_nil_r s : s +:+ "" = s.
Proof.
  induction s as [| c s IH]; [reflexivity |].
  rewrite append_cons. now rewrite IH.
Qed.

Lemma trimStart_length s : String.length (trimStart s) <= String.length s.
Proof.
  induction s as [| c s IH]; simpl; [lia |]. destruct (isSpace c); simpl; lia.
Qed.

(** What [trimStart] leaves does not begin with a blank. *)
Lemma trimStart_head s c t : trimStart s = String c t -> isSpace c = false.
Proof.
  induction s as [| d s IH]; simpl; [discriminate |].
  destruct (isSpace d) eqn:Hd; [exact IH | intros [= <- _]; exact Hd].
Qed.

Lemma trimStart_keep c t : isSpace c = false -> trimStart (String c t) = String c t.
Proof. intros H. simpl. now rewrite H. Qed.

Lemma trimStart_idem s : trimStart (trimStart s) = trimStart s.
Proof.
  destruct (trimStart s) as [| c t] eqn:E; [reflexivity |].
  apply trimStart_keep. now apply trimStart_head in E.
Qed.

(** [trimEnd] keeps the first character of what it leaves. *)
Lemma trimEnd_head s c t : trimEnd s = String c t -> exists s', s = String c s'.
Proof.
  destruct s as [| d s]; simpl; [discriminate |].
  destruct (trimEnd s); [destruct (isSpace d) |]; intros [= <- _]; eauto.
Qed.

Lemma trimEnd_idem s : trimEnd (trimEnd s) = trimEnd s.
Proof.
  induction s as [| c s IH]; [reflexivity |]. simpl.
  destruct (trimEnd s) as [| d t] eqn:E.
  - destruct (isSpace c) eqn:Hc; [reflexivity |]. simpl. now rewrite Hc.
  - change (trimEnd (String c (String d t))) with
      (match trimEnd (String d t) with
       | "" => if isSpace c then "" else String c ""
       | String e u => String c (String e u)
       end).
    now rewrite IH.
Qed.

Lemma trim_idem s : trim (trim s) = trim s.
Proof.
  unfold trim. destruct (trimEnd (trimStart s)) as [| c t] eqn:E; [reflexivity |].
  destruct (trimEnd_head _ _ _ E) as (s' & Hs).
  rewrite trimStart_keep by (now apply trimStart_head in Hs).
  now rewrite <- E, trimEnd_idem.
Qed.

(** A blank at the end does not change [trim]. *)
Lemma trimEnd_blank s c : isSpace c = true -> trimEnd (s +:+ String c "") = trimEnd s.
Proof.
  intros Hc. induction s as [| d s IH].
  - simpl. now rewrite Hc.
  - rewrite append_cons. simpl. now rewrite IH.
Qed.

Lemma trim_blank s c : isSpace c = true -> trim (s +:+ String c "") = trim s.
Proof.
  intros Hc. unfold trim. induction s as [| d s IH].
  - simpl. now rewrite Hc.
  - rewrite append_cons. simpl. destruct (isSpace d); [exact IH |].
    rewrite <- append_cons. now apply trimEnd_blank.
Qed.

(** A string that [trimEnd] leaves alone stays so behind any prefix, and so
    does any of its endings. *)
Lemma trimEnd_behind p w : w <> "" -> trimEnd w = w -> trimEnd (p +:+ w) = p +:+ w.
Proof.
  intros Hne Hw. induction p as [| c p IH]; [exact Hw |].
  rewrite append_cons. simpl. rewrite IH.
  destruct (p +:+ w) eqn:E; [| reflexivity].
  destruct p; [now rewrite append_nil_l in E | discriminate].
Qed.

Lemma trimEnd_ending p w : w <> "" -> trimEnd (p +:+ w) = p +:+ w -> trimEnd w = w.
Proof.
  intros Hne. induction p as [| c p IH]; [now rewrite append_nil_l |].
  rewrite append_cons. simpl.
  destruct (trimEnd (p +:+ w)) as [| d t] eqn:E.
  - destruct (isSpace c); [discriminate |]. intros [= H]. symmetry in H.
    destruct p; [now rewrite append_nil_l in H | discriminate].
  - intros [= H]. now apply IH.
Qed.

Lemma trim_trimEnd s : trimEnd (trim s) = trim s.
Proof. unfold trim. apply trimEnd_idem. Qed.

Lemma trim_trimStart s : trimStart (trim s) = trim s.
Proof.
  unfold trim. destruct (trimEnd (trimStart s)) as [| c t] eqn:E; [reflexivity |].
  destruct (trimEnd_head _ _ _ E) as (s' & Hs).
  apply trimStart_keep. now apply trimStart_head in Hs.
Qed.

End TrimFacts.

(** ** Reading the lines *)

Section LineFacts.

Let cr : string := String (ascii_of_nat 13) "".

Lemma prefix_nl rest : String.prefix nl rest = true -> exists rest', rest = String (ascii_of_nat 10) rest'.
Proof.
  destruct rest as [| c rest]; [discriminate |].
  unfold nl. cbn [String.prefix].
  destruct (ascii_dec (ascii_of_nat 10) c) as [<- |]; [eauto | discriminate].
Qed.

(** The two ways of splitting differ by a carriage return at the end of a
    line at most. *)
Lemma split_related txt :
  Forall2 (fun l l' => l' = l \/ l' = l +:+ cr) (splitLines txt) (splitNewline txt).
Proof.
  induction txt as [| c rest IH]; [repeat constructor |].
  cbn [splitLines splitNewline].
  destruct (Ascii.eqb c (ascii_of_nat 10)) eqn:Hlf.
  - constructor; [now left | exact IH].
  - destruct (Ascii.eqb c (ascii_of_nat 13) && String.prefix nl rest)%bool eqn:Hcr.
    + apply andb_prop in Hcr as [Hc Hp]. apply Ascii.eqb_eq in Hc. subst c.
      destruct (prefix_nl rest Hp) as (rest' & ->).
      cbn [splitLines splitNewline] in IH |- *.
      rewrite Ascii.eqb_refl in IH |- *.
      inversion IH as [| ? ? ? ? _ Htail]; subst.
      constructor; [now right | exact Htail].
    + destruct IH as [| l l' ls ls' [-> | ->] Htail].
      * repeat constructor.
      * constructor; [now left | exact Htail].
      * constructor; [now right | exact Htail].
Qed.

Lemma split_trim txt : map trim (splitLines txt) = map trim (splitNewline txt).
Proof.
  induction (split_related txt) as [| l l' ls ls' [-> | ->] _ IH]; [reflexivity | |];
    cbn [map]; rewrite IH; [reflexivity |].
  f_equal. symmetry. now apply trim_blank.
Qed.

Lemma truthy_length s : Str.truthy s = Nat.ltb 0 (String.length s).
Proof. now destruct s. Qed.

End LineFacts.

Lemma readLines_trimmed txt : Forall (fun l => l <> "" /\ trim l = l) (readLines txt).
Proof.
  unfold readLines. apply Forall_forall. intros l Hin.
  apply list_elem_of_In, filter_In in Hin as [Hin Ht].
  apply in_map_iff in Hin as (l0 & <- & _).
  split; [intros E; now rewrite E in Ht | apply trim_idem].
Qed.

(** X6. The API scripts, which split the file at line feeds, and the browser
    script, which splits it at line feeds with an optional carriage return
    before, read the same lines from every file; each line read is non-empty
    and carries no blank at either end. *)
Theorem readLines_readUrls (txt : string) :
  readLines txt = readUrls txt
  /\ Forall (fun l => l <> "" /\ trim l = l) (readLines txt).
Proof.
  split.
  - unfold readLines, readUrls. rewrite split_trim.
    apply List.filter_ext. intros l. apply truthy_length.
  - apply readLines_trimmed.
Qed.

(** ** Normalizing the references (Keepa script) *)

Section AnchoredFacts.

Import Re.

Lemma execFrom_bos_later r i s : execFrom (Seq Bos r) (S i) s = None.
Proof. revert i. induction s as [| c s IH]; intros i; simpl; [reflexivity | apply IH]. Qed.

(** A pattern that begins with [^] matches at the start or not at all. *)
Lemma test_anchored r s :
  test (Seq Bos r) s = is_Some_bool (matchAt r 0 s).
Proof.
  unfold test, exec.
  assert (H : matchAt (Seq Bos r) 0 s = matchAt r 0 s) by reflexivity.
  destruct s as [| c s]; cbn [execFrom]; rewrite H;
    destruct (matchAt r 0 _); try reflexivity.
  now rewrite execFrom_bos_later.
Qed.

Lemma test_anchored_lit p s :
  test (seqs [Bos; lit p]) s = is_Some_bool (Str.stripPrefixCi p s).
Proof.
  cbn [seqs]. rewrite test_anchored. unfold matchAt. rewrite run_lit.
  now destruct (Str.stripPrefixCi p s).
Qed.

Lemma matchLen_anchored_lit p s :
  matchLen (seqs [Bos; lit p]) 0 s
  = match Str.stripPrefixCi p s with
    | Some _ => Some (String.length p)
    | None => None
    end.
Proof.
  cbn [seqs]. unfold matchLen.
  change (run (Seq Bos (lit p)) 0 s [] ?k) with (run (lit p) 0 s [] k).
  rewrite run_lit. destruct (Str.stripPrefixCi p s); [| reflexivity].
  f_equal. simpl. lia.
Qed.

End AnchoredFacts.

Section NormalizeFacts.

Implicit Types (s u x : string).

Lemma take_drop_string n s : Str.take n s +:+ Str.drop n s = s.
Proof.
  revert s. induction n as [| n IH]; intros [| c s]; try reflexivity.
  cbn [Str.take Str.drop]. rewrite append_cons. now rewrite IH.
Qed.

Lemma protocol_https x : Re.test UrlPatterns.protocol ("https://" +:+ x) = true.
Proof. reflexivity. Qed.

(** A reference that starts with [https://] and ends without a blank is left
    as it is. *)
Lemma normalizeUrl_fixed x :
  x <> "" -> trimEnd x = x -> normalizeUrl ("https://" +:+ x) = "https://" +:+ x.
Proof.
  intros Hne Hx. unfold normalizeUrl.
  assert (Ht : trim ("https://" +:+ x) = "https://" +:+ x).
  { unfold trim. change (trimStart ("https://" +:+ x)) with ("https://" +:+ x).
    now apply trimEnd_behind. }
  rewrite Ht. change (Str.truthy ("https://" +:+ x)) with true. cbn [negb].
  now rewrite protocol_https.
Qed.

Lemma replaceFirst_amazonDot u :
  Re.test UrlPatterns.amazonDot u = true ->
  replaceFirst UrlPatterns.amazonDot "amazon." u = "amazon." +:+ Str.drop 7 u.
Proof.
  unfold UrlPatterns.amazonDot. rewrite test_anchored_lit. intros H.
  unfold replaceFirst. destruct u as [| c u]; [discriminate |].
  cbn [replaceFirstFrom]. rewrite matchLen_anchored_lit.
  now destruct (Str.stripPrefixCi "amazon." (String c u)).
Qed.

(** What is left of a trimmed reference behind a prefix ends without a blank,
    whatever is put before it. *)
Lemma trimEnd_rest p n u :
  p <> "" -> trimEnd p = p -> trimEnd u = u ->
  trimEnd (p +:+ Str.drop n u) = p +:+ Str.drop n u.
Proof.
  intros Hp Hpe Hu. destruct (Str.drop n u) as [| c t] eqn:E.
  - now rewrite append_nil_r.
  - apply trimEnd_behind; [discriminate |].
    apply (trimEnd_ending (Str.take n u)); [discriminate |].
    now rewrite <- E, take_drop_string.
Qed.

Lemma normalizeUrl_blank raw : trim raw = "" -> normalizeUrl raw = "".
Proof. intros H. unfold normalizeUrl. now rewrite H. Qed.

(** The ways a non-blank reference comes out. *)
Lemma normalizeUrl_cases raw :
  trim raw <> "" ->
  (Re.test UrlPatterns.protocol (trim raw) = true /\ normalizeUrl raw = trim raw)
  \/ (exists x, x <> "" /\ trimEnd x = x /\ normalizeUrl raw = "https://" +:+ x).
Proof.
  intros Hne. unfold normalizeUrl. set (u := trim raw) in *.
  assert (Hu : trimEnd u = u) by apply trim_trimEnd.
  replace (Str.truthy u) with true by (destruct u; [congruence | reflexivity]).
  cbn [negb].
  destruct (Re.test UrlPatterns.protocol u); [now left | right].
  destruct (Re.test UrlPatterns.amznTo u); [now exists u |].
  destruct (Re.test UrlPatterns.www u); [now exists u |].
  destruct (Re.test UrlPatterns.amazonCom u).
  { exists ("www." +:+ u). split; [discriminate |]. split; [| reflexivity].
    now apply trimEnd_behind. }
  destruct (Re.test UrlPatterns.amazonDot u) eqn:Hdot; [| now exists u].
  rewrite (replaceFirst_amazonDot u Hdot).
  exists ("www.amazon." +:+ Str.drop 7 u). split; [discriminate |]. split; [| reflexivity].
  now apply trimEnd_rest.
Qed.

End NormalizeFacts.

(** X7. [normalizeUrl] is idempotent: a reference that has been normalized
    comes out of a second pass unchanged. *)
Theorem normalizeUrl_idempotent (raw : string) :
  normalizeUrl (normalizeUrl raw) = normalizeUrl raw.
Proof.
  destruct (trim raw) as [| c t] eqn:E.
  - now rewrite (normalizeUrl_blank raw E).
  - destruct (normalizeUrl_cases raw) as [[Hp ->] | (x & Hne & Hx & ->)];
      [rewrite E; discriminate | | now apply normalizeUrl_fixed].
    unfold normalizeUrl. rewrite trim_idem, E in *. cbn [Str.truthy negb].
    now rewrite Hp.
Qed.

(** X8. A blank reference is normalized to the empty string; any other comes
    out with a protocol, [http://] or [https://] in any case: its own, if it
    has one, in which case only the surrounding blanks are removed.  So every
    line the Keepa script works on carries a protocol. *)
Theorem normalizeUrl_protocol :
  (forall raw, trim raw = "" -> normalizeUrl raw = "")
  /\ (forall raw, trim raw <> "" ->
        Re.test UrlPatterns.protocol (normalizeUrl raw) = true
        /\ (Re.test UrlPatterns.protocol (trim raw) = true -> normalizeUrl raw = trim raw))
  /\ (forall txt, Forall (fun l => Re.test UrlPatterns.protocol l = true)
                         (readLinesKeepa txt)).
Proof.
  assert (Hprot : forall raw, trim raw <> "" ->
            Re.test UrlPatterns.protocol (normalizeUrl raw) = true).
  { intros raw Hne.
    destruct (normalizeUrl_cases raw Hne) as [[Hp ->] | (x & _ & _ & ->)];
      [exact Hp | apply protocol_https]. }
  split; [exact normalizeUrl_blank |]. split.
  - intros raw Hne. split; [now apply Hprot |].
    intros Hp. unfold normalizeUrl.
    replace (Str.truthy (trim raw)) with true
      by (destruct (trim raw); [congruence | reflexivity]).
    cbn [negb]. now rewrite Hp.
  - intros txt. unfold readLinesKeepa. apply Forall_forall. intros l Hin.
    apply list_elem_of_In, in_map_iff in Hin as (l0 & <- & Hin).
    pose proof (readLines_trimmed txt) as Hall.
    rewrite Forall_forall in Hall. apply list_elem_of_In in Hin.
    destruct (Hall l0 Hin) as [Hne Ht]. apply Hprot. now rewrite Ht.
Qed.

Lemma normalizeUrl_protocol_witness :
  trim "  amazon.com/dp/B000111222 " <> ""
  /\ normalizeUrl "  amazon.com/dp/B000111222 " = "https://www.amazon.com/dp/B000111222"
  /\ Re.test UrlPatterns.protocol (normalizeUrl "  amazon.com/dp/B000111222 ") = true.
Proof.
  assert (H : trim "  amazon.com/dp/B000111222 " <> "") by discriminate.
  split; [exact H |]. split; [reflexivity |].
  exact (proj1 (proj1 (proj2 normalizeUrl_protocol) "  amazon.com/dp/B000111222 " H)).
Defined.

(** ** Prices read from a page *)

Section PriceFacts.

Lemma digitsValue_nonneg s acc : (0 <= acc)%Z -> (0 <= digitsValue acc s)%Z.
Proof.
  revert acc. induction s as [| c s IH]; intros acc H; simpl; [exact H |].
  apply IH. lia.
Qed.

Lemma fin_nonneg (z : Z) (d : positive) : (0 <= z)%Z -> nonNegative (Num.fin (z # d)).
Proof.
  intros H. unfold Num.fin, nonNegative. rewrite Qred_correct.
  unfold Qle. simpl. lia.
Qed.

Lemma parseFloat_nonneg s : parseFloat s = NaN \/ nonNegative (parseFloat s).
Proof.
  unfold parseFloat. destruct (spanDigits s) as [ip r].
  set (fp := match r with String "."%char r' => fst (spanDigits r') | _ => "" end).
  assert (H : nonNegative (Num.fin (digitsValue 0 (ip +:+ fp)
                                      # Z.to_pos (10 ^ Z.of_nat (String.length fp))))).
  { apply fin_nonneg, digitsValue_nonneg. lia. }
  destruct ip; [destruct fp; [now left | now right] | now right].
Qed.

Lemma parsePriceText_nonneg text v : parsePriceText text = Some v -> nonNegative v.
Proof.
  unfold parsePriceText. destruct text as [t |]; [| discriminate].
  destruct (negb (Str.truthy t)); [discriminate |].
  set (cleaned := Str.removeFirst "," (Re.deleteAll Patterns.notPriceChar t)).
  destruct (parseFloat_nonneg cleaned) as [-> | H]; [discriminate |].
  destruct (Num.isFinite (parseFloat cleaned)); [| discriminate].
  now intros [= <-].
Qed.

End PriceFacts.

(** X9. A price read from a text is a finite number that is not negative:
    a sign in the text is dropped with the other characters that are neither
    digit, point nor comma. *)
Theorem parsePriceText_nonNegative (text : option string) (v : num) :
  parsePriceText text = Some v -> nonNegative v.
Proof. apply parsePriceText_nonneg. Qed.

Lemma parsePriceText_nonNegative_witness :
  parsePriceText (Some "-$15.50") = Some (Fin (31 # 2)) /\ nonNegative (Fin (31 # 2)).
Proof.
  assert (H : parsePriceText (Some "-$15.50") = Some (Fin (31 # 2))) by reflexivity.
  split; [exact H |]. exact (parsePriceText_nonNegative (Some "-$15.50") _ H).
Defined.

(** ** The discount of a scraped page *)

Section DiscountFacts.

Open Scope Q_scope.

Lemma Qle_bool_false x y : y < x -> Qle_bool x y = false.
Proof.
  intros H. apply Bool.not_true_iff_false. rewrite Qle_bool_iff. now apply Qlt_not_le.
Qed.

Lemma Qltb_false x y : y <= x -> Num.Qltb x y = false.
Proof.
  intros H. unfold Num.Qltb. apply Bool.negb_false_iff. now apply Qle_bool_iff.
Qed.

Lemma nearestUp_range q (b : Z) :
  0 <= q -> q <= inject_Z b -> (0 <= Num.nearestUp q <= b)%Z.
Proof.
  intros H0 Hb. unfold Num.nearestUp. split.
  - change 0%Z with (Qfloor 0). apply Qfloor_resp_le. lra.
  - pose proof (Qfloor_le (q + (1 # 2))) as Hf.
    set (n := Qfloor (q + (1 # 2))) in *. clearbody n.
    assert (H : inject_Z n < inject_Z (b + 1)).
    { rewrite inject_Z_plus. change (inject_Z 1) with 1. lra. }
    rewrite <- Zlt_Qlt in H. lia.
Qed.

(** Rounding a number from 0 to [b] hundredths-wise stays in the range. *)
Lemma toFixed2_range q (b : Z) :
  0 <= q -> q <= inject_Z b -> (b < 10 ^ 21)%Z ->
  exists r, Num.toFixed2 (Fin q) = Fin r /\ 0 <= r <= inject_Z b.
Proof.
  intros H0 Hb Hsmall. unfold Num.toFixed2.
  rewrite Qle_bool_false.
  2: { rewrite Qabs_pos by assumption. eapply Qle_lt_trans; [exact Hb |].
       assert (E : 10 ^ 21 = inject_Z (10 ^ 21)) by (vm_compute; reflexivity).
       rewrite E. now rewrite <- Zlt_Qlt. }
  rewrite Qltb_false by assumption.
  destruct (nearestUp_range (q * 100) (b * 100)) as [Hn0 Hnb].
  { lra. } { rewrite inject_Z_mult. change (inject_Z 100) with 100. lra. }
  eexists. split; [reflexivity |]. rewrite Qred_correct.
  set (n := Num.nearestUp (q * 100)) in *. clearbody n.
  rewrite (Qmake_Qdiv n 100). change (inject_Z (Z.pos 100)) with 100.
  rewrite Zle_Qle in Hn0, Hnb. rewrite inject_Z_mult in Hnb.
  change (inject_Z 100) with 100 in Hnb. change (inject_Z 0) with 0 in Hn0.
  unfold Qdiv. change (/ 100) with (1 # 100). split; lra.
Qed.

Lemma toFixed2_nonneg q : 0 <= q -> nonNegative (Num.toFixed2 (Fin q)).
Proof.
  intros H0. unfold Num.toFixed2.
  destruct (Qle_bool (10 ^ 21) (Qabs q)); [exact H0 |].
  rewrite Qltb_false by assumption. unfold Num.fin, nonNegative.
  rewrite Qred_correct.
  assert (Hn : (0 <= Num.nearestUp (q * 100))%Z).
  { unfold Num.nearestUp. change 0%Z with (Qfloor 0). apply Qfloor_resp_le. lra. }
  unfold Qle. simpl. lia.
Qed.

(** For prices with [0 <= current < original] the percentage before rounding
    lies between 0 and 100. *)
Lemma percentOff_range x y :
  0 <= y -> y < x ->
  exists q, percentOff (Fin x) (Fin y) = Fin q /\ 0 <= q <= 100.
Proof.
  intros Hy Hxy. assert (Hx : 0 < x) by lra.
  unfold percentOff, Num.sub, Num.div, Num.mul, Num.ofZ, Num.fin.
  rewrite Qeq_bool_false by (intros E; rewrite E in Hx; now apply Qlt_irrefl in Hx).
  eexists. split; [reflexivity |]. rewrite !Qred_correct.
  assert (H1 : 0 <= (x - y) / x) by (apply Qle_shift_div_l; lra).
  assert (H2 : (x - y) / x <= 1) by (apply Qle_shift_div_r; lra).
  set (f := (x - y) / x) in *. clearbody f. change (100 # 1) with 100. split; lra.
Qed.

Lemma geb_ltb_fin x y : Num.geb (Fin y) (Fin x) = negb (Num.ltb (Fin y) (Fin x)).
Proof. unfold Num.geb, Num.leb, Num.ltb, Num.Qltb. now rewrite Bool.negb_involutive. Qed.

Lemma geb_refl_fin x : Num.geb (Fin x) (Fin x) = true.
Proof. unfold Num.geb, Num.leb. apply Qle_bool_iff. lra. Qed.

End DiscountFacts.

Lemma nonNegative_fin v : nonNegative v -> exists q, v = Fin q /\ (0 <= q)%Q.
Proof. destruct v; simpl; try tauto. eauto. Qed.

(** The discount of two prices as the scraper reads them. *)
Lemma computeDiscount_range x y :
  (0 <= x)%Q -> (0 <= y)%Q ->
  let d := computeDiscount (Some (Fin x)) (Some (Fin y)) in
  hasDiscount d = Num.ltb (Fin y) (Fin x)
  /\ (exists p, pct d = Some p /\ percentage p)
  /\ (exists s, save d = Some s /\ nonNegative s).
Proof.
  intros Hx Hy. cbv zeta. unfold computeDiscount. rewrite geb_ltb_fin.
  destruct (Num.ltb (Fin y) (Fin x)) eqn:Hlt; cbn [negb hasDiscount pct save].
  - apply Qltb_true in Hlt. split; [reflexivity |]. split.
    + destruct (percentOff_range x y Hy Hlt) as (q & Hq & Hq0 & Hq100).
      fold (percentOff (Fin x) (Fin y)). rewrite Hq.
      destruct (toFixed2_range q 100 Hq0 Hq100 ltac:(reflexivity)) as (r & -> & Hr).
      eexists. split; [reflexivity | exact Hr].
    + eexists. split; [reflexivity |]. unfold Num.sub, Num.fin.
      apply toFixed2_nonneg. rewrite Qred_correct. lra.
  - split; [reflexivity |]. split; eexists; (split; [reflexivity |]); simpl; lra.
Qed.

(** X10. In every record of a scraped page the discount percentage is absent
    or a finite number from 0 to 100, the amount saved is absent or a finite
    number that is not negative, both are absent exactly when the current
    price is, and the discount flag is set exactly when both prices are
    present and the current one is lower than the original one. *)
Theorem scrape_discount_range (tag dir : string) (render : nat -> string -> outcome pageData)
  (url : string) (index : nat) (d : deal) :
  scrapeAmazonProduct tag dir render url index = Ret d ->
  match DiscountPct d with Some p => percentage p | None => Current d = None end
  /\ match YouSave d with Some s => nonNegative s | None => Current d = None end
  /\ (Current d = None -> DiscountPct d = None /\ YouSave d = None)
  /\ (HasDiscount d = true
      <-> exists o c, Original d = Some o /\ Current d = Some c /\ Num.ltb c o = true).
Proof.
  unfold scrapeAmazonProduct. destruct (render index url) as [page |]; [| discriminate].
  cbn [bind]. intros [= <-]. cbn [DiscountPct YouSave Current Original HasDiscount].
  destruct (parsePriceText (currentPriceText page)) as [c |] eqn:Hc.
  - apply parsePriceText_nonneg, nonNegative_fin in Hc as (y & -> & Hy).
    assert (Ho : exists x, match parsePriceText (originalPriceText page) with
                           | Some o => Some o
                           | None => Some (Fin y)
                           end = Some (Fin x) /\ (0 <= x)%Q).
    { destruct (parsePriceText (originalPriceText page)) as [o |] eqn:Eo; [| eauto].
      apply parsePriceText_nonneg, nonNegative_fin in Eo as (x & -> & Hx). eauto. }
    destruct Ho as (x & Ho & Hx).
    rewrite Ho.
    destruct (computeDiscount_range x y Hx Hy) as (Hh & (p & -> & Hp) & (s & -> & Hs)).
    rewrite Hh. repeat split; try assumption; try discriminate.
    + intros Hlt. now exists (Fin x), (Fin y).
    + now intros (o & c & [= <-] & [= <-] & Hlt).
  - destruct (parsePriceText (originalPriceText page));
      cbn [computeDiscount pct save hasDiscount]; repeat split; try discriminate;
      now intros (o & c & _ & Hcur & _).
Qed.

Lemma scrape_discount_range_witness :
  let d := mkDeal (Some "B000111222") (Some "Widget")
                  (Some "https://www.amazon.com/dp/B000111222")
                  (Some (Fin 20)) (Some (Fin 15)) (Some "shots/1-B000111222.png")
                  false true (Some (Fin 25)) (Some (Fin 5))
                  (Some "https://www.amazon.com/dp/B000111222") in
  scrapeAmazonProduct "" "shots"
    (fun _ _ => Ret (mkPageData (Some "Widget") (Some "$15.00") (Some "$20.00") true))
    "https://www.amazon.com/dp/B000111222" 0 = Ret d
  /\ match DiscountPct d with Some p => percentage p | None => Current d = None end.
Proof.
  cbv zeta. split; [reflexivity |].
  exact (proj1 (scrape_discount_range "" "shots"
           (fun _ _ => Ret (mkPageData (Some "Widget") (Some "$15.00") (Some "$20.00") true))
           "https://www.amazon.com/dp/B000111222" 0 _ eq_refl)).
Defined.

(** X11. A page that shows a current price and no original price yields a
    record in which the current price stands for the original one and there
    is no discount: flag off, percentage 0, amount 0. *)
Theorem scrape_without_original_price (tag dir : string)
  (render : nat -> string -> outcome pageData) (url : string) (index : nat)
  (page : pageData) (c : num) :
  render index url = Ret page ->
  parsePriceText (originalPriceText page) = None ->
  parsePriceText (currentPriceText page) = Some c ->
  exists d,
    scrapeAmazonProduct tag dir render url index = Ret d
    /\ Original d = Some c /\ Current d = Some c
    /\ HasDiscount d = false /\ DiscountPct d = Some (Fin 0) /\ YouSave d = Some (Fin 0).
Proof.
  intros Hr Ho Hc. unfold scrapeAmazonProduct. rewrite Hr. cbn [bind]. rewrite Ho, Hc.
  apply parsePriceText_nonneg, nonNegative_fin in Hc as (y & -> & Hy).
  eexists. split; [reflexivity |].
  cbn [Original Current HasDiscount DiscountPct YouSave].
  unfold computeDiscount. rewrite geb_refl_fin. now repeat split.
Qed.

Lemma scrape_without_original_price_witness :
  let page := mkPageData (Some "Widget") (Some "$15.00") None true in
  parsePriceText (originalPriceText page) = None
  /\ parsePriceText (currentPriceText page) = Some (Fin 15)
  /\ exists d,
       scrapeAmazonProduct "" "shots" (fun _ _ => Ret page)
         "https://www.amazon.com/dp/B000111222" 0 = Ret d
       /\ Original d = Some (Fin 15) /\ Current d = Some (Fin 15)
       /\ HasDiscount d = false /\ DiscountPct d = Some (Fin 0) /\ YouSave d = Some (Fin 0).
Proof.
  cbv zeta. split; [reflexivity |]. split; [reflexivity |].
  exact (scrape_without_original_price "" "shots"
           (fun _ _ => Ret (mkPageData (Some "Widget") (Some "$15.00") None true))
           "https://www.amazon.com/dp/B000111222" 0 _ (Fin 15) eq_refl eq_refl eq_refl).
Defined.

(** ** The affiliate link of a scraped page *)

Section LinkFacts.

Implicit Types (s t a : string).

Lemma scan_skip {A} (f : string -> option A) (c : ascii) s :
  f (String c s) = None -> Rules.scan f (String c s) = Rules.scan f s.
Proof. intros H. simpl. now rewrite H. Qed.

Lemma scan_hit {A} (f : string -> option A) s r :
  f s = Some r -> Rules.scan f s = Some r.
Proof. intros H. destruct s; simpl; now rewrite H. Qed.

Lemma extractRaw_shape url a :
  Rules.extractRaw url = Some a -> String.length a = 10 /\ Str.all Str.isAlnum a = true.
Proof.
  unfold Rules.extractRaw. intros H%firstOf_Some.
  destruct H as [H | [H | []]]; apply scan_Some in H as (t & Ht);
    now apply asinAfter_shape in Ht.
Qed.

(** The browser script finds in a product link the identifier it was built
    from. *)
Lemma extractRaw_link a t :
  String.length a = 10 -> Str.all Str.isAlnum a = true ->
  Rules.extractRaw ("https://www.amazon.com/dp/" +:+ a +:+ t) = Some a.
Proof.
  intros Hlen Hall. unfold Rules.extractRaw.
  replace (Rules.scan (Rules.asinAfter "/dp/") ("https://www.amazon.com/dp/" +:+ a +:+ t))
    with (Some a); [reflexivity |].
  symmetry. repeat rewrite append_cons. rewrite append_nil_l.
  do 22 (rewrite scan_skip by reflexivity).
  apply scan_hit. now apply (asinAfter_complete "/dp/" "/dp/").
Qed.

End LinkFacts.

(** X12. In the record of a scraped page the affiliate link is absent
    exactly when the identifier is, and a link that is present leads back to
    the identifier: extracting from it gives the identifier of the record,
    with or without an affiliate tag. *)
Theorem scrape_affiliate_link (tag dir : string) (render : nat -> string -> outcome pageData)
  (url : string) (index : nat) (d : deal) :
  scrapeAmazonProduct tag dir render url index = Ret d ->
  (AffiliateLink d = None <-> ASIN d = None)
  /\ (forall l, AffiliateLink d = Some l -> extractASINFromUrl l = ASIN d).
Proof.
  unfold scrapeAmazonProduct. destruct (render index url) as [page |]; [| discriminate].
  cbn [bind]. intros [= <-]. cbn [AffiliateLink ASIN].
  rewrite (extractASINFromUrl_extractRaw url).
  destruct (Rules.extractRaw url) as [a |] eqn:Ea; cbn [present display andb].
  - destruct (extractRaw_shape url a Ea) as [Hlen Hall].
    replace (Str.truthy a) with true by (now destruct a). cbn [andb].
    split.
    + destruct (Str.truthy tag); split; discriminate.
    + intros l. rewrite extractASINFromUrl_extractRaw.
      destruct (Str.truthy tag); intros [= <-].
      * now apply extractRaw_link.
      * rewrite <- (append_nil_r a) at 1. now apply extractRaw_link.
  - split; [now split |]. discriminate.
Qed.

Lemma scrape_affiliate_link_witness :
  let d := mkDeal (Some "b000111222") (Some "Widget")
                  (Some "https://www.amazon.com/dp/b000111222")
                  (Some (Fin 20)) (Some (Fin 15)) None
                  true true (Some (Fin 25)) (Some (Fin 5))
                  (Some "https://www.amazon.com/dp/b000111222?tag=me-20") in
  scrapeAmazonProduct "me-20" "shots"
    (fun _ _ => Ret (mkPageData (Some "Widget") (Some "$15.00") (Some "$20.00") false))
    "https://www.amazon.com/dp/b000111222" 0 = Ret d
  /\ extractASINFromUrl "https://www.amazon.com/dp/b000111222?tag=me-20" = Some "b000111222".
Proof.
  cbv zeta. split; [reflexivity |].
  exact (proj2 (scrape_affiliate_link "me-20" "shots"
           (fun _ _ => Ret (mkPageData (Some "Widget") (Some "$15.00") (Some "$20.00") false))
           "https://www.amazon.com/dp/b000111222" 0 _ eq_refl) _ eq_refl).
Defined.

(** ** The order of the records in the output of the browser script *)

Section SortFacts.

Implicit Types (d e : deal) (l : list deal).

Lemma ltb_asym d e :
  finiteKey d -> finiteKey e ->
  Num.ltb (sortKey d) (sortKey e) = true -> Num.ltb (sortKey e) (sortKey d) = false.
Proof.
  unfold finiteKey. destruct (sortKey d) as [x | | |], (sortKey e) as [y | | |];
    try discriminate. intros _ _ H%Qltb_true. apply Qltb_false. lra.
Qed.

Lemma ltb_trans_neg d e f :
  finiteKey d -> finiteKey e -> finiteKey f ->
  Num.ltb (sortKey d) (sortKey e) = false -> Num.ltb (sortKey e) (sortKey f) = false ->
  Num.ltb (sortKey d) (sortKey f) = false.
Proof.
  unfold finiteKey. destruct (sortKey d) as [x | | |], (sortKey e) as [y | | |],
    (sortKey f) as [z | | |]; try discriminate. intros _ _ _ H1 H2.
  unfold Num.ltb, Num.Qltb in *. rewrite Bool.negb_false_iff, Qle_bool_iff in *. lra.
Qed.

Lemma insertDeal_perm d l : Permutation (insertDeal d l) (d :: l).
Proof.
  induction l as [| e l IH]; [reflexivity |]. cbn [insertDeal].
  destruct (Num.ltb (sortKey d) (sortKey e)); [| reflexivity].
  rewrite IH. apply perm_swap.
Qed.

Lemma sortDeals_perm l : Permutation (sortDeals l) l.
Proof.
  induction l as [| d l IH]; [reflexivity |].
  change (sortDeals (d :: l)) with (insertDeal d (sortDeals l)).
  rewrite insertDeal_perm. now constructor.
Qed.

Lemma insertDeal_descending d l :
  finiteKey d -> Forall finiteKey l -> descending l -> descending (insertDeal d l).
Proof.
  intros Hd. induction l as [| e l IH]; intros Hfin Hdesc; [now split |].
  inversion Hfin as [| ? ? He Hl]; subst. destruct Hdesc as [Hall Hdesc].
  cbn [insertDeal]. destruct (Num.ltb (sortKey d) (sortKey e)) eqn:Hlt.
  - split; [| now apply IH].
    apply (Permutation_Forall (x := d :: l)); [symmetry; apply insertDeal_perm |].
    constructor; [now apply ltb_asym | exact Hall].
  - split; [| now split]. constructor; [exact Hlt |].
    rewrite Forall_forall in Hall, Hl |- *. intros f Hf.
    apply (ltb_trans_neg d e f); auto.
Qed.

Lemma sortDeals_descending l : Forall finiteKey l -> descending (sortDeals l).
Proof.
  induction l as [| d l IH]; intros Hfin; [exact I |].
  inversion Hfin as [| ? ? Hd Hl]; subst.
  change (sortDeals (d :: l)) with (insertDeal d (sortDeals l)).
  apply insertDeal_descending; [assumption | | now apply IH].
  apply (Permutation_Forall (x := l)); [symmetry; apply sortDeals_perm | assumption].
Qed.

(** Insertion moves a record only past records of a higher rank. *)
Lemma insertDeal_stable x d l :
  finiteKey x -> finiteKey d -> Forall finiteKey l ->
  List.filter (sameRank x) (insertDeal d l) = List.filter (sameRank x) (d :: l).
Proof.
  intros Hx Hd. induction l as [| e l IH]; intros Hfin; [reflexivity |].
  inversion Hfin as [| ? ? He Hl]; subst. cbn [insertDeal].
  destruct (Num.ltb (sortKey d) (sortKey e)) eqn:Hlt; [| reflexivity].
  cbn [List.filter]. rewrite (IH Hl). cbn [List.filter].
  destruct (sameRank x d) eqn:Exd; [| reflexivity].
  replace (sameRank x e) with false; [reflexivity |].
  symmetry. unfold sameRank in *. apply andb_prop in Exd as [H1 H2].
  apply Bool.negb_true_iff in H1, H2.
  destruct (Num.ltb (sortKey x) (sortKey e)) eqn:Hxe; [reflexivity |]. exfalso.
  pose proof (ltb_trans_neg d x e Hd Hx He H2 Hxe). congruence.
Qed.

Lemma sortDeals_stable x l :
  finiteKey x -> Forall finiteKey l ->
  List.filter (sameRank x) (sortDeals l) = List.filter (sameRank x) l.
Proof.
  intros Hx. induction l as [| d l IH]; intros Hfin; [reflexivity |].
  inversion Hfin as [| ? ? Hd Hl]; subst.
  change (sortDeals (d :: l)) with (insertDeal d (sortDeals l)).
  rewrite insertDeal_stable; trivial.
  - cbn [List.filter]. now rewrite IH.
  - apply (Permutation_Forall (x := l)); [symmetry; apply sortDeals_perm | assumption].
Qed.

End SortFacts.

Section ScrapedKeys.

Variable URL_new : string -> outcome URL.
Variable AFFILIATE_TAG : string.
Variable screenshotDir : string.
Variable render : nat -> string -> outcome pageData.
Variable pause : nat -> outcome unit.

Lemma scrape_key_finite url index d :
  scrapeAmazonProduct AFFILIATE_TAG screenshotDir render url index = Ret d -> finiteKey d.
Proof.
  unfold scrapeAmazonProduct. destruct (render index url) as [page |]; [| discriminate].
  cbn [bind]. intros [= <-]. unfold finiteKey, sortKey. cbn [DiscountPct].
  destruct (parsePriceText (currentPriceText page)) as [c |] eqn:Hc.
  - apply parsePriceText_nonneg, nonNegative_fin in Hc as (y & -> & Hy).
    destruct (parsePriceText (originalPriceText page)) as [o |] eqn:Eo.
    + apply parsePriceText_nonneg, nonNegative_fin in Eo as (x & -> & Hx).
      destruct (computeDiscount_range x y Hx Hy) as (_ & (p & -> & Hp) & _).
      now destruct p.
    + destruct (computeDiscount_range y y Hy Hy) as (_ & (p & -> & Hp) & _).
      now destruct p.
  - now destruct (parsePriceText (originalPriceText page)).
Qed.

Lemma visit_keys url i deals :
  Forall finiteKey deals ->
  Forall finiteKey (visit URL_new AFFILIATE_TAG screenshotDir render pause url i deals).
Proof.
  intros H. unfold visit, tryVisit.
  assert (Hp : forall a, finiteKey (passThrough a url)) by reflexivity.
  destruct (URL_new url) as [u |]; [| apply Forall_app; auto].
  destruct (negb (includes "amazon." (hostname u))); [apply Forall_app; auto |].
  destruct (scrapeAmazonProduct _ _ _ url i) as [d |] eqn:Hd; [| apply Forall_app; auto].
  apply scrape_key_finite in Hd.
  destruct (pause i); repeat (apply Forall_app; split); auto.
Qed.

Lemma visitFrom_keys urls :
  forall i deals, Forall finiteKey deals ->
  Forall finiteKey (visitFrom URL_new AFFILIATE_TAG screenshotDir render pause i urls deals).
Proof.
  induction urls as [| url urls IH]; intros i deals H; [exact H |].
  cbn [visitFrom]. apply IH. now apply visit_keys.
Qed.

End ScrapedKeys.

(** X13. The array written to [deals.json] holds the records collected by
    the loop, the same ones and as many of each, in the order of their
    discount percentages, highest first, an absent percentage counting as 0;
    records of equal percentage keep the order in which they were
    collected. *)
Theorem scrapeAll_sorted (URL_new : string -> outcome URL) (tag dir : string)
  (render : nat -> string -> outcome pageData) (pause : nat -> outcome unit) (txt : string) :
  let collected := visitFrom URL_new tag dir render pause 0 (readUrls txt) [] in
  let out := scrapeAll URL_new tag dir render pause txt in
  Permutation out collected
  /\ descending out
  /\ (forall d, d ∈ collected ->
        List.filter (sameRank d) out = List.filter (sameRank d) collected).
Proof.
  cbv zeta. unfold scrapeAll.
  pose proof (visitFrom_keys URL_new tag dir render pause (readUrls txt) 0 []
                ltac:(constructor)) as Hfin.
  split; [apply sortDeals_perm |]. split; [now apply sortDeals_descending |].
  intros d Hd. apply sortDeals_stable; [| assumption].
  rewrite Forall_forall in Hfin. now apply Hfin.
Qed.

(** ** What the rate limiter costs *)

Section LimiterCost.

Variable interval : Z.
Hypothesis interval_nonneg : (0 <= interval)%Z.

Open Scope Z_scope.

(** With the recorded start not in the future, one pass through the limiter
    takes the lateness and at most one interval. *)
Lemma throttle_cost late w :
  0 <= late -> lastFetchAt w <= clock w ->
  clock w + late <= clock (throttle interval late w) <= clock w + late + interval
  /\ lastFetchAt (throttle interval late w) <= clock (throttle interval late w).
Proof.
  intros Hl Hinv. unfold throttle, elapse. cbn [clock lastFetchAt].
  destruct (Z.ltb_spec (clock w - lastFetchAt w) interval); cbn [clock]; lia.
Qed.

Lemma runBatches_cost bs :
  forall w, lastFetchAt w <= clock w ->
  Forall (fun b => 0 <= late b /\ 0 <= work b) bs ->
  let w' := fst (runBatches interval bs w) in
  let spent := fold_right (fun b t => batchTime b + t) 0 bs in
  clock w + spent <= clock w' <= clock w + spent + interval * Z.of_nat (length bs)
  /\ lastFetchAt w' <= clock w'.
Proof.
  induction bs as [| b bs IH]; intros w Hinv Hall; cbv zeta.
  - cbn [runBatches fst fold_right length]. lia.
  - inversion Hall as [| ? ? [Hl Hw] Hbs]; subst. cbn [runBatches fold_right].
    destruct (throttle_cost (late b) w Hl Hinv) as [Hc Hi].
    specialize (IH (elapse (work b) (throttle interval (late b) w))).
    cbv zeta in IH. cbn [elapse clock lastFetchAt] in IH.
    specialize (IH ltac:(lia) Hbs).
    destruct (runBatches interval bs (elapse (work b) (throttle interval (late b) w)))
      as [w2 starts]. cbn [fst] in *. unfold batchTime at 1 3.
    rewrite length_cons, Nat2Z.inj_succ. lia.
Qed.

Lemma runFiles_cost fs :
  forall w, lastFetchAt w <= clock w -> forward fs ->
  let w' := fst (runFiles interval fs w) in
  clock w + runTime fs <= clock w' <= clock w + runTime fs + interval * batchCount fs
  /\ lastFetchAt w' <= clock w'.
Proof.
  induction fs as [| f fs IH]; intros w Hinv Hall; cbv zeta.
  - cbn [runFiles fst runTime batchCount fold_right]. lia.
  - inversion Hall as [| ? ? [Hs Hbs] Hfs]; subst. cbn [runFiles]. unfold processTxtFile.
    pose proof (runBatches_cost (batches f) (elapse (setup f) w)) as Hb.
    cbv zeta in Hb. cbn [elapse clock lastFetchAt] in Hb. specialize (Hb ltac:(lia) Hbs).
    destruct (runBatches interval (batches f) (elapse (setup f) w)) as [w1 s1].
    cbn [fst] in Hb. specialize (IH w1 ltac:(lia) Hfs). cbv zeta in IH.
    destruct (runFiles interval fs w1) as [w2 s2]. cbn [fst] in *.
    unfold runTime, batchCount in *. cbn [fold_right]. unfold fileTime at 1 3. lia.
Qed.

End LimiterCost.

(** X14. The rate limiter never holds a call back for more than one
    interval: in a run in which time does not go backwards, the time at the
    end is the time at the start plus what reading, fetching and writing
    took, plus at most one interval for each batch. *)
Theorem throttle_cost_bound (interval t0 : Z) (fs : list fileRun) :
  (0 <= interval)%Z -> (0 <= t0)%Z -> forward fs ->
  let finish := clock (fst (runFiles interval fs (mkWorld t0 0))) in
  (t0 + runTime fs <= finish <= t0 + runTime fs + interval * batchCount fs)%Z.
Proof.
  intros Hi Ht Hf. cbv zeta.
  now destruct (runFiles_cost interval Hi fs (mkWorld t0 0) Ht Hf) as [H _].
Qed.

Lemma throttle_cost_bound_witness :
  forward [mkFileRun 5 [mkBatchRun 0 300; mkBatchRun 2 100]; mkFileRun 3 [mkBatchRun 1 0]]
  /\ (1000000 + 411 <= 1002508 <= 1000000 + 411 + 1250 * 3)%Z.
Proof.
  assert (H : forward [mkFileRun 5 [mkBatchRun 0 300; mkBatchRun 2 100];
                       mkFileRun 3 [mkBatchRun 1 0]]).
  { repeat constructor; discriminate. }
  split; [exact H |].
  exact (throttle_cost_bound 1250 1000000 _ ltac:(discriminate) ltac:(discriminate) H).
Defined.

(** ** Random choices *)

Section RandomFacts.

Lemma floor_scaled (u : Q) (n : Z) :
  (0 <= u)%Q -> (u < 1)%Q -> (0 < n)%Z -> (0 <= Qfloor (u * inject_Z n) < n)%Z.
Proof.
  intros H0 H1 Hn.
  assert (Hq : (0 < inject_Z n)%Q) by (change 0%Q with (inject_Z 0); now rewrite <- Zlt_Qlt).
  split.
  - change 0%Z with (Qfloor 0). apply Qfloor_resp_le.
    apply Qmult_le_0_compat; [assumption | now apply Qlt_le_weak].
  - rewrite Zlt_Qlt. eapply Qle_lt_trans; [apply Qfloor_le |].
    rewrite <- (Qmult_1_l (inject_Z n)) at 2. now apply Qmult_lt_compat_r.
Qed.

Lemma floor_fraction (k n : Z) :
  (0 < n)%Z -> Qfloor ((k # Z.to_pos n) * inject_Z n) = k.
Proof.
  intros Hn. rewrite <- (Qfloor_Z k) at 2. apply Qfloor_comp.
  unfold Qeq, Qmult, inject_Z. cbn [Qnum Qden]. rewrite Pos2Z.inj_mul, Z2Pos.id by assumption.
  ring.
Qed.

End RandomFacts.

(** X15. With a random number from 0 up to, not including, 1, [randomInt]
    yields an integer from [min] to [max], both included, and every integer
    of that range is the result for some random number. *)
Theorem randomInt_range (min max : Z) :
  (min <= max)%Z ->
  (forall u, (0 <= u)%Q -> (u < 1)%Q -> (min <= randomInt min max u <= max)%Z)
  /\ (forall k, (min <= k <= max)%Z ->
        exists u, (0 <= u)%Q /\ (u < 1)%Q /\ randomInt min max u = k).
Proof.
  intros Hm. split.
  - intros u H0 H1. unfold randomInt.
    pose proof (floor_scaled u (max - min + 1) H0 H1 ltac:(lia)). lia.
  - intros k Hk. exists ((k - min) # Z.to_pos (max - min + 1)). split; [| split].
    + unfold Qle. cbn [Qnum Qden]. lia.
    + unfold Qlt. cbn [Qnum Qden]. rewrite Z2Pos.id by lia. lia.
    + unfold randomInt. rewrite floor_fraction by lia. lia.
Qed.

Lemma randomInt_range_witness :
  (3000 <= 10000)%Z /\ (3000 <= randomInt 3000 10000 (999 # 1000) <= 10000)%Z.
Proof.
  split; [discriminate |].
  apply (proj1 (randomInt_range 3000 10000 ltac:(discriminate)));
    [discriminate | reflexivity].
Defined.

(** X16. With a random number from 0 up to, not including, 1, [randomChoice]
    on an array that is not empty yields one of its elements, never
    [undefined]. *)
Theorem randomChoice_member {A} (arr : list A) (u : Q) :
  arr <> [] -> (0 <= u)%Q -> (u < 1)%Q ->
  exists x, randomChoice arr u = Some x /\ x ∈ arr.
Proof.
  intros Hne H0 H1. unfold randomChoice.
  assert (Hlen : (0 < Z.of_nat (length arr))%Z) by (destruct arr; [congruence | cbn; lia]).
  pose proof (floor_scaled u _ H0 H1 Hlen) as Hf.
  destruct (lookup_lt_is_Some_2 arr (Z.to_nat (Qfloor (u * inject_Z (Z.of_nat (length arr))))))
    as [x Hx]; [lia |].
  exists x. split; [exact Hx |]. eapply list_elem_of_lookup_2, Hx.
Qed.

Lemma randomChoice_member_witness :
  exists x, randomChoice ["a"; "b"; "c"; "d"] (7 # 10) = Some x /\ x ∈ ["a"; "b"; "c"; "d"].
Proof.
  apply (randomChoice_member ["a"; "b"; "c"; "d"] (7 # 10)); [discriminate | discriminate | reflexivity].
Defined.

(** ** Prices of the Keepa rows *)

Section RoundingFacts.

Open Scope Q_scope.

Lemma nearestUp_integer (z : Z) q : q == inject_Z z -> Num.nearestUp q = z.
Proof.
  intros E. unfold Num.nearestUp. rewrite E.
  pose proof (Qfloor_le (inject_Z z + (1 # 2))) as Hle.
  assert (Hge : (Qfloor (inject_Z z) <= Qfloor (inject_Z z + (1 # 2)))%Z)
    by (apply Qfloor_resp_le; lra).
  rewrite Qfloor_Z in Hge.
  assert (Hlt : inject_Z (Qfloor (inject_Z z + (1 # 2))) < inject_Z (z + 1)).
  { rewrite inject_Z_plus. change (inject_Z 1) with 1. lra. }
  rewrite <- Zlt_Qlt in Hlt. lia.
Qed.

Lemma hundredths_scaled (n : Z) : (n # 100) * 100 == inject_Z n.
Proof. unfold Qeq, Qmult, inject_Z. cbn. lia. Qed.

(** A number of whole hundredths is its own rounding. *)
Lemma toFixed2_hundredths (n : Z) r :
  r == n # 100 -> Num.toFixed2 (Num.fin r) = Num.fin r.
Proof.
  intros E. unfold Num.fin at 1. unfold Num.toFixed2.
  destruct (Qle_bool (10 ^ 21) (Qabs (Qred r))); [reflexivity |].
  destruct (Num.Qltb (Qred r) 0); unfold Num.fin; f_equal; apply Qred_complete.
  - rewrite (nearestUp_integer (- n)).
    + rewrite E. unfold Qeq, Qopp. cbn. lia.
    + rewrite Qred_correct, E. rewrite <- (hundredths_scaled (- n)).
      unfold Qeq, Qopp, Qmult. cbn. lia.
  - rewrite (nearestUp_integer n); [now symmetry |].
    rewrite Qred_correct, E. apply hundredths_scaled.
Qed.

(** Rounding twice is rounding once. *)
Lemma toFixed2_idem a : Num.toFixed2 (Num.toFixed2 a) = Num.toFixed2 a.
Proof.
  destruct a as [x | | |]; try reflexivity.
  remember (Num.toFixed2 (Fin x)) as y eqn:Ey. unfold Num.toFixed2 in Ey.
  destruct (Qle_bool (10 ^ 21) (Qabs x)) eqn:Eb.
  - subst y. unfold Num.toFixed2. now rewrite Eb.
  - destruct (Num.Qltb x 0); subst y.
    + apply (toFixed2_hundredths (- Num.nearestUp (- x * 100))). reflexivity.
    + apply (toFixed2_hundredths (Num.nearestUp (x * 100))). reflexivity.
Qed.

Lemma fmtUsd_idem p : fmtUsd (fmtUsd p) = fmtUsd p.
Proof. destruct p as [a |]; [| reflexivity]. cbn [fmtUsd]. now rewrite toFixed2_idem. Qed.

(** What [keepaToUSD] yields is absent or a rounded amount, not negative. *)
Lemma keepaToUSD_shape v :
  keepaToUSD v = None
  \/ exists q, keepaToUSD v = Some (Fin q) /\ 0 <= q /\ Num.toFixed2 (Fin q) = Fin q.
Proof.
  destruct v as [| | [x | | |]]; try (now left).
  cbn [keepaToUSD Num.isFinite negb orb Num.leb].
  destruct (Qle_bool x 0) eqn:E; [now left |]. right.
  assert (Hx : 0 < x).
  { apply Qnot_le_lt. intros H. apply Qle_bool_iff in H. congruence. }
  assert (Hd : nonNegative (Num.div (Fin x) (Num.ofZ 100))).
  { unfold Num.div, Num.ofZ. change (Qeq_bool (100 # 1) 0) with false. cbv iota.
    unfold Num.fin, nonNegative. rewrite Qred_correct.
    unfold Qdiv. change (/ (100 # 1)) with (1 # 100). lra. }
  destruct (nonNegative_fin _ Hd) as (d & Ed & Hd0). rewrite Ed.
  destruct (nonNegative_fin _ (toFixed2_nonneg d Hd0)) as (q & Eq & Hq0).
  exists q. split; [now rewrite Eq |]. split; [exact Hq0 |].
  rewrite <- Eq. apply toFixed2_idem.
Qed.

Lemma keepaToUSD_fixed v : fmtUsd (keepaToUSD v) = keepaToUSD v.
Proof.
  destruct (keepaToUSD_shape v) as [-> | (q & -> & _ & E)]; [reflexivity |].
  cbn [fmtUsd]. now rewrite E.
Qed.

(** The discount flag of two amounts that [keepaToUSD] yielded. *)
Lemma keepa_flag (orig cur : option num) :
  (orig = None \/ exists o, orig = Some (Fin o) /\ 0 <= o) ->
  (cur = None \/ exists c, cur = Some (Fin c) /\ 0 <= c) ->
  Num.gtb (discountAmtOf orig cur) (Fin 0) = true
  <-> exists c o, cur = Some (Fin c) /\ orig = Some (Fin o) /\ 0 < c /\ c < o.
Proof.
  intros [-> | (o & -> & Ho)] [-> | (c & -> & Hc)]; unfold discountAmtOf, bothTruthy.
  - split; [discriminate | now intros (c & o & [=] & _)].
  - split; [discriminate | now intros (c' & o & _ & [=] & _)].
  - split; [discriminate | now intros (c & o' & [=] & _)].
  - cbn [Num.truthy numOf].
    destruct (Qeq_bool o 0) eqn:Eo; cbn [negb andb].
    { apply Qeq_bool_iff in Eo. split; [discriminate |].
      intros (c' & o' & [= <-] & [= <-] & H1 & H2). lra. }
    destruct (Qeq_bool c 0) eqn:Ec; cbn [negb andb].
    { apply Qeq_bool_iff in Ec. split; [discriminate |].
      intros (c' & o' & [= <-] & [= <-] & H1 & H2). lra. }
    assert (Hc0 : 0 < c).
    { apply Qle_lt_or_eq in Hc as [H | H]; [exact H |].
      symmetry in H. apply Qeq_bool_iff in H. congruence. }
    unfold Num.gtb, Num.sub, Num.fin, Num.ltb. rewrite Qltb_true, Qred_correct. split.
    + intros H. exists c, o. repeat split; try assumption. lra.
    + intros (c' & o' & [= <-] & [= <-] & _ & H2). lra.
Qed.

End RoundingFacts.

(** X17. A Keepa amount that is a whole positive number of cents becomes the
    exact amount in dollars: the rounding to two decimals changes nothing. *)
Theorem keepaToUSD_cents (z : Z) :
  (0 < z)%Z -> keepaToUSD (VNum (Num.ofZ z)) = Some (Num.fin (z # 100)).
Proof.
  intros Hz. unfold keepaToUSD, Num.ofZ. cbn [Num.isFinite negb orb Num.leb].
  rewrite Qle_bool_false by (unfold Qlt; cbn; lia).
  unfold Num.div. change (Qeq_bool (100 # 1) 0) with false. cbv iota.
  assert (E : ((z # 1) / (100 # 1) == z # 100)%Q).
  { unfold Qdiv. change (/ (100 # 1))%Q with (1 # 100)%Q. unfold Qeq, Qmult. cbn. lia. }
  rewrite (toFixed2_hundredths z) by exact E.
  unfold Num.fin. do 2 f_equal. now apply Qred_complete.
Qed.

Lemma keepaToUSD_cents_witness :
  keepaToUSD (VNum (Num.ofZ 1999)) = Some (Fin (1999 # 100)).
Proof. exact (keepaToUSD_cents 1999 ltac:(reflexivity)). Defined.

(** X18. The two prices of a Keepa row are the amounts of the summary: the
    second rounding, done when the row is written, changes nothing.  The row
    is marked as discounted exactly when it shows two prices with
    0 < Current < Original. *)
Theorem keepa_row_discount (tag domain : string) (product : keepaProduct)
  (link : option string) :
  let r := summarizeKeepa tag domain product link in
  let row := dealRow r in
  Current row = s_current r
  /\ Original row = s_original r
  /\ (HasDiscount row = true
      <-> exists c o, Current row = Some (Fin c) /\ Original row = Some (Fin o)
                      /\ (0 < c)%Q /\ (c < o)%Q).
Proof.
  cbv zeta.
  cbn [dealRow summarizeKeepa Current Original HasDiscount s_current s_original
       s_hasDiscount].
  rewrite !keepaToUSD_fixed. split; [reflexivity |]. split; [reflexivity |].
  apply keepa_flag.
  - destruct (keepaToUSD_shape
                (coalesce (statsField ks_current (kp_stats product) 4)
                   (coalesce (statsField ks_avg90 (kp_stats product) 0) VNull)))
      as [-> | (q & -> & H & _)]; [now left | right; eauto].
  - destruct (keepaToUSD_shape (statsField ks_current (kp_stats product) 0))
      as [-> | (q & -> & H & _)]; [now left | right; eauto].
Qed.

(** ** The timestamp of a signed request *)

(** X19. For a year of four digits, the request carries in [x-amz-date] the
    time of the request as the sixteen characters [YYYYMMDDThhmmssZ], without
    the milliseconds, and its [Authorization] header names the credential
    scope [YYYYMMDD/<region>/<service>/aws4_request] of the same day. *)
Theorem request_timestamp (sha256 : string -> string) (hmacSha256 : string -> string -> string)
  (Payload : Type) (JSON_stringify : Payload -> string) (a : signerInput Payload)
  (now : Date) :
  (0 <= year now <= 9999)%Z ->
  let req := buildAuthHeaders sha256 hmacSha256 Payload JSON_stringify a now in
  let scope :=
    SigV4.basicDate now +:+ "/" +:+ region a +:+ "/" +:+ service a +:+ "/aws4_request" in
  ("x-amz-date", SigV4.basicTimestamp now) ∈ headers req
  /\ String.length (SigV4.basicTimestamp now) = 16
  /\ exists sig,
       ("Authorization",
        "AWS4-HMAC-SHA256 Credential=" +:+ accessKey a +:+ "/" +:+ scope +:+
        ", SignedHeaders=content-encoding;content-type;host;x-amz-date;x-amz-target, Signature="
        +:+ sig) ∈ headers req.
Proof.
  intros Hy. destruct (amzDate_format now Hy) as [Et Ed]. cbv zeta.
  unfold buildAuthHeaders. cbn [headers].
  change (Str.take 15 (Re.deleteAll Patterns.isoPunct (toISOString now)) +:+ "Z")
    with (SigV4.amzDateOf now).
  rewrite Ed, Et. split; [| split].
  - do 3 apply list_elem_of_further. apply list_elem_of_here.
  - reflexivity.
  - eexists. do 5 apply list_elem_of_further. apply list_elem_of_here.
Qed.

Lemma request_timestamp_witness :
  let now := mkDate 2026 3 9 7 5 2 41 in
  let a := mkSignerInput string "AK" "SK" "us-east-1" "ProductAdvertisingAPI"
             "webservices.amazon.com" "GetItems" "/paapi5/getitems" "{}" in
  ("x-amz-date", "20260309T070502Z")
    ∈ headers (buildAuthHeaders (fun s => s) (fun k d => k +:+ d) string (fun p => p) a now).
Proof.
  exact (proj1 (request_timestamp (fun s => s) (fun k d => k +:+ d) string (fun p => p)
                  (mkSignerInput string "AK" "SK" "us-east-1" "ProductAdvertisingAPI"
                     "webservices.amazon.com" "GetItems" "/paapi5/getitems" "{}")
                  (mkDate 2026 3 9 7 5 2 41) ltac:(split; discriminate))).
Defined.

(** ** Screenshots *)

Section ShotFacts.

Variable URL_new : string -> outcome URL.
Variable AFFILIATE_TAG : string.
Variable screenshotDir : string.
Variable render : nat -> string -> outcome pageData.
Variable pause : nat -> outcome unit.

Lemma shotOf_inj j k p : shotOf screenshotDir j p -> shotOf screenshotDir k p -> j = k.
Proof.
  intros [r1 ->] [r2 E]. apply String.app_inj in E. injection E as E.
  apply digits_then_mark in E as [E _];
    [| apply showNat_digits | apply showNat_digits | reflexivity].
  apply showNat_inj in E. lia.
Qed.

Lemma screenshotPath_shot found asin i p :
  screenshotPath screenshotDir found asin i = Some p -> shotOf screenshotDir i p.
Proof.
  unfold screenshotPath. destruct found; [| discriminate]. intros [= <-]. now eexists.
Qed.

Lemma scrape_image url i d :
  scrapeAmazonProduct AFFILIATE_TAG screenshotDir render url i = Ret d ->
  forall p, Image d = Some p -> shotOf screenshotDir i p.
Proof.
  unfold scrapeAmazonProduct. destruct (render i url) as [page |]; [| discriminate].
  cbn [bind]. intros [= <-] p. cbn [Image]. apply screenshotPath_shot.
Qed.

Lemma shotsBefore_later i deals : shotsBefore screenshotDir i deals ->
  shotsBefore screenshotDir (S i) deals.
Proof.
  intros [Hn Hb]. split; [exact Hn |]. intros p Hp.
  destruct (Hb p Hp) as (j & Hj & Hs). exists j. split; [lia | exact Hs].
Qed.

Lemma shotsBefore_plain i deals a url :
  shotsBefore screenshotDir i deals ->
  shotsBefore screenshotDir i (deals ++ [passThrough a url]).
Proof.
  unfold shotsBefore. rewrite omap_app. cbn [omap list_omap passThrough Image].
  now rewrite app_nil_r.
Qed.

Lemma shotsBefore_scraped i deals url d :
  scrapeAmazonProduct AFFILIATE_TAG screenshotDir render url i = Ret d ->
  shotsBefore screenshotDir i deals -> shotsBefore screenshotDir (S i) (deals ++ [d]).
Proof.
  intros Hd [Hn Hb]. pose proof (scrape_image url i d Hd) as Hi.
  unfold shotsBefore. rewrite omap_app. cbn [omap list_omap].
  destruct (Image d) as [p |]; cbn [option_map from_option].
  2: { rewrite app_nil_r. now apply shotsBefore_later. }
  specialize (Hi p eq_refl). split.
  - apply NoDup_app. split; [exact Hn |]. split; [| apply NoDup_singleton].
    intros q Hq ->%list_elem_of_singleton.
    destruct (Hb p Hq) as (j & Hj & Hs). pose proof (shotOf_inj j i p Hs Hi). lia.
  - intros q [Hq | ->%list_elem_of_singleton]%elem_of_app.
    + destruct (Hb q Hq) as (j & Hj & Hs). exists j. split; [lia | exact Hs].
    + exists i. split; [lia | exact Hi].
Qed.

Lemma visit_shots url i deals :
  shotsBefore screenshotDir i deals ->
  shotsBefore screenshotDir (S i)
    (visit URL_new AFFILIATE_TAG screenshotDir render pause url i deals).
Proof.
  intros H. unfold visit, tryVisit.
  destruct (URL_new url) as [u |];
    [| now apply shotsBefore_later, shotsBefore_plain].
  destruct (negb (includes "amazon." (hostname u)));
    [now apply shotsBefore_later, shotsBefore_plain |].
  destruct (scrapeAmazonProduct _ _ _ url i) as [d |] eqn:Hd;
    [| now apply shotsBefore_later, shotsBefore_plain].
  destruct (pause i).
  - now apply (shotsBefore_scraped i deals url).
  - apply shotsBefore_plain. now apply (shotsBefore_scraped i deals url).
Qed.

Lemma visitFrom_shots urls :
  forall i deals, shotsBefore screenshotDir i deals ->
  shotsBefore screenshotDir (i + length urls)
    (visitFrom URL_new AFFILIATE_TAG screenshotDir render pause i urls deals).
Proof.
  induction urls as [| url urls IH]; intros i deals H; cbn [visitFrom length].
  - now rewrite Nat.add_0_r.
  - replace (i + S (length urls)) with (S i + length urls) by lia.
    apply IH. now apply visit_shots.
Qed.

End ShotFacts.

(** X20. No two records of a run name the same screenshot file, so no
    screenshot is written over another one; and the name of each file starts
    with the position, counted from 1, of a URL of the input. *)
Theorem scrapeAll_screenshots (URL_new : string -> outcome URL) (tag dir : string)
  (render : nat -> string -> outcome pageData) (pause : nat -> outcome unit) (txt : string) :
  shotsBefore dir (length (readUrls txt)) (scrapeAll URL_new tag dir render pause txt).
Proof.
  pose proof (visitFrom_shots URL_new tag dir render pause (readUrls txt) 0 []) as H.
  cbn [Nat.add] in H. destruct H as [Hn Hb].
  { split; [constructor | intros p Hp; cbn in Hp; now apply elem_of_nil in Hp]. }
  assert (Hp : Permutation (omap Image (scrapeAll URL_new tag dir render pause txt))
                 (omap Image (visitFrom URL_new tag dir render pause 0 (readUrls txt) []))).
  { unfold scrapeAll. now rewrite sortDeals_perm. }
  split.
  - now rewrite Hp.
  - intros p Hin. apply Hb. now rewrite <- Hp.
Qed.

(** ** Links of the PA rows *)

Lemma present_orElse a b : present (orElse a b) = (present a || present b)%bool.
Proof.
  destruct a as [s |]; cbn [orElse present]; [| reflexivity].
  destruct (Str.truthy s) eqn:E; cbn [present orb]; [now rewrite E | reflexivity].
Qed.

Lemma orElse_present a b : present a = true -> orElse a b = a.
Proof. destruct a as [s |]; cbn [orElse present]; [now intros -> | discriminate]. Qed.

Lemma orElse_absent a b : present a = false -> orElse a b = b.
Proof. destruct a as [s |]; cbn [orElse present]; [now intros -> | reflexivity]. Qed.

(** X21. The link of a PA row is the page address the provider gave, when it
    gave one; otherwise the reference on the first line that carried the
    item's identifier; and a row whose item has an identifier is never
    without a link. *)
Theorem paRows_link (URL_new : string -> outcome URL) (lines : list string) (it : paItem) :
  match dedupe URL_new lines with
  | Ret r =>
      let row := dealRow (summarizePA it (linkFor r (pa_ASIN it))) in
      let first := firstReference URL_new lines (pa_ASIN it) in
      (present (pa_detailPageURL it) = true -> Link row = pa_detailPageURL it)
      /\ (present (pa_detailPageURL it) = false -> present first = true -> Link row = first)
      /\ (present (pa_ASIN it) = true -> present (Link row) = true)
  | Throw => False
  end.
Proof.
  destruct (dedupe_final URL_new lines) as (r & -> & [Ha Hd Hs Hl Hn He]).
  rewrite take_ids in Hl. cbv zeta. cbn [dealRow summarizePA Link s_link].
  assert (E : linkFor r (pa_ASIN it) = firstReference URL_new lines (pa_ASIN it)).
  { unfold linkFor, firstReference. destruct (pa_ASIN it) as [a |]; [apply Hl | reflexivity]. }
  rewrite E. split; [| split].
  - intros H. now rewrite !(orElse_present _ _ H).
  - intros H1 H2. rewrite (orElse_absent _ _ H1). now rewrite (orElse_present _ _ H2).
  - intros H. rewrite !present_orElse, H. cbn [present]. unfold Str.truthy.
    now rewrite !Bool.orb_true_r.
Qed.
